(** * docx-wiz-fixer: paragraph extraction, numbering and comparison

    A shallow embedding of the text utilities of the DOCX workbench
    (extractParagraphsFromHtml, normalizeParagraphs, findParagraphByItemNumber,
    checkNumbering, renumberHierarchical, compareParagraphSets,
    buildHtmlFromParagraphs with escapeHtml) and of the handlers of the
    workbench component that call them, with the properties their
    specification states about them and further properties of the code.

    Conventions of the embedding
    - A JavaScript string is the list of its UTF-16 code units ([jsstring]).
    - A JavaScript number is [JNum]: an exact integer or NaN.  The program
      only builds numbers with [parseInt], [+ 1] and [- 1]; its numbers are
      doubles, and the embedding is the program as long as the values stay
      inside the safe integer range (below 2^53), where double arithmetic
      and decimal printing are exact.  A property that depends on the value
      of a number beyond what [parseInt], [+ 1] and the printing of a number
      are in the program says so in a hypothesis ([shortDigits],
      [shortNumbers], [safeNat]).  The number operations on doubles are
      [Dbl], [parseIntDbl], [addDbl] and [showDbl]; the renumberer and the
      checker are also run on them, and the last part of the file compares
      the two.
    - Loops that push on an array are folds over an explicit loop state;
      the recursive walk over the tree returns what it pushes on [paras],
      in order.
    - The DOM is a tree of element and text nodes; an element carries its
      lower-cased tag name.
    - The repository holds two listings of the module; they differ in
      findParagraphByItemNumber (both are embedded) and the second has
      neither the list walk nor renumberHierarchical. *)

From Stdlib Require Import ZArith NArith List Bool Lia String Ascii.
From Stdlib Require Import DecimalN DecimalPos DecimalFacts.
From Stdlib Require Import Sorting.Sorted.
From stdpp Require Import base list gmap sets.
Import ListNotations.

Local Open Scope N_scope.
Set Warnings "-register-all".

(** ** Strings *)

Module JS.

Abbreviation jsstring := (list N).

(** A literal of the source, as code units. *)
Definition str (s : string) : jsstring :=
  List.map N_of_ascii (list_ascii_of_string s).

(** The characters matched by [\s] and stripped by [String.prototype.trim]:
    WhiteSpace and LineTerminator of ECMAScript. *)
Definition isLineTerminator (c : N) : bool :=
  (c =? 10) || (c =? 13) || (c =? 8232) || (c =? 8233).

Definition isWs (c : N) : bool :=
  (c =? 9) || (c =? 11) || (c =? 12) || (c =? 32) || (c =? 160) ||
  (c =? 5760) || ((8192 <=? c) && (c <=? 8202)) || (c =? 8239) ||
  (c =? 8287) || (c =? 12288) || (c =? 65279) || isLineTerminator c.

(** [\d] *)
Definition isDigit (c : N) : bool := (48 <=? c) && (c <=? 57).

Definition SPACE : N := 32.
Definition DOT : N := 46.
Definition RPAREN : N := 41.

Fixpoint takeWhile (f : N -> bool) (s : jsstring) : jsstring :=
  match s with
  | c :: t => if f c then c :: takeWhile f t else []
  | [] => []
  end.

Fixpoint dropWhile (f : N -> bool) (s : jsstring) : jsstring :=
  match s with
  | c :: t => if f c then dropWhile f t else s
  | [] => []
  end.

(** [s.replace(/\s+/g, " ")]: every maximal run of white space becomes one
    space.  [inRun] tells that the previous unit belonged to the run that is
    being replaced. *)
Fixpoint collapseFrom (inRun : bool) (s : jsstring) : jsstring :=
  match s with
  | [] => []
  | c :: t =>
      if isWs c
      then (if inRun then collapseFrom true t else SPACE :: collapseFrom true t)
      else c :: collapseFrom false t
  end.

Definition replaceWs (s : jsstring) : jsstring := collapseFrom false s.

(** [s.trim()] *)
Definition trimStart (s : jsstring) : jsstring := dropWhile isWs s.
Fixpoint trimEnd (s : jsstring) : jsstring :=
  match s with
  | [] => []
  | c :: t =>
      match trimEnd t with
      | [] => if isWs c then [] else [c]
      | t' => c :: t'
      end
  end.
Definition trim (s : jsstring) : jsstring := trimEnd (trimStart s).

(** [s.replace(/\s+/g, " ").trim()], the helper [norm] of the source. *)
Definition norm (s : jsstring) : jsstring := trim (replaceWs s).

Definition isEmpty (s : jsstring) : bool :=
  match s with [] => true | _ => false end.

Fixpoint startsWith (s p : jsstring) {struct p} : bool :=
  match p, s with
  | [], _ => true
  | a :: p', b :: s' => (a =? b) && startsWith s' p'
  | _ :: _, [] => false
  end.

Definition streq (a b : jsstring) : bool := bool_decide (a = b).

(** [s.split(".")] for a one-unit separator: the pieces between the
    separators, at least one piece. *)
Fixpoint split (sep : N) (s : jsstring) : list jsstring :=
  match s with
  | [] => [[]]
  | c :: t =>
      if c =? sep then [] :: split sep t
      else match split sep t with
           | piece :: more => (c :: piece) :: more
           | [] => [[c]]
           end
  end.

(** [parts.join(sep)] *)
Fixpoint join (sep : jsstring) (parts : list jsstring) : jsstring :=
  match parts with
  | [] => []
  | [p] => p
  | p :: more => p ++ sep ++ join sep more
  end.

(** ** Numbers *)

Inductive JNum : Type :=
| NaN
| Int (z : Z).

Definition JNum_eq_dec (a b : JNum) : {a = b} + {a <> b}.
Proof. decide equality. apply Z.eq_dec. Defined.

(** [a === b] on numbers: NaN is different from everything. *)
Definition strictEq (a b : JNum) : bool :=
  match a, b with
  | Int x, Int y => (x =? y)%Z
  | _, _ => false
  end.

(** [a + 1] and [a - 1].  The program adds doubles: the same number as long
    as the result is below 2^53 in absolute value. *)
Definition addInt (a : JNum) (k : Z) : JNum :=
  match a with
  | Int x => Int (x + k)
  | NaN => NaN
  end.

(** Value of a run of decimal digits, most significant first. *)
Definition digitVal (c : N) : Z := Z.of_N c - 48.

Definition digitsValueFrom (acc : Z) (ds : jsstring) : Z :=
  fold_left (fun a c => (10 * a + digitVal c)%Z) ds acc.

Definition digitsValue (ds : jsstring) : Z := digitsValueFrom 0 ds.

(** [parseInt(s, 10)]: leading white space, an optional sign, then the
    longest run of digits; NaN when that run is empty.  The program's result
    is a double: the same number for a run of up to 15 digits, and the
    nearest double for a run whose value is beyond 2^53. *)
Definition parseInt (s : jsstring) : JNum :=
  let s1 := dropWhile isWs s in
  let '(neg, s2) :=
    match s1 with
    | c :: t => if c =? 45 then (true, t)
                else if c =? 43 then (false, t) else (false, s1)
    | [] => (false, [])
    end in
  match takeWhile isDigit s2 with
  | [] => NaN
  | ds => Int (if neg then - digitsValue ds else digitsValue ds)
  end.

(** Decimal digits of a natural number, as code units. *)
Fixpoint unitsOfUint (d : Decimal.uint) : jsstring :=
  match d with
  | Decimal.Nil => []
  | Decimal.D0 d => 48 :: unitsOfUint d
  | Decimal.D1 d => 49 :: unitsOfUint d
  | Decimal.D2 d => 50 :: unitsOfUint d
  | Decimal.D3 d => 51 :: unitsOfUint d
  | Decimal.D4 d => 52 :: unitsOfUint d
  | Decimal.D5 d => 53 :: unitsOfUint d
  | Decimal.D6 d => 54 :: unitsOfUint d
  | Decimal.D7 d => 55 :: unitsOfUint d
  | Decimal.D8 d => 56 :: unitsOfUint d
  | Decimal.D9 d => 57 :: unitsOfUint d
  end.

Definition natToString (n : N) : jsstring := unitsOfUint (N.to_uint n).

(** [String(x)] for a number, as [Array.prototype.join] applies it: all
    the digits of an integer, which is what the program prints for an
    integer below 2^53 (from 10^21 on it prints an exponent). *)
Definition numToString (x : JNum) : jsstring :=
  match x with
  | NaN => str "NaN"
  | Int z => if (z <? 0)%Z then 45 :: natToString (Z.to_N (- z))
             else natToString (Z.to_N z)
  end.

(** [path.join(".")] on an array of numbers. *)
Definition joinPath (path : list JNum) : jsstring :=
  join [DOT] (List.map numToString path).

End JS.
Import JS.


(** Lower-casing restricted to ASCII text: on a string of code units below
    128, [String.prototype.toLowerCase] and the case-insensitive
    canonicalisation of regular expressions are these functions.  The
    program's functions take the real ones as parameters. *)
Definition asciiLowerUnit (c : N) : N :=
  if (65 <=? c) && (c <=? 90) then c + 32 else c.

Definition asciiUpperUnit (c : N) : N :=
  if (97 <=? c) && (c <=? 122) then c - 32 else c.

Definition asciiToLowerCase (s : jsstring) : jsstring :=
  List.map asciiLowerUnit s.

Definition isAscii (s : jsstring) : Prop := Forall (fun c => c < 128) s.

(** ** Loops over an array *)

(** [for (let i = 0; i < xs.length; i++) { const x = xs[i]; ... }] and
    [xs.forEach((x, idx) => ...)], with the loop state threaded through. *)
Fixpoint forEachFrom {St A : Type} (i : nat) (body : nat -> A -> St -> St)
    (xs : list A) (st : St) : St :=
  match xs with
  | [] => st
  | x :: t => forEachFrom (S i) body t (body i x st)
  end.

Definition forEach {St A : Type} (body : nat -> A -> St -> St)
    (xs : list A) (st : St) : St :=
  forEachFrom 0 body xs st.

(** ** The document tree *)

(** An element carries its lower-cased tag name, its attributes and its
    child nodes; text nodes carry their data. *)
Inductive Node : Type :=
| TextNode (data : jsstring)
| Element (tag : string) (attrs : list (string * jsstring))
          (childNodes : list Node).

Definition hasTag (name : string) (n : Node) : bool :=
  match n with
  | Element tag _ _ => String.eqb tag name
  | TextNode _ => false
  end.

Definition childNodes (n : Node) : list Node :=
  match n with
  | Element _ _ kids => kids
  | TextNode _ => []
  end.

Definition attributes (n : Node) : list (string * jsstring) :=
  match n with
  | Element _ attrs _ => attrs
  | TextNode _ => []
  end.

(** [el.getAttribute(name)]: [None] is [null]. *)
Fixpoint getAttribute (name : string) (attrs : list (string * jsstring))
    : option jsstring :=
  match attrs with
  | [] => None
  | (k, v) :: more => if String.eqb k name then Some v else getAttribute name more
  end.

(** [el.textContent] *)
Fixpoint textContent (n : Node) : jsstring :=
  match n with
  | TextNode d => d
  | Element _ _ kids => flat_map textContent kids
  end.

Definition isListElement (n : Node) : bool := hasTag "ol" n || hasTag "ul" n.

(** The clone of [n] after [clone.querySelectorAll("ol, ul").forEach(n => n.remove())]. *)
Fixpoint withoutLists (n : Node) : Node :=
  match n with
  | TextNode d => TextNode d
  | Element tag attrs kids =>
      Element tag attrs
        (flat_map (fun k => if isListElement k then [] else [withoutLists k]) kids)
  end.

(** [el.querySelectorAll(":scope > name")] *)
Definition childrenTagged (name : string) (n : Node) : list Node :=
  List.filter (hasTag name) (childNodes n).

(** ** extractParagraphsFromHtml: the walk over the parsed tree *)

(** [liMainText]: text of an LI without its nested lists. *)
Definition liMainText (li : Node) : jsstring :=
  norm (textContent (withoutLists li)).

(** [if (text) paras.push(line)] *)
Definition pushIf (text line : jsstring) : list jsstring :=
  if isEmpty text then [] else [line].

(** [startAttr ? parseInt(startAttr, 10) : dflt]: [null] and the empty
    string are falsy. *)
Definition attrOr (a : option jsstring) (dflt : JNum) : JNum :=
  match a with
  | None => dflt
  | Some v => if isEmpty v then dflt else parseInt v
  end.

(** [li.querySelectorAll(":scope > ul > li")], each pushed as plain text. *)
Definition bulletParagraphs (li : Node) : list jsstring :=
  flat_map
    (fun ul => flat_map (fun subLi => let t := norm (textContent subLi) in pushIf t t)
                 (childrenTagged "li" ul))
    (childrenTagged "ul" li).

Section ProcessItems.
Variable processOl : Node -> list JNum -> list jsstring.
Variable stack : list JNum.

(** The body of [Array.from(ol.children).forEach((li) => ...)], with the
    running [counter]; the result lists what is pushed on [paras]. *)
Fixpoint processItems (children : list Node) (counter : JNum)
    : list jsstring :=
  match children with
  | [] => []
  | li :: more =>
      match li with
      | TextNode _ => processItems more counter
      | Element tag liAttrs liKids =>
          if negb (String.eqb tag "li") then processItems more counter
          else
            let current := attrOr (getAttribute "value" liAttrs) (addInt counter 1) in
            let numbering := joinPath (stack ++ [current]) in
            let text := liMainText li in
            pushIf text (numbering ++ [SPACE] ++ text)
            ++ flat_map (fun c => if hasTag "ol" c
                                  then processOl c (stack ++ [current]) else [])
                 liKids
            ++ bulletParagraphs li
            ++ processItems more current
      end
  end.
End ProcessItems.

(** [processOl(ol, stack)] *)
Fixpoint processOl (ol : Node) (stack : list JNum) : list jsstring :=
  match ol with
  | TextNode _ => []
  | Element _ attrs kids =>
      let start := attrOr (getAttribute "start" attrs) (Int 1) in
      processItems processOl stack kids (addInt start (-1))
  end.

(** [walk(root)] *)
Fixpoint walk (root : Node) : list jsstring :=
  match root with
  | TextNode _ => []
  | Element _ _ rootKids =>
      flat_map
        (fun el =>
           match el with
           | TextNode _ => []
           | Element tag _ kids =>
               if String.eqb tag "p" then
                 let text := norm (textContent el) in pushIf text text
               else if String.eqb tag "ol" then processOl el []
               else if String.eqb tag "ul" then
                 flat_map
                   (fun li =>
                      match li with
                      | TextNode _ => []
                      | Element liTag _ liKids =>
                          if negb (String.eqb liTag "li") then []
                          else
                            let text := liMainText li in
                            pushIf text text
                            ++ flat_map (fun c => if hasTag "ol" c
                                                  then processOl c [] else [])
                                 liKids
                            ++ flat_map (fun c => if hasTag "ul" c
                                                  then walk c else [])
                                 liKids
                      end)
                   kids
               else walk el
           end)
        rootKids
  end.

(** [extractParagraphsFromHtml], from the tree that [container.innerHTML = html]
    builds under [container]. *)
Definition extractParagraphs (container : Node) : list jsstring :=
  walk container.

(** ** normalizeParagraphs *)

Definition normalizeParagraphs (paragraphs : list jsstring) : list jsstring :=
  List.filter (fun p => negb (isEmpty p)) (List.map norm paragraphs).

(** ** findParagraphByItemNumber *)

Record ParagraphSearchResult : Type := mkSearchResult {
  sr_index : Z;
  sr_paragraph : jsstring
}.

Definition notFound : ParagraphSearchResult := mkSearchResult (-1) [].

(** The condition of the [if] in the loop (prefix-based listing). *)
Definition itemMatches (target paragraph : jsstring) : bool :=
  startsWith paragraph (target ++ [SPACE]) ||
  startsWith paragraph (target ++ [DOT]) ||
  startsWith paragraph (target ++ [RPAREN]) ||
  streq paragraph target.

(** The [for] loop with its early [return]. *)
Fixpoint findFrom (accepts : jsstring -> bool) (i : nat)
    (paragraphs : list jsstring) : ParagraphSearchResult :=
  match paragraphs with
  | [] => notFound
  | paragraph :: more =>
      if accepts paragraph then mkSearchResult (Z.of_nat i) paragraph
      else findFrom accepts (S i) more
  end.

Definition findParagraphByItemNumber (paragraphs : list jsstring)
    (itemNumber : jsstring) : ParagraphSearchResult :=
  let target := trim itemNumber in
  findFrom (itemMatches target) 0 paragraphs.

(** The second listing of the same function builds a case-insensitive
    regular expression from the search term and also accepts any paragraph
    whose lower-cased text starts with it. *)
Section RegexVariant.
Variable toLowerCase : jsstring -> jsstring.
(** Canonicalize of the [i] flag, on one code unit. *)
Variable canonicalize : N -> N.

(** The escaped term matched literally, up to case; the text after it. *)
Fixpoint literalCI (term p : jsstring) : option jsstring :=
  match term, p with
  | [], _ => Some p
  | a :: term', b :: p' =>
      if canonicalize a =? canonicalize b then literalCI term' p' else None
  | _ :: _, [] => None
  end.

Definition inClass (c : N) : bool := isWs c || (c =? DOT) || (c =? RPAREN).

(** TERM[\s\.)]+ at the head of [p]. *)
Definition termThenClass (term p : jsstring) : bool :=
  match literalCI term p with
  | Some (c :: _) => inClass c
  | _ => false
  end.

(** [new RegExp("^\\s*" + escapeRegex(term) + "[\\s\\.)]+", "i").test(p)]:
    some number of leading white-space units, then the term and the class. *)
Fixpoint regexTest (term p : jsstring) : bool :=
  termThenClass term p ||
  match p with
  | c :: t => isWs c && regexTest term t
  | [] => false
  end.

Definition itemMatches_regex (searchTerm paragraph : jsstring) : bool :=
  regexTest searchTerm paragraph ||
  startsWith (toLowerCase paragraph) (toLowerCase searchTerm).

Definition findParagraphByItemNumber_regex (paragraphs : list jsstring)
    (itemNumber : jsstring) : ParagraphSearchResult :=
  let searchTerm := toLowerCase (trim itemNumber) in
  findFrom (itemMatches_regex searchTerm) 0 paragraphs.
End RegexVariant.

(** ** checkNumbering *)

Record NumberingIssue : Type := mkIssue {
  index : nat;
  found : JNum;
  expected : JNum;
  text : jsstring
}.

(** [p.match(/^\s*(\d+)[\.)]\s+/)]: the first capture group. *)
Definition matchFlat (p : jsstring) : option jsstring :=
  let s1 := dropWhile isWs p in
  match takeWhile isDigit s1, dropWhile isDigit s1 with
  | d :: ds, c :: w :: _ =>
      if ((c =? DOT) || (c =? RPAREN)) && isWs w then Some (d :: ds) else None
  | _, _ => None
  end.

Record CheckState : Type := mkCheck {
  cs_issues : list NumberingIssue;
  cs_expected : JNum
}.

Definition checkStep (i : nat) (p : jsstring) (st : CheckState) : CheckState :=
  match matchFlat p with
  | Some m1 =>
      let fnd := parseInt m1 in
      if negb (strictEq fnd (cs_expected st))
      then mkCheck (cs_issues st ++ [mkIssue i fnd (cs_expected st) p])
                   (addInt fnd 1)
      else mkCheck (cs_issues st) (addInt (cs_expected st) 1)
  | None => st
  end.

Definition checkNumbering (paragraphs : list jsstring) : list NumberingIssue :=
  cs_issues (forEach checkStep paragraphs (mkCheck [] (Int 1))).

(** ** renumberHierarchical *)

(** The rest of [\d+(?:\.\d+)*] once its first digit is read: further
    digits of the group, or a dot that a digit follows; and what is left. *)
Fixpoint numTail (s : jsstring) : jsstring * jsstring :=
  match s with
  | [] => ([], [])
  | c :: t =>
      if isDigit c then let '(m, r) := numTail t in (c :: m, r)
      else if c =? DOT then
        match t with
        | d :: t' =>
            if isDigit d then let '(m, r) := numTail t' in (c :: d :: m, r)
            else ([], s)
        | [] => ([], s)
        end
      else ([], s)
  end.

(** [original.match(re)]: optional white space, the dotted number
    [numberingStr], an optional [delim] (one of [.] and [)], empty when
    absent), white space, and [restRaw], which runs to the end of the string
    and holds no line terminator (the dot of a regular expression matches
    none). *)
Definition matchHier (p : jsstring) : option (jsstring * jsstring * jsstring) :=
  match dropWhile isWs p with
  | c :: t =>
      if isDigit c then
        let '(m, r) := numTail t in
        let '(delim, r1) :=
          match r with
          | x :: r' => if (x =? DOT) || (x =? RPAREN) then ([x], r') else ([], r)
          | [] => ([], [])
          end in
        match r1 with
        | w :: _ =>
            if isWs w then
              let restRaw := dropWhile isWs r1 in
              if existsb isLineTerminator restRaw then None
              else Some (c :: m, delim, restRaw)
            else None
        | [] => None
        end
      else None
  | [] => None
  end.

(** [arr[i]] on an array of numbers, where a missing element is
    [undefined] and [undefined + 1] is NaN. *)
Definition at_ (arr : list JNum) (i : nat) : JNum := nth i arr NaN.

(** [for (let k = 0; k < toAdd; k++) expected.push(1)] *)
Definition pushOnes (toAdd : nat) (e : list JNum) : list JNum :=
  Nat.iter toAdd (fun acc => acc ++ [Int 1]) e.

(** The [expected] path computed from the carried [current] and the parsed
    [found].  [found] comes from [split] and is never empty, so the bounds
    [dCurr - 1] and [dFound - 1] of [slice] are never negative. *)
Definition expectedPath (current fnd : list JNum) : list JNum :=
  let dFound := length fnd in
  let dCurr := length current in
  if (dCurr =? 0)%nat then fnd
  else if (dFound =? dCurr)%nat then
    take (dCurr - 1) current ++ [addInt (at_ current (dCurr - 1)) 1]
  else if (dFound =? dCurr + 1)%nat then current ++ [Int 1]
  else if (dFound <? dCurr)%nat then
    take (dFound - 1) current ++ [addInt (at_ current (dFound - 1)) 1]
  else pushOnes (dFound - dCurr) current.

Definition parsePath (numberingStr : jsstring) : list JNum :=
  List.map parseInt (split DOT numberingStr).

Record RenumberState : Type := mkRenumber {
  rs_out : list jsstring;
  rs_current : list JNum
}.

Definition renumberStep (i : nat) (original : jsstring) (st : RenumberState)
    : RenumberState :=
  match matchHier original with
  | None => mkRenumber (rs_out st ++ [original]) (rs_current st)
  | Some (numberingStr, delim, restRaw) =>
      let rest := norm restRaw in
      let fnd := parsePath numberingStr in
      let exp := expectedPath (rs_current st) fnd in
      let replaced := joinPath exp ++ delim ++ [SPACE] ++ rest in
      mkRenumber (rs_out st ++ [replaced]) exp
  end.

Definition renumberHierarchical (paragraphs : list jsstring) : list jsstring :=
  rs_out (forEach renumberStep paragraphs (mkRenumber [] [])).

(** ** compareParagraphSets *)

Record CompareResult : Type := mkCompare {
  missingInTarget : list jsstring;
  extraInTarget : list jsstring
}.

Section Compare.
Variable toLowerCase : jsstring -> jsstring.

(** [p.replace(/\s+/g, " ").trim().toLowerCase()] *)
Definition normKey (p : jsstring) : jsstring := toLowerCase (norm p).

(** The body of [reference.forEach((p, idx) => ...)]: [keys] is the
    normalised copy of the array walked and [other] the set built from
    the other array; [keys[idx]] out of range is [undefined], which no
    set of strings has. *)
Definition absentStep (keys : list jsstring) (other : gset (list N))
    (idx : nat) (p : jsstring) (acc : list jsstring) : list jsstring :=
  match keys !! idx with
  | Some k => if bool_decide (k ∈ other) then acc else acc ++ [p]
  | None => acc ++ [p]
  end.

Definition compareParagraphSets (reference target : list jsstring)
    : CompareResult :=
  let a := List.map normKey reference in
  let b := List.map normKey target in
  let setB : gset (list N) := list_to_set b in
  let setA : gset (list N) := list_to_set a in
  mkCompare (forEach (absentStep a setB) reference [])
            (forEach (absentStep b setA) target []).
End Compare.

(** ** extractParagraphsFromHtml, second listing *)

(** The elements below [n], in document order. *)
Fixpoint descendants (n : Node) : list Node :=
  match n with
  | TextNode _ => []
  | Element _ _ kids =>
      flat_map
        (fun k =>
           match k with
           | TextNode _ => []
           | Element _ _ _ => k :: descendants k
           end)
        kids
  end.

(** [container.querySelectorAll("p, li")] *)
Definition selectParagraphs (container : Node) : list Node :=
  List.filter (fun el => hasTag "p" el || hasTag "li" el) (descendants container).

Definition extractParagraphs_selector (container : Node) : list jsstring :=
  flat_map (fun el => let t := norm (textContent el) in pushIf t t)
    (selectParagraphs container).

(** ** buildHtmlFromParagraphs *)

(** [s.replace(/c/g, r)] for a pattern of one unit [c]. *)
Definition replaceAllUnit (c : N) (r s : jsstring) : jsstring :=
  flat_map (fun u => if u =? c then r else [u]) s.

Definition AMP : N := 38.
Definition LT : N := 60.
Definition GT : N := 62.
Definition QUOT : N := 34.
Definition APOS : N := 39.
Definition NL : N := 10.

(** [escapeHtml]: the five replacements, in the order of the source. *)
Definition escapeHtml (s : jsstring) : jsstring :=
  replaceAllUnit APOS (str "&#039;")
    (replaceAllUnit QUOT (str "&quot;")
       (replaceAllUnit GT (str "&gt;")
          (replaceAllUnit LT (str "&lt;")
             (replaceAllUnit AMP (str "&amp;") s)))).

Definition pOpen : jsstring :=
  str "<p style=" ++ [QUOT] ++ str "margin:0 0 1em 0; line-height:1.5;"
  ++ [QUOT] ++ str ">".

Definition pClose : jsstring := str "</p>".

Definition htmlParagraph (p : jsstring) : jsstring :=
  pOpen ++ escapeHtml p ++ pClose.

Definition htmlBody (paragraphs : list jsstring) : jsstring :=
  join [NL] (List.map htmlParagraph paragraphs).

Definition docHead : jsstring :=
  str "<!DOCTYPE html>" ++ [NL]
  ++ str "<html>" ++ [NL]
  ++ str "<head>" ++ [NL]
  ++ str "  <meta charset=" ++ [QUOT] ++ str "utf-8" ++ [QUOT] ++ str " />" ++ [NL]
  ++ str "  <title>Documento Normalizado</title>" ++ [NL]
  ++ str "  <meta name=" ++ [QUOT] ++ str "generator" ++ [QUOT]
  ++ str " content=" ++ [QUOT] ++ str "Lovable DOCX Tool" ++ [QUOT] ++ str " />" ++ [NL]
  ++ str "  <style>" ++ [NL]
  ++ str "    body { font-family: Arial, sans-serif; }" ++ [NL]
  ++ str "  </style>" ++ [NL]
  ++ str "</head>" ++ [NL]
  ++ str "<body>" ++ [NL]
  ++ str "<article>" ++ [NL].

Definition docTail : jsstring :=
  [NL] ++ str "</article>" ++ [NL] ++ str "</body>" ++ [NL] ++ str "</html>".

Definition buildHtmlFromParagraphs (paragraphs : list jsstring) : jsstring :=
  docHead ++ htmlBody paragraphs ++ docTail.

(** ** The workbench *)

(** The state of the component that paragraphs flow through.  The edit
    index is the number held by the number input; the embedding has the
    integers and NaN. *)
Record Workbench : Type := mkWorkbench {
  primaryName : jsstring;
  primaryParagraphs : list jsstring;
  normalized : list jsstring;
  numberingIssues : list NumberingIssue;
  editIndex : JNum;
  editText : jsstring;
  referenceParagraphs : list jsstring;
  compareResult : option CompareResult
}.

Definition initialWorkbench : Workbench :=
  mkWorkbench [] [] [] [] (Int 0) [] [] None.

(** [normalized.length ? normalized : primaryParagraphs] *)
Definition displayParagraphs (w : Workbench) : list jsstring :=
  match normalized w with
  | [] => primaryParagraphs w
  | _ => normalized w
  end.

(** [handlePrimaryUpload]: the name is set first; [parsed] is what
    [parseDocxFile] returns, [None] when it throws, and then nothing else
    changes. *)
Definition handlePrimaryUpload (name : jsstring)
    (parsed : option (list jsstring)) (w : Workbench) : Workbench :=
  match parsed with
  | Some paragraphs =>
      mkWorkbench name (normalizeParagraphs paragraphs) [] [] (Int 0) []
        (referenceParagraphs w) (compareResult w)
  | None =>
      mkWorkbench name (primaryParagraphs w) (normalized w) (numberingIssues w)
        (editIndex w) (editText w) (referenceParagraphs w) (compareResult w)
  end.

(** [handleReferenceUpload], with [parsed] as above. *)
Definition handleReferenceUpload (parsed : option (list jsstring))
    (w : Workbench) : Workbench :=
  match parsed with
  | Some paragraphs =>
      mkWorkbench (primaryName w) (primaryParagraphs w) (normalized w)
        (numberingIssues w) (editIndex w) (editText w)
        (normalizeParagraphs paragraphs) (compareResult w)
  | None => w
  end.

Definition runNormalization (w : Workbench) : Workbench :=
  match primaryParagraphs w with
  | [] => w
  | _ =>
      mkWorkbench (primaryName w) (primaryParagraphs w) (normalizeParagraphs (primaryParagraphs w))
        (numberingIssues w) (editIndex w) (editText w)
        (referenceParagraphs w) (compareResult w)
  end.

Definition runNumberingCheck (w : Workbench) : Workbench :=
  mkWorkbench (primaryName w) (primaryParagraphs w) (normalized w)
    (checkNumbering (displayParagraphs w)) (editIndex w) (editText w)
    (referenceParagraphs w) (compareResult w).

(** [applyEdit]: the index is checked against 1 and the length, then
    [base[idx - 1] = editText.trim()] on a copy of the displayed list. *)
Definition applyEdit (w : Workbench) : Workbench :=
  let base := displayParagraphs w in
  match editIndex w with
  | NaN => w
  | Int idx =>
      if ((idx <? 1) || (Z.of_nat (length base) <? idx))%Z then w
      else
        mkWorkbench (primaryName w) (primaryParagraphs w)
          (<[Z.to_nat (idx - 1) := trim (editText w)]> base)
          (numberingIssues w) (editIndex w) (editText w)
          (referenceParagraphs w) (compareResult w)
  end.

Definition setEditIndex (n : JNum) (w : Workbench) : Workbench :=
  mkWorkbench (primaryName w) (primaryParagraphs w) (normalized w) (numberingIssues w)
    n (editText w) (referenceParagraphs w) (compareResult w).

Definition setEditText (t : jsstring) (w : Workbench) : Workbench :=
  mkWorkbench (primaryName w) (primaryParagraphs w) (normalized w) (numberingIssues w)
    (editIndex w) t (referenceParagraphs w) (compareResult w).

Section WorkbenchCompare.
Variable toLowerCase : jsstring -> jsstring.

Definition runCompare (w : Workbench) : Workbench :=
  match referenceParagraphs w, displayParagraphs w with
  | _ :: _, _ :: _ =>
      mkWorkbench (primaryName w) (primaryParagraphs w) (normalized w) (numberingIssues w)
        (editIndex w) (editText w) (referenceParagraphs w)
        (Some (compareParagraphSets toLowerCase (referenceParagraphs w)
                 (displayParagraphs w)))
  | _, _ => w
  end.
End WorkbenchCompare.

(** [downloadDocx]: the document handed to the exporter, if any. *)
Definition downloadHtml (w : Workbench) : option jsstring :=
  match displayParagraphs w with
  | [] => None
  | ps => Some (buildHtmlFromParagraphs ps)
  end.

(** ** Numbers as the program computes them: doubles *)

(** The numbers the program builds are integers, the infinities and NaN.
    A finite one is held in a double: exactly up to 2^53 in absolute
    value, and beyond that rounded to 53 significant bits, the nearest
    such number taken and of two equally near ones the one with an even
    significand. *)
Inductive Dbl : Type :=
| DNaN
| DInf (negative : bool)
| DInt (z : Z).

(** The nearest number with 53 significant bits to a natural number. *)
Definition roundMag (z : Z) : Z :=
  (if z <? 2 ^ 53 then z
   else
     let e := Z.log2 z - 52 in
     let q := z / 2 ^ e in
     let r := z mod 2 ^ e in
     let half := 2 ^ (e - 1) in
     let q' := if r <? half then q
               else if half <? r then q + 1
               else if Z.even q then q else q + 1 in
     q' * 2 ^ e)%Z.

(** The double of an integer: what rounds to 2^1024 or more is infinite. *)
Definition toDbl (z : Z) : Dbl :=
  let m := roundMag (Z.abs z) in
  if (m <? 2 ^ 1024)%Z then DInt (Z.sgn z * m) else DInf (z <? 0)%Z.

(** [a + 1] and [a - 1] on doubles. *)
Definition addDbl (a : Dbl) (k : Z) : Dbl :=
  match a with
  | DInt z => toDbl (z + k)
  | DInf negative => DInf negative
  | DNaN => DNaN
  end.

(** [parseInt(s, 10)] with its result as a double. *)
Definition parseIntDbl (s : jsstring) : Dbl :=
  let s1 := dropWhile isWs s in
  let '(neg, s2) :=
    match s1 with
    | c :: t => if c =? 45 then (true, t)
                else if c =? 43 then (false, t) else (false, s1)
    | [] => (false, [])
    end in
  match takeWhile isDigit s2 with
  | [] => DNaN
  | ds => toDbl (if neg then - digitsValue ds else digitsValue ds)
  end.

(** [String(x)] for a double that holds a natural number [z]: the digits
    of the decimal number with the fewest significant digits that reads
    back as [z], the nearest to [z] among those; in full up to 21 digits,
    and with an exponent beyond. *)
Definition readsAs (v z : Z) : bool :=
  match toDbl v with
  | DInt w => (w =? z)%Z
  | _ => false
  end.

(** The search, one significant digit more at each level: [p] is the
    weight of the last significant digit tried. *)
Fixpoint shortestFrom (z p : Z) (levels : nat) : Z :=
  match levels with
  | O => z
  | S n =>
      let lo := (z / p * p)%Z in
      let hi := (lo + p)%Z in
      if readsAs lo z && readsAs hi z then
        (if (z - lo <? hi - z)%Z then lo
         else if (hi - z <? z - lo)%Z then hi
         else if Z.even (z / p) then lo else hi)
      else if readsAs lo z then lo
      else if readsAs hi z then hi
      else shortestFrom z (p / 10)%Z n
  end.

Definition shortest (z : Z) : Z :=
  let d := length (natToString (Z.to_N z)) in
  shortestFrom z (10 ^ Z.of_nat (d - 1))%Z (d - 1).

Fixpoint dropZerosEnd (ds : jsstring) : jsstring :=
  match ds with
  | [] => []
  | c :: t =>
      match dropZerosEnd t with
      | [] => if c =? 48 then [] else [c]
      | t' => c :: t'
      end
  end.

Definition showMag (z : Z) : jsstring :=
  let v := shortest z in
  let ds := natToString (Z.to_N v) in
  if (v <? 10 ^ 21)%Z then ds
  else
    match ds with
    | lead :: more =>
        lead :: match dropZerosEnd more with
              | [] => []
              | frac => DOT :: frac
              end
        ++ str "e+" ++ natToString (N.of_nat (length more))
    | [] => []
    end.

Definition showDbl (x : Dbl) : jsstring :=
  match x with
  | DNaN => str "NaN"
  | DInf false => str "Infinity"
  | DInf true => str "-Infinity"
  | DInt z => if (z <? 0)%Z then 45 :: showMag (- z) else showMag z
  end.

(** ** renumberHierarchical over any numbers *)

(** The renumberer with its number operations as parameters: what
    [parseInt(n, 10)] returns, [x + 1], the number 1, what a missing array
    element counts as in [x + 1], and the text of a number in [join]. *)
Section RenumberOver.
Context {num : Type}.
Variable parseNum : jsstring -> num.
Variable plusOne : num -> num.
Variable oneNum : num.
Variable undefinedNum : num.
Variable showNum : num -> jsstring.

Definition expectedPathOver (current fnd : list num) : list num :=
  let dFound := length fnd in
  let dCurr := length current in
  if (dCurr =? 0)%nat then fnd
  else if (dFound =? dCurr)%nat then
    take (dCurr - 1) current ++ [plusOne (nth (dCurr - 1) current undefinedNum)]
  else if (dFound =? dCurr + 1)%nat then current ++ [oneNum]
  else if (dFound <? dCurr)%nat then
    take (dFound - 1) current ++ [plusOne (nth (dFound - 1) current undefinedNum)]
  else Nat.iter (dFound - dCurr) (fun acc => acc ++ [oneNum]) current.

Definition joinPathOver (path : list num) : jsstring :=
  join [DOT] (List.map showNum path).

Definition renumberStepOver (i : nat) (original : jsstring)
    (st : list jsstring * list num) : list jsstring * list num :=
  match matchHier original with
  | None => (fst st ++ [original], snd st)
  | Some (numberingStr, delim, restRaw) =>
      let rest := norm restRaw in
      let fnd := List.map parseNum (split DOT numberingStr) in
      let exp := expectedPathOver (snd st) fnd in
      let replaced := joinPathOver exp ++ delim ++ [SPACE] ++ rest in
      (fst st ++ [replaced], exp)
  end.

Definition renumberOver (paragraphs : list jsstring) : list jsstring :=
  fst (forEach renumberStepOver paragraphs ([], [])).

End RenumberOver.

(** renumberHierarchical as the program runs it, on doubles. *)
Definition renumberHierarchical_double : list jsstring -> list jsstring :=
  renumberOver parseIntDbl (fun x => addDbl x 1) (DInt 1) DNaN showDbl.

(** ** checkNumbering over any numbers *)

Record IssueOver (num : Type) : Type := mkIssueOver {
  io_index : nat;
  io_found : num;
  io_expected : num;
  io_text : jsstring
}.
Arguments mkIssueOver {num} _ _ _ _.
Arguments io_index {num} _.
Arguments io_found {num} _.
Arguments io_expected {num} _.
Arguments io_text {num} _.

(** The checker with its number operations as parameters: what
    [parseInt(m[1], 10)] returns, [x + 1], [x !== y] negated, and 1. *)
Section CheckOver.
Context {num : Type}.
Variable parseNum : jsstring -> num.
Variable plusOne : num -> num.
Variable sameNum : num -> num -> bool.
Variable oneNum : num.

Definition checkStepOver (i : nat) (p : jsstring)
    (st : list (IssueOver num) * num) : list (IssueOver num) * num :=
  match matchFlat p with
  | Some m1 =>
      let fnd := parseNum m1 in
      if negb (sameNum fnd (snd st))
      then (fst st ++ [mkIssueOver i fnd (snd st) p], plusOne fnd)
      else (fst st, plusOne (snd st))
  | None => st
  end.

Definition checkNumberingOver (paragraphs : list jsstring)
    : list (IssueOver num) :=
  fst (forEach checkStepOver paragraphs ([], oneNum)).

End CheckOver.

(** [a === b] on doubles. *)
Definition strictEqDbl (a b : Dbl) : bool :=
  match a, b with
  | DInt x, DInt y => (x =? y)%Z
  | DInf s, DInf t => Bool.eqb s t
  | _, _ => false
  end.

(** checkNumbering as the program runs it, on doubles. *)
Definition checkNumbering_double : list jsstring -> list (IssueOver Dbl) :=
  checkNumberingOver parseIntDbl (fun x => addDbl x 1) strictEqDbl (DInt 1).

(** * Definitions used to state the properties *)

(** A string in which white space occurs only as single spaces between
    other units: [prevWs] tells that the unit before the string is white
    space. *)
Fixpoint spaced (prevWs : bool) (s : jsstring) : bool :=
  match s with
  | [] => true
  | c :: t =>
      if isWs c then negb prevWs && (c =? SPACE) && spaced true t
      else spaced false t
  end.

Definition headNotWs (s : jsstring) : bool :=
  match s with
  | c :: _ => negb (isWs c)
  | [] => true
  end.

(** The checker as its specification words it: a counter that starts at 1,
    is incremented by a matching paragraph that carries it, and is reset to
    the number found plus one by a matching paragraph that does not, which
    is then reported.  [n] is the number the marker of a paragraph denotes. *)
Definition flatNumber (p : jsstring) : option Z :=
  option_map digitsValue (matchFlat p).

Fixpoint checkSpec (i : nat) (counter : Z) (ps : list jsstring)
    : list NumberingIssue :=
  match ps with
  | [] => []
  | p :: t =>
      match flatNumber p with
      | None => checkSpec (S i) counter t
      | Some n =>
          if decide (n = counter) then checkSpec (S i) (counter + 1)%Z t
          else mkIssue i (Int n) (Int counter) p :: checkSpec (S i) (n + 1)%Z t
      end
  end.

(** The string is empty or its first unit fails the test [f]. *)
Definition headNotF (f : N -> bool) (s : jsstring) : Prop :=
  match s with
  | c :: _ => f c = false
  | [] => True
  end.

(** The rules of the renumberer as its specification words them. *)

(** A path with its last element incremented by 1. *)
Definition incrLast (path : list JNum) : list JNum :=
  List.removelast path ++ [addInt (List.last path NaN) 1].

(** The paragraph written for a path, a delimiter and the raw rest. *)
Definition rewritten (path : list JNum) (delim restRaw : jsstring) : jsstring :=
  joinPath path ++ delim ++ [SPACE] ++ norm restRaw.

(** The renumberer as a recursion on the paragraphs with the carried path. *)
Fixpoint renumberFrom (current : list JNum) (ps : list jsstring)
    : list jsstring :=
  match ps with
  | [] => []
  | p :: t =>
      match matchHier p with
      | None => p :: renumberFrom current t
      | Some (numberingStr, delim, restRaw) =>
          let e := expectedPath current (parsePath numberingStr) in
          rewritten e delim restRaw :: renumberFrom e t
      end
  end.

(** What the search accepts, as its specification words it: the paragraph
    begins with the token followed by a space, a dot or a closing
    parenthesis, or is the token. *)
Definition itemAccepts (target p : jsstring) : Prop :=
  (exists c rest, p = target ++ c :: rest /\
                  (c = SPACE \/ c = DOT \/ c = RPAREN)) \/
  p = target.

(** What the regular expression of the second listing accepts: optional
    leading white space, the term up to case, then white space, a dot or a
    closing parenthesis. *)
Definition foldedAccepts (canonicalize : N -> N) (term p : jsstring) : Prop :=
  exists lead body c rest,
    p = lead ++ body ++ c :: rest /\
    Forall (fun u => isWs u = true) lead /\
    Forall2 (fun a b => canonicalize a = canonicalize b) term body /\
    (isWs c = true \/ c = DOT \/ c = RPAREN).

(** The result of a linear scan: the first accepted paragraph with its
    index, or index -1 with the empty string when none is accepted. *)
Definition firstAccepted (accepts : jsstring -> bool) (ps : list jsstring)
    (r : ParagraphSearchResult) : Prop :=
  (exists pre p post,
     ps = pre ++ p :: post /\
     Forall (fun q => accepts q = false) pre /\
     accepts p = true /\
     r = mkSearchResult (Z.of_nat (length pre)) p) \/
  (Forall (fun q => accepts q = false) ps /\ r = mkSearchResult (-1) []).

(** The numbering synthesizer as its specification words it. *)

(** What one list item contributes under its number path: its main text
    behind the dotted path when that text is not empty, then its nested
    ordered lists under that path, then the items of its bullet lists. *)
Definition itemOutput (path : list JNum) (li : Node) : list jsstring :=
  pushIf (liMainText li) (joinPath path ++ [SPACE] ++ liMainText li)
  ++ flat_map (fun childOl => processOl childOl path) (childrenTagged "ol" li)
  ++ bulletParagraphs li.

(** Items numbered k, k+1, ... under the prefix [stack]. *)
Fixpoint numberedFrom (stack : list JNum) (k : Z) (lis : list Node)
    : list jsstring :=
  match lis with
  | [] => []
  | li :: t => itemOutput (stack ++ [Int k]) li ++ numberedFrom stack (k + 1) t
  end.

(** The number of the list's first item and the number of an item after
    the one numbered [counter], with the attributes that override them. *)
Definition startNumber (attrs : list (string * jsstring)) : JNum :=
  attrOr (getAttribute "start" attrs) (Int 1).

Definition itemNumber (counter : JNum) (li : Node) : JNum :=
  attrOr (getAttribute "value" (attributes li)) (addInt counter 1).

Fixpoint numberedWith (stack : list JNum) (counter : JNum) (lis : list Node)
    : list jsstring :=
  match lis with
  | [] => []
  | li :: t =>
      itemOutput (stack ++ [itemNumber counter li]) li
      ++ numberedWith stack (itemNumber counter li) t
  end.

(** Shapes of the text of a dotted number. *)

(** A natural number, as [parseInt] reads one from digits. *)
Definition isNat (x : JNum) : Prop := exists n : N, x = Int (Z.of_N n).

(** One or more digits. *)
Definition digitGroup (g : jsstring) : Prop :=
  g <> [] /\ Forall (fun c => isDigit c = true) g.

(** The groups after the first, each behind its dot. *)
Definition dotTail (gs : list jsstring) : jsstring :=
  flat_map (fun g => DOT :: g) gs.

(** Text at which a dotted number ends: not a digit, and not a dot that a
    digit follows. *)
Definition stopTail (r : jsstring) : Prop :=
  match r with
  | [] => True
  | c :: t => isDigit c = false /\ (c = DOT -> headNotF isDigit t)
  end.

Definition isDelim (delim : jsstring) : Prop :=
  delim = [] \/ delim = [DOT] \/ delim = [RPAREN].

(** The numbers of the paragraphs that carry a flat marker, in order. *)
Definition flatNumbers (ps : list jsstring) : list Z :=
  flat_map (fun p => match flatNumber p with Some n => [n] | None => [] end) ps.

(** [c; c + 1; ...], [n] numbers. *)
Fixpoint countFrom (c : Z) (n : nat) : list Z :=
  match n with
  | O => []
  | S n' => c :: countFrom (c + 1) n'
  end.

(** A paragraph as the normalizer leaves one: not empty and its own
    normal form. *)
Definition goodParagraph (p : jsstring) : Prop := p <> [] /\ norm p = p.

(** The number of nodes of a tree. *)
Fixpoint size (n : Node) : nat :=
  match n with
  | TextNode _ => 1
  | Element _ _ kids => S (list_sum (List.map size kids))
  end.

(** A tree without list markup: no element below the root is a list or a
    list item, and no paragraph element holds another one. *)
Definition listFree (c : Node) : Prop :=
  Forall (fun el => isListElement el = false /\ hasTag "li" el = false /\
                    (hasTag "p" el = true -> selectParagraphs el = []))
         (descendants c).

(** What [escapeHtml] makes of one unit, read in a single pass. *)
Definition escapeUnit (u : N) : jsstring :=
  if u =? AMP then str "&amp;"
  else if u =? LT then str "&lt;"
  else if u =? GT then str "&gt;"
  else if u =? QUOT then str "&quot;"
  else if u =? APOS then str "&#039;"
  else [u].

(** The units that [escapeHtml] replaces. *)
Definition htmlSpecial (u : N) : bool :=
  (u =? AMP) || (u =? LT) || (u =? GT) || (u =? QUOT) || (u =? APOS).

(** A flat numbered list: every numbered paragraph carries one number. *)
Definition flatDoc (ps : list jsstring) : Prop :=
  Forall (fun p => match matchHier p with
                   | None => True
                   | Some (n, _, _) => length (parsePath n) = 1%nat
                   end) ps.

(** Consecutive numbering of the numbered paragraphs: from [k] when
    [next] is [Some k], and from the number of the first one otherwise. *)
Fixpoint renumberFlat (next : option Z) (ps : list jsstring) : list jsstring :=
  match ps with
  | [] => []
  | p :: t =>
      match matchHier p with
      | None => p :: renumberFlat next t
      | Some (n, d, r) =>
          let k := match next with Some k => k | None => digitsValue n end in
          rewritten [Int k] d r :: renumberFlat (Some (k + 1)%Z) t
      end
  end.

(** A flat numbered list that the checker reads as the renumberer does:
    every paragraph the renumberer numbers carries one number and a
    delimiter, and the checker sees no marker in the others. *)
Definition flatDelimited (ps : list jsstring) : Prop :=
  Forall (fun p => match matchHier p with
                   | None => flatNumber p = None
                   | Some (n, d, _) => length (parsePath n) = 1%nat /\ d <> []
                   end) ps.

(** What a user can do to the workbench, and the state after a sequence of
    such actions, the first one first. *)
Inductive Action : Type :=
| UploadPrimary (name : jsstring) (parsed : option (list jsstring))
| UploadReference (parsed : option (list jsstring))
| Normalize
| CheckNumbering
| TypeIndex (n : JNum)
| TypeText (t : jsstring)
| ApplyEdit
| Compare.

Definition step (toLowerCase : jsstring -> jsstring) (w : Workbench)
    (a : Action) : Workbench :=
  match a with
  | UploadPrimary name parsed => handlePrimaryUpload name parsed w
  | UploadReference parsed => handleReferenceUpload parsed w
  | Normalize => runNormalization w
  | CheckNumbering => runNumberingCheck w
  | TypeIndex n => setEditIndex n w
  | TypeText t => setEditText t w
  | ApplyEdit => applyEdit w
  | Compare => runCompare toLowerCase w
  end.

Definition runActions (toLowerCase : jsstring -> jsstring)
    (actions : list Action) : Workbench :=
  fold_left (step toLowerCase) actions initialWorkbench.

(** What holds of the workbench whatever the user does. *)
Definition workbenchInvariant (w : Workbench) : Prop :=
  Forall goodParagraph (primaryParagraphs w) /\
  Forall goodParagraph (referenceParagraphs w) /\
  length (displayParagraphs w) = length (primaryParagraphs w) /\
  Forall (fun p => trim p = p) (displayParagraphs w) /\
  Forall (fun iss => (index iss < length (displayParagraphs w))%nat)
         (numberingIssues w).

(** The path carried by the renumberer after the paragraphs [ps]. *)
Fixpoint pathAfter (current : list JNum) (ps : list jsstring) : list JNum :=
  match ps with
  | [] => current
  | p :: t =>
      match matchHier p with
      | None => pathAfter current t
      | Some (n, _, _) => pathAfter (expectedPath current (parsePath n)) t
      end
  end.

(** An ordered list numbered by position only: no start or value
    attribute, every item has a text of its own, no bullet list and at most
    one nested ordered list, itself of that kind. *)
Inductive chainOl : Node -> Prop :=
| chainOl_list tag attrs kids :
    getAttribute "start" attrs = None ->
    Forall chainLi (List.filter (hasTag "li") kids) ->
    chainOl (Element tag attrs kids)
with chainLi : Node -> Prop :=
| chainLi_leaf li :
    getAttribute "value" (attributes li) = None ->
    liMainText li <> [] ->
    childrenTagged "ul" li = [] ->
    childrenTagged "ol" li = [] ->
    chainLi li
| chainLi_nested li o :
    getAttribute "value" (attributes li) = None ->
    liMainText li <> [] ->
    childrenTagged "ul" li = [] ->
    childrenTagged "ol" li = [o] ->
    chainOl o ->
    chainLi li.

(** The carried path [cur] makes the renumberer write [stack ++ [k]] for
    a paragraph that carries it. *)
Definition fitsBefore (cur stack : list JNum) (k : Z) : Prop :=
  (cur = [] /\ stack = []) \/
  (k = 1%Z /\ cur = stack /\ stack <> []) \/
  (take (S (length stack)) cur = stack ++ [Int (k - 1)]).

(** The words of a text: its maximal runs of units that are not white
    space, in order. *)
Definition startsWord (s : jsstring) : bool :=
  match s with
  | c :: _ => negb (isWs c)
  | [] => false
  end.

Fixpoint words (s : jsstring) : list jsstring :=
  match s with
  | [] => []
  | c :: t =>
      if isWs c then words t
      else if startsWord t then
             match words t with
             | w :: more => (c :: w) :: more
             | [] => [[c]]
             end
           else [c] :: words t
  end.

(** The key under which the comparison looks a paragraph up, as the
    specification words it: white-space runs collapsed to one space, none
    left at either end (the words of the paragraph with one space between
    them), and the case folded. *)
Definition paragraphKey (toLowerCase : jsstring -> jsstring) (p : jsstring)
    : jsstring :=
  toLowerCase (join [SPACE] (words p)).

(** The text of a node outside the lists below it. *)
Fixpoint textOutsideLists (n : Node) : jsstring :=
  match n with
  | TextNode d => d
  | Element _ _ kids =>
      flat_map (fun k => if isListElement k then [] else textOutsideLists k) kids
  end.

(** The numbering synthesizer as its specification words it. *)

(** The counter before the first item of a list: the number read from a
    non-empty start attribute minus one, and 0 otherwise. *)
Definition firstCounter (attrs : list (string * jsstring)) : JNum :=
  match getAttribute "start" attrs with
  | Some (c :: v) => addInt (parseInt (c :: v)) (-1)
  | _ => Int 0
  end.

(** The number of an item that follows the counter: the number read from a
    non-empty value attribute, and the counter plus one otherwise. *)
Definition numberOf (counter : JNum) (li : Node) : JNum :=
  match getAttribute "value" (attributes li) with
  | Some (c :: v) => parseInt (c :: v)
  | _ => addInt counter 1
  end.

(** The paragraph of an item under its path: nothing when the text of the
    item outside its nested lists has no word, and otherwise the dot-joined
    path, one space, and the words of that text with one space between
    them. *)
Definition itemParagraph (path : list JNum) (li : Node) : list jsstring :=
  match words (textOutsideLists li) with
  | [] => []
  | ws => [joinPath path ++ [SPACE] ++ join [SPACE] ws]
  end.

(** What an item contributes: its paragraph, then its nested ordered lists
    numbered under its path, then the items of its bullet lists. *)
Definition itemBlock (path : list JNum) (li : Node) : list jsstring :=
  itemParagraph path li
  ++ flat_map (fun childOl => processOl childOl path) (childrenTagged "ol" li)
  ++ bulletParagraphs li.

(** The items of a list under the prefix [stack], each numbered after the
    one before it. *)
Fixpoint numberedItems (stack : list JNum) (counter : JNum) (lis : list Node)
    : list jsstring :=
  match lis with
  | [] => []
  | li :: t =>
      itemBlock (stack ++ [numberOf counter li]) li
      ++ numberedItems stack (numberOf counter li) t
  end.


(** The checker as a scan with the program's own number operations: the
    number found is what [parseInt] reads from the digits of the marker,
    the comparison is [===] and the steps are [+ 1]. *)
Fixpoint checkScan (i : nat) (counter : JNum) (ps : list jsstring)
    : list NumberingIssue :=
  match ps with
  | [] => []
  | p :: t =>
      match matchFlat p with
      | None => checkScan (S i) counter t
      | Some ds =>
          if strictEq (parseInt ds) counter
          then checkScan (S i) (addInt counter 1) t
          else mkIssue i (parseInt ds) counter p
               :: checkScan (S i) (addInt (parseInt ds) 1) t
      end
  end.

(** Numbers inside the range in which the arithmetic of the program is the
    arithmetic of the integers.  A number written with at most 15 digits is
    below 10^15, and the numbers the program counts on from it stay below
    2^53, up to which its numbers hold every integer and print every digit
    of it. *)
Definition shortDigits (ds : jsstring) : Prop := (length ds <= 15)%nat.

Definition shortNumbers (ps : list jsstring) : Prop :=
  Forall (fun p => match matchHier p with
                   | None => True
                   | Some (n, _, _) => Forall shortDigits (split DOT n)
                   end) ps.


(** A double that holds a natural number as the program can build one:
    a number with 53 significant bits. *)
Definition isDouble (z : Z) : Prop := (0 <= z)%Z /\ roundMag z = z.

(** Text that the pattern of the renumberer cannot read as a number:
    digits and dots, then a unit that is none of a digit, a dot, a closing
    parenthesis and white space. *)
Definition unreadable (s : jsstring) : Prop :=
  exists a c b, s = a ++ c :: b /\
    Forall (fun u => isDigit u = true \/ u = DOT) a /\
    isDigit c = false /\ c <> DOT /\ c <> RPAREN /\ isWs c = false.

(** The renumberer over any numbers, as a recursion on the paragraphs. *)
Section RenumberFromOver.
Context {num : Type}.
Variable parseNum : jsstring -> num.
Variable plusOne : num -> num.
Variable oneNum : num.
Variable undefinedNum : num.
Variable showNum : num -> jsstring.

Fixpoint renumberFromOver (current : list num) (ps : list jsstring)
    : list jsstring :=
  match ps with
  | [] => []
  | p :: t =>
      match matchHier p with
      | None => p :: renumberFromOver current t
      | Some (n, delim, restRaw) =>
          let e := expectedPathOver plusOne oneNum undefinedNum current
                     (List.map parseNum (split DOT n)) in
          (joinPathOver showNum e ++ delim ++ [SPACE] ++ norm restRaw)
          :: renumberFromOver e t
      end
  end.
End RenumberFromOver.

(** A path whose first number that the pattern cannot read back comes
    after numbers that it can. *)
Definition firstBad {num : Type} (ok bad : num -> Prop) (l : list num) : Prop :=
  exists pre b post, l = pre ++ b :: post /\ Forall ok pre /\ bad b.

(** The doubles that the pattern of the renumberer reads back from their
    text, and those whose text it cannot read: the natural numbers below
    10^21, printed in digits, and NaN, infinity and the numbers from 10^21
    on, printed with a letter. *)
Definition okDbl (x : Dbl) : Prop :=
  exists z, x = DInt z /\ isDouble z /\ (z < 10 ^ 21)%Z.

Definition badDbl (x : Dbl) : Prop :=
  x = DNaN \/ x = DInf false \/
  exists z, x = DInt z /\ isDouble z /\ (10 ^ 21 <= z)%Z.

(** A number of the embedding as a double. *)
Definition asDbl (x : JNum) : Dbl :=
  match x with
  | NaN => DNaN
  | Int z => DInt z
  end.

(** A natural number at most [b]. *)
Definition natUpTo (b : Z) (x : JNum) : Prop :=
  exists z, x = Int z /\ (0 <= z <= b)%Z.

(** An issue of the embedding with its numbers as doubles. *)
Definition issueAsDbl (iss : NumberingIssue) : IssueOver Dbl :=
  mkIssueOver (index iss) (asDbl (found iss)) (asDbl (expected iss)) (text iss).

(** Every flat marker has at most 15 digits. *)
Definition shortMarkers (ps : list jsstring) : Prop :=
  Forall (fun p => match matchFlat p with
                   | None => True
                   | Some ds => shortDigits ds
                   end) ps.

(** * Properties *)

(** ** White space *)

Section Whitespace.

Lemma collapseFrom_spaced s : forall b, spaced b (collapseFrom b s) = true.
Proof.
  induction s as [|c t IH]; intros b; cbn [collapseFrom]; [reflexivity|].
  destruct (isWs c) eqn:Hc.
  - destruct b; [apply IH|].
    cbn [spaced]. change (isWs SPACE) with true. cbn [negb andb].
    rewrite N.eqb_refl. apply IH.
  - cbn [spaced]. rewrite Hc. apply IH.
Qed.

Lemma spaced_collapseFrom s : forall b, spaced b s = true -> collapseFrom b s = s.
Proof.
  induction s as [|c t IH]; intros b H; cbn [collapseFrom spaced] in *; [reflexivity|].
  destruct (isWs c) eqn:Hc.
  - destruct b; [discriminate|]. cbn [negb andb] in H.
    apply andb_prop in H as [Hc32 Ht]. apply N.eqb_eq in Hc32. subst c.
    f_equal. apply IH, Ht.
  - f_equal. apply IH, H.
Qed.

Lemma spaced_dropWhile s : forall b b',
  spaced b s = true -> spaced b' (dropWhile isWs s) = true.
Proof.
  induction s as [|c t IH]; intros b b' H; cbn [dropWhile spaced] in *; [reflexivity|].
  destruct (isWs c) eqn:Hc.
  - apply andb_prop in H as [_ Ht]. apply (IH true), Ht.
  - cbn [spaced]. rewrite Hc. exact H.
Qed.

Lemma spaced_trimEnd s : forall b, spaced b s = true -> spaced b (trimEnd s) = true.
Proof.
  induction s as [|c t IH]; intros b H; cbn [trimEnd spaced] in *; [reflexivity|].
  destruct (isWs c) eqn:Hc.
  - apply andb_prop in H as [H1 Ht]. specialize (IH true Ht).
    destruct (trimEnd t) as [|x y]; [reflexivity|].
    cbn [spaced]. rewrite Hc, H1. exact IH.
  - specialize (IH false H).
    destruct (trimEnd t) as [|x y]; cbn [spaced]; rewrite Hc; [reflexivity|exact IH].
Qed.

Lemma trimEnd_idem s : trimEnd (trimEnd s) = trimEnd s.
Proof.
  induction s as [|c t IH]; cbn [trimEnd]; [reflexivity|].
  destruct (trimEnd t) as [|x y] eqn:Ht.
  - destruct (isWs c) eqn:Hc; [reflexivity|]. cbn [trimEnd]. now rewrite Hc.
  - change (trimEnd (c :: x :: y)) with
      (match trimEnd (x :: y) with
       | [] => if isWs c then [] else [c]
       | t' => c :: t'
       end).
    now rewrite IH.
Qed.

Lemma headNotWs_dropWhile s : headNotWs (dropWhile isWs s) = true.
Proof.
  induction s as [|c t IH]; cbn [dropWhile]; [reflexivity|].
  destruct (isWs c) eqn:Hc; [exact IH|]. cbn. now rewrite Hc.
Qed.

Lemma headNotWs_trimStart s : headNotWs s = true -> trimStart s = s.
Proof.
  destruct s as [|c t]; [reflexivity|]. cbn. now destruct (isWs c).
Qed.

Lemma headNotWs_trimEnd s : headNotWs s = true -> headNotWs (trimEnd s) = true.
Proof.
  destruct s as [|c t]; [reflexivity|]. cbn [headNotWs trimEnd]. intros H.
  destruct (trimEnd t); [|exact H].
  destruct (isWs c) eqn:Hc; [reflexivity|]. cbn. now rewrite Hc.
Qed.

Lemma spaced_norm s : spaced false (norm s) = true.
Proof.
  unfold norm, trim, trimStart, replaceWs.
  apply spaced_trimEnd, (spaced_dropWhile _ false), collapseFrom_spaced.
Qed.

Lemma headNotWs_norm s : headNotWs (norm s) = true.
Proof. apply headNotWs_trimEnd, headNotWs_dropWhile. Qed.

Lemma trim_trim s : trim (trim s) = trim s.
Proof.
  unfold trim at 1. rewrite headNotWs_trimStart.
  - apply trimEnd_idem.
  - apply headNotWs_trimEnd, headNotWs_dropWhile.
Qed.

Lemma norm_idem s : norm (norm s) = norm s.
Proof.
  unfold norm at 1. unfold replaceWs.
  rewrite (spaced_collapseFrom _ false (spaced_norm s)).
  apply trim_trim.
Qed.

Lemma dropWhile_app f a b :
  dropWhile f (a ++ b) =
  match dropWhile f a with
  | [] => dropWhile f b
  | x :: y => (x :: y) ++ b
  end.
Proof.
  induction a as [|c a IH]; [reflexivity|]. cbn [app dropWhile].
  destruct (f c); [exact IH|reflexivity].
Qed.

(** [trimEnd] removes the white space that [trimStart] removes from the
    reversed string. *)
Lemma trimEnd_rev s : trimEnd s = rev (dropWhile isWs (rev s)).
Proof.
  induction s as [|c t IH]; [reflexivity|].
  cbn [trimEnd rev]. rewrite dropWhile_app, IH.
  destruct (dropWhile isWs (rev t)) as [|x y].
  - cbn. now destruct (isWs c).
  - rewrite rev_app_distr. cbn [rev app].
    destruct (rev y ++ [x]) eqn:E; [|reflexivity].
    now apply app_eq_nil in E as [_ E].
Qed.

End Whitespace.

(** ** normalizeParagraphs *)

(** C9. normalizeParagraphs is idempotent: normalising an already normalised
    sequence returns it unchanged; every entry it returns is non-empty, has
    no white space other than single spaces between other characters, and
    has no leading or trailing white space. *)
Theorem normalizeParagraphs_idempotent :
  forall xs : list jsstring,
    normalizeParagraphs (normalizeParagraphs xs) = normalizeParagraphs xs /\
    Forall (fun p => p <> [] /\ spaced false p = true /\
                     trimStart p = p /\ trimEnd p = p)
           (normalizeParagraphs xs).
Proof.
  intros xs; split.
  - unfold normalizeParagraphs.
    induction xs as [|x t IH]; [reflexivity|].
    cbn [List.map List.filter].
    destruct (isEmpty (norm x)) eqn:Hx; cbn [negb]; [exact IH|].
    cbn [List.map List.filter]. rewrite norm_idem, Hx. cbn [negb].
    f_equal. exact IH.
  - unfold normalizeParagraphs.
    induction xs as [|x t IH]; [constructor|].
    cbn [List.map List.filter].
    destruct (isEmpty (norm x)) eqn:Hx; cbn [negb]; [exact IH|].
    constructor; [|exact IH].
    split; [intros E; rewrite E in Hx; discriminate|].
    split; [apply spaced_norm|].
    split; [apply headNotWs_trimStart, headNotWs_norm|].
    unfold norm, trim. apply trimEnd_idem.
Qed.

(** ** Digits *)

Lemma isDigit_range c : isDigit c = true <-> 48 <= c <= 57.
Proof.
  unfold isDigit. rewrite andb_true_iff, !N.leb_le. tauto.
Qed.

Lemma N_eqb_false_lt (c k : N) : c <> k -> (c =? k) = false.
Proof. apply N.eqb_neq. Qed.

Lemma small_not_ws c : 33 <= c < 160 -> isWs c = false.
Proof.
  intros H. unfold isWs, isLineTerminator.
  rewrite !N_eqb_false_lt by lia.
  replace (8192 <=? c) with false by (symmetry; apply N.leb_gt; lia).
  reflexivity.
Qed.

Lemma digit_not_ws c : isDigit c = true -> isWs c = false.
Proof. rewrite isDigit_range. intros H. apply small_not_ws. lia. Qed.

Lemma lineTerminator_isWs c : isLineTerminator c = true -> isWs c = true.
Proof. unfold isWs. intros ->. now rewrite !orb_true_r. Qed.

Lemma takeWhile_dropWhile f s : takeWhile f s ++ dropWhile f s = s.
Proof.
  induction s as [|c t IH]; [reflexivity|]. cbn.
  destruct (f c); [cbn; now rewrite IH|reflexivity].
Qed.

Lemma takeWhile_Forall f s : Forall (fun c => f c = true) (takeWhile f s).
Proof.
  induction s as [|c t IH]; cbn; [constructor|].
  destruct (f c) eqn:Hc; constructor; assumption.
Qed.

Lemma takeWhile_app_stop f a b :
  Forall (fun c => f c = true) a -> headNotF f b ->
  takeWhile f (a ++ b) = a /\ dropWhile f (a ++ b) = b.
Proof.
  intros Ha Hb. induction Ha as [|c a Hc Ha IH]; cbn.
  - destruct b as [|x b]; [now split|]. cbn in Hb |- *. rewrite Hb. now split.
  - rewrite Hc. destruct IH as [-> ->]. now split.
Qed.

Lemma takeWhile_all f s : Forall (fun c => f c = true) s -> takeWhile f s = s.
Proof.
  induction 1 as [|c t Hc _ IH]; cbn; [reflexivity|]. now rewrite Hc, IH.
Qed.

Lemma parseInt_digits d ds :
  Forall (fun c => isDigit c = true) (d :: ds) ->
  parseInt (d :: ds) = Int (digitsValue (d :: ds)).
Proof.
  intros H. pose proof (Forall_inv H) as Hd.
  unfold parseInt. cbn [dropWhile]. rewrite (digit_not_ws _ Hd).
  apply isDigit_range in Hd.
  rewrite !N_eqb_false_lt by lia.
  rewrite (takeWhile_all _ _ H). reflexivity.
Qed.

Lemma digitsValueFrom_nonneg ds : forall acc,
  Forall (fun c => isDigit c = true) ds -> (0 <= acc)%Z ->
  (0 <= digitsValueFrom acc ds)%Z.
Proof.
  unfold digitsValueFrom.
  induction ds as [|c t IH]; intros acc H Hacc; cbn [fold_left]; [exact Hacc|].
  apply IH; [exact (Forall_inv_tail H)|].
  apply Forall_inv, isDigit_range in H. unfold digitVal. lia.
Qed.

(** ** checkNumbering *)

(** The pattern of the checker, read as a decomposition of the paragraph:
    optional leading white space, one or more digits, a dot or a closing
    parenthesis, one white-space unit, anything. *)
Lemma matchFlat_spec p ds :
  matchFlat p = Some ds <->
  exists lead c w rest,
    p = lead ++ ds ++ c :: w :: rest /\
    Forall (fun u => isWs u = true) lead /\
    ds <> [] /\ Forall (fun u => isDigit u = true) ds /\
    (c = DOT \/ c = RPAREN) /\ isWs w = true.
Proof.
  split.
  - unfold matchFlat. intros H.
    pose proof (takeWhile_dropWhile isWs p) as Hp.
    pose proof (takeWhile_dropWhile isDigit (dropWhile isWs p)) as Hs.
    pose proof (takeWhile_Forall isDigit (dropWhile isWs p)) as Hd.
    destruct (takeWhile isDigit (dropWhile isWs p)) as [|d ds'] eqn:E1; [discriminate|].
    destruct (dropWhile isDigit (dropWhile isWs p)) as [|c [|w rest]] eqn:E2;
      try discriminate.
    destruct (((c =? DOT) || (c =? RPAREN)) && isWs w) eqn:E3; [|discriminate].
    injection H as <-.
    apply andb_prop in E3 as [Hc Hw].
    exists (takeWhile isWs p), c, w, rest. repeat split.
    + now rewrite Hs.
    + apply takeWhile_Forall.
    + discriminate.
    + exact Hd.
    + apply orb_prop in Hc as [Hc|Hc]; apply N.eqb_eq in Hc; auto.
    + exact Hw.
  - intros (lead & c & w & rest & -> & Hlead & Hne & Hds & Hc & Hw).
    unfold matchFlat.
    destruct ds as [|d ds']; [congruence|].
    assert (Hcd : isDigit c = false) by (destruct Hc as [-> | ->]; reflexivity).
    destruct (takeWhile_app_stop isWs lead ((d :: ds') ++ c :: w :: rest) Hlead)
      as [_ ->].
    { cbn. apply digit_not_ws. exact (Forall_inv Hds). }
    destruct (takeWhile_app_stop isDigit (d :: ds') (c :: w :: rest) Hds Hcd)
      as [-> ->].
    rewrite Hw, andb_true_r.
    destruct Hc as [-> | ->]; reflexivity.
Qed.

Lemma matchFlat_digits p ds :
  matchFlat p = Some ds -> exists d ds', ds = d :: ds' /\
    Forall (fun u => isDigit u = true) ds.
Proof.
  intros H. apply matchFlat_spec in H as (_ & _ & _ & _ & _ & _ & Hne & Hd & _).
  destruct ds as [|d ds']; [congruence|]. eauto.
Qed.

Lemma checkStep_loop ps : forall i acc counter,
  cs_issues (forEachFrom i checkStep ps (mkCheck acc (Int counter))) =
  acc ++ checkSpec i counter ps.
Proof.
  induction ps as [|p t IH]; intros i acc counter; cbn [forEachFrom checkSpec].
  - cbn. now rewrite app_nil_r.
  - unfold checkStep at 2, flatNumber.
    destruct (matchFlat p) as [ds|] eqn:Hm; cbn [option_map cs_expected cs_issues].
    + destruct (matchFlat_digits _ _ Hm) as (d & ds' & -> & Hd).
      rewrite (parseInt_digits _ _ Hd). cbn [strictEq addInt].
      destruct (decide (digitsValue (d :: ds') = counter)) as [E|E].
      * rewrite (proj2 (Z.eqb_eq _ _) E). cbn [negb]. apply IH.
      * rewrite (proj2 (Z.eqb_neq _ _) E). cbn [negb].
        rewrite IH, <- app_assoc. reflexivity.
    + apply IH.
Qed.

Lemma flatNumber_spec p n :
  flatNumber p = Some n <->
  exists lead ds c w rest,
    p = lead ++ ds ++ c :: w :: rest /\
    Forall (fun u => isWs u = true) lead /\
    ds <> [] /\ Forall (fun u => isDigit u = true) ds /\
    (c = DOT \/ c = RPAREN) /\ isWs w = true /\ n = digitsValue ds.
Proof.
  unfold flatNumber. split.
  - destruct (matchFlat p) as [ds|] eqn:Hm; [|discriminate].
    cbn. intros [= <-].
    apply matchFlat_spec in Hm as (lead & c & w & rest & H).
    exists lead, ds, c, w, rest. intuition.
  - intros (lead & ds & c & w & rest & Hp & H1 & H2 & H3 & H4 & H5 & ->).
    assert (Hm : matchFlat p = Some ds).
    { apply matchFlat_spec. exists lead, c, w, rest. tauto. }
    now rewrite Hm.
Qed.

Lemma checkStep_scan ps : forall i acc counter,
  cs_issues (forEachFrom i checkStep ps (mkCheck acc counter)) =
  acc ++ checkScan i counter ps.
Proof.
  induction ps as [|p t IH]; intros i acc counter; cbn [forEachFrom checkScan].
  - cbn. now rewrite app_nil_r.
  - unfold checkStep at 2.
    destruct (matchFlat p) as [ds|] eqn:Hm; cbn [cs_expected cs_issues].
    + destruct (strictEq (parseInt ds) counter); cbn [negb].
      * apply IH.
      * rewrite IH, <- app_assoc. reflexivity.
    + apply IH.
Qed.

Lemma checkNumbering_checkScan ps : checkNumbering ps = checkScan 0 (Int 1) ps.
Proof. unfold checkNumbering, forEach. now rewrite checkStep_scan. Qed.

Lemma parseInt_digitRun ds :
  ds <> [] -> Forall (fun u => isDigit u = true) ds ->
  parseInt ds = Int (digitsValue ds).
Proof.
  intros Hne Hd. destruct ds as [|d ds']; [congruence|].
  now apply parseInt_digits.
Qed.

(** C1, as the code has it.  checkNumbering is a scan with a counter that
    starts at 1.  A paragraph matches when, after optional leading white
    space, it carries one or more digits, a dot or a closing parenthesis and
    a white-space unit; the number found is what parseInt reads from the
    digits, which is their value when there are at most 15 of them.  A
    matching paragraph whose number is the counter increments the counter;
    any other matching paragraph is reported once, with its index, the
    number found, the counter and its text, and the counter becomes the
    number found plus one; a paragraph that does not match leaves the
    counter as it is.  On "1. a", "3. b", "4. c" the one issue is the one
    at index 1. *)
Theorem checkNumbering_scan :
  (forall ps, checkNumbering ps = checkScan 0 (Int 1) ps) /\
  (forall p ds, matchFlat p = Some ds <->
     exists lead c w rest,
       p = lead ++ ds ++ c :: w :: rest /\
       Forall (fun u => isWs u = true) lead /\
       ds <> [] /\ Forall (fun u => isDigit u = true) ds /\
       (c = DOT \/ c = RPAREN) /\ isWs w = true) /\
  (forall ds, ds <> [] -> Forall (fun u => isDigit u = true) ds ->
     shortDigits ds -> parseInt ds = Int (digitsValue ds)) /\
  checkNumbering [str "1. a"; str "3. b"; str "4. c"] =
    [mkIssue 1 (Int 3) (Int 2) (str "3. b")].
Proof.
  split; [|split; [|split]].
  - apply checkNumbering_checkScan.
  - apply matchFlat_spec.
  - intros ds Hne Hd _. now apply parseInt_digitRun.
  - reflexivity.
Qed.

Lemma checkNumbering_scan_witness :
  parseInt (str "12") = Int 12 /\
  matchFlat (str "  12) item") = Some (str "12").
Proof.
  destruct checkNumbering_scan as (_ & Hm & Hp & _). split.
  - apply (Hp (str "12")).
    + discriminate.
    + repeat constructor.
    + unfold shortDigits. cbn. lia.
  - apply Hm. exists (str "  "), RPAREN, SPACE, (str "item").
    split; [reflexivity|]. split; [repeat constructor|].
    split; [discriminate|]. split; [repeat constructor|].
    split; [now right|reflexivity].
Defined.

(** C1 as stated fails: a paragraph that begins with white space does not
    begin with digits, and the checker still reads the marker behind the
    white space and reports the paragraph. *)
Lemma checkNumbering_leading_space_counterexample :
  checkNumbering [str " 5. x"] = [mkIssue 0 (Int 5) (Int 1) (str " 5. x")] /\
  ~ (exists ds c w rest,
       str " 5. x" = ds ++ c :: w :: rest /\
       ds <> [] /\ Forall (fun u => isDigit u = true) ds /\
       (c = DOT \/ c = RPAREN) /\ isWs w = true).
Proof.
  split; [reflexivity|].
  intros (ds & c & w & rest & Hp & Hne & Hd & _).
  destruct ds as [|d ds']; [congruence|].
  injection Hp as <- _. apply Forall_inv in Hd. discriminate.
Qed.

(** ** renumberHierarchical *)

Lemma renumberStep_loop ps : forall i out current,
  rs_out (forEachFrom i renumberStep ps (mkRenumber out current)) =
  out ++ renumberFrom current ps.
Proof.
  induction ps as [|p t IH]; intros i out current; cbn [forEachFrom renumberFrom].
  - cbn. now rewrite app_nil_r.
  - unfold renumberStep at 2. cbn [rs_out rs_current].
    destruct (matchHier p) as [[[numberingStr delim] restRaw]|].
    + rewrite IH, <- app_assoc. reflexivity.
    + rewrite IH, <- app_assoc. reflexivity.
Qed.

Lemma renumberHierarchical_from ps :
  renumberHierarchical ps = renumberFrom [] ps.
Proof. unfold renumberHierarchical, forEach. now rewrite renumberStep_loop. Qed.

Lemma incrLast_snoc a x : incrLast (a ++ [x]) = a ++ [addInt x 1].
Proof. unfold incrLast. now rewrite removelast_last, last_last. Qed.

Lemma take_snoc_nth (l : list JNum) k :
  (k < length l)%nat -> take (S k) l = take k l ++ [nth k l NaN].
Proof.
  revert k. induction l as [|x l IH]; intros k H; cbn in H; [lia|].
  destruct k as [|k]; [reflexivity|].
  cbn [take nth]. cbn [app]. f_equal. apply IH. lia.
Qed.

Lemma pushOnes_repeat k e : pushOnes k e = e ++ repeat (Int 1) k.
Proof.
  unfold pushOnes. induction k as [|k IH].
  - cbn. now rewrite app_nil_r.
  - rewrite Nat.iter_succ, IH, <- app_assoc. f_equal. symmetry. apply repeat_cons.
Qed.

Lemma expectedPath_first fnd : expectedPath [] fnd = fnd.
Proof. reflexivity. Qed.

Lemma expectedPath_same current fnd :
  current <> [] -> length fnd = length current ->
  expectedPath current fnd = incrLast current.
Proof.
  intros Hne Hlen. unfold expectedPath, at_.
  destruct current as [|c0 cur]; [congruence|].
  rewrite Hlen, Nat.eqb_refl.
  change (length (c0 :: cur) =? 0)%nat with false. cbv iota.
  rewrite <- incrLast_snoc. f_equal.
  replace (length (c0 :: cur) - 1)%nat with (length cur) by (cbn; lia).
  rewrite <- take_snoc_nth by (cbn; lia).
  change (S (length cur)) with (length (c0 :: cur)). apply firstn_all.
Qed.

Lemma expectedPath_deeper1 current fnd :
  current <> [] -> length fnd = (length current + 1)%nat ->
  expectedPath current fnd = current ++ [Int 1].
Proof.
  intros Hne Hlen. unfold expectedPath.
  destruct current as [|c0 cur]; [congruence|].
  change (length (c0 :: cur) =? 0)%nat with false. cbv iota.
  rewrite Hlen, Nat.eqb_refl.
  now rewrite (proj2 (Nat.eqb_neq _ _)) by lia.
Qed.

Lemma expectedPath_shallower current fnd :
  fnd <> [] -> (length fnd < length current)%nat ->
  expectedPath current fnd = incrLast (take (length fnd) current).
Proof.
  intros Hne Hlen. unfold expectedPath, at_.
  destruct fnd as [|f0 fnd]; [congruence|].
  rewrite (proj2 (Nat.eqb_neq (length current) 0)) by lia.
  rewrite (proj2 (Nat.eqb_neq (length (f0 :: fnd)) (length current))) by lia.
  rewrite (proj2 (Nat.eqb_neq (length (f0 :: fnd)) (length current + 1))) by lia.
  rewrite (proj2 (Nat.ltb_lt _ _)) by lia.
  rewrite <- incrLast_snoc. f_equal.
  replace (length (f0 :: fnd) - 1)%nat with (length fnd) by (cbn; lia).
  symmetry. apply take_snoc_nth. cbn in Hlen. lia.
Qed.

Lemma expectedPath_jump current fnd :
  current <> [] -> (length current + 1 < length fnd)%nat ->
  expectedPath current fnd =
  current ++ repeat (Int 1) (length fnd - length current).
Proof.
  intros Hne Hlen. unfold expectedPath.
  destruct current as [|c0 cur]; [congruence|].
  change (length (c0 :: cur) =? 0)%nat with false. cbv iota.
  rewrite (proj2 (Nat.eqb_neq (length fnd) (length (c0 :: cur)))) by lia.
  rewrite (proj2 (Nat.eqb_neq (length fnd) (length (c0 :: cur) + 1))) by lia.
  rewrite (proj2 (Nat.ltb_ge _ _)) by lia.
  apply pushOnes_repeat.
Qed.

Lemma split_nonempty sep s : split sep s <> [].
Proof.
  destruct s as [|c t]; cbn; [discriminate|].
  destruct (c =? sep); [discriminate|].
  destruct (split sep t); discriminate.
Qed.

Lemma parsePath_nonempty s : parsePath s <> [].
Proof.
  unfold parsePath. pose proof (split_nonempty DOT s).
  destruct (split DOT s); [congruence|discriminate].
Qed.

(** The path written has the depth of the path read. *)
Lemma expectedPath_length current fnd :
  fnd <> [] -> length (expectedPath current fnd) = length fnd.
Proof.
  intros Hne.
  destruct current as [|c0 cur] eqn:Ec; [reflexivity|]. rewrite <- Ec.
  assert (Hc : current <> []) by (rewrite Ec; discriminate).
  assert (Hf : (0 < length fnd)%nat) by (destruct fnd; [congruence|cbn; lia]).
  assert (Hl : (0 < length current)%nat) by (rewrite Ec; cbn; lia).
  destruct (lt_eq_lt_dec (length fnd) (length current)) as [[H|H]|H].
  - rewrite expectedPath_shallower by assumption.
    unfold incrLast. rewrite length_app, removelast_firstn_len.
    rewrite !length_firstn. cbn. lia.
  - rewrite expectedPath_same by assumption.
    unfold incrLast. rewrite length_app, removelast_firstn_len.
    rewrite !length_firstn. cbn. lia.
  - destruct (Nat.eq_dec (length fnd) (length current + 1)%nat) as [E|E].
    + rewrite expectedPath_deeper1 by assumption. rewrite length_app. cbn. lia.
    + rewrite expectedPath_jump by (assumption || lia).
      rewrite length_app, repeat_length. lia.
Qed.

Lemma renumberFrom_match current p t numberingStr delim restRaw :
  matchHier p = Some (numberingStr, delim, restRaw) ->
  renumberFrom current (p :: t) =
  rewritten (expectedPath current (parsePath numberingStr)) delim restRaw
  :: renumberFrom (expectedPath current (parsePath numberingStr)) t.
Proof. intros H. cbn [renumberFrom]. now rewrite H. Qed.

Lemma renumberFrom_unmatched_prefix pre : forall current rest,
  Forall (fun q => matchHier q = None) pre ->
  renumberFrom current (pre ++ rest) = pre ++ renumberFrom current rest.
Proof.
  induction pre as [|q pre IH]; intros current rest H; [reflexivity|].
  cbn [app renumberFrom]. rewrite (Forall_inv H).
  f_equal. apply IH. exact (Forall_inv_tail H).
Qed.

Lemma renumberFrom_length ps : forall current,
  length (renumberFrom current ps) = length ps.
Proof.
  induction ps as [|p t IH]; intros current; [reflexivity|].
  cbn [renumberFrom].
  destruct (matchHier p) as [[[n d] r]|]; cbn [length]; now rewrite IH.
Qed.

Lemma renumberFrom_lookup_unmatched ps : forall current (i : nat) p,
  ps !! i = Some p -> matchHier p = None ->
  renumberFrom current ps !! i = Some p.
Proof.
  induction ps as [|q t IH]; intros current i p Hi Hp; [discriminate|].
  cbn [renumberFrom]. destruct i as [|i].
  - injection Hi as ->. now rewrite Hp.
  - cbn in Hi. destruct (matchHier q) as [[[n d] r]|]; cbn; now apply IH.
Qed.

(** C2. After the first numbered paragraph the carried path is not empty,
    and the path written for a matching paragraph follows from the carried
    path and the depth of the path read: same depth, last element plus one;
    one deeper, a 1 appended; shallower, truncated to the depth read with
    its last element plus one; two or more deeper, as many 1s appended as
    levels are missing.  The path written becomes the carried path. *)
Theorem renumberHierarchical_rules :
  (forall current fnd : list JNum, current <> [] -> fnd <> [] ->
     (length fnd = length current ->
        expectedPath current fnd = incrLast current) /\
     (length fnd = (length current + 1)%nat ->
        expectedPath current fnd = current ++ [Int 1]) /\
     ((length fnd < length current)%nat ->
        expectedPath current fnd = incrLast (take (length fnd) current)) /\
     ((length current + 1 < length fnd)%nat ->
        expectedPath current fnd =
        current ++ repeat (Int 1) (length fnd - length current))) /\
  (forall current p t numberingStr delim restRaw,
     matchHier p = Some (numberingStr, delim, restRaw) ->
     let e := expectedPath current (parsePath numberingStr) in
     parsePath numberingStr <> [] /\ e <> [] /\
     renumberFrom current (p :: t) = rewritten e delim restRaw :: renumberFrom e t) /\
  (forall ps, renumberHierarchical ps = renumberFrom [] ps) /\
  renumberHierarchical [str "6.1 a"; str "6.1.1 b"; str "6.1.1.1 c"] =
    [str "6.1 a"; str "6.1.1 b"; str "6.1.1.1 c"] /\
  renumberHierarchical [str "6 a"; str "6.3.5 b"] = [str "6 a"; str "6.1.1 b"].
Proof.
  split; [|split; [|split; [|split]]].
  - intros current fnd Hc Hf. repeat split; intros H.
    + now apply expectedPath_same.
    + now apply expectedPath_deeper1.
    + now apply expectedPath_shallower.
    + now apply expectedPath_jump.
  - intros current p t numberingStr delim restRaw Hm e.
    pose proof (parsePath_nonempty numberingStr) as Hp.
    split; [exact Hp|]. split.
    + intros He. apply (f_equal (@length JNum)) in He.
      unfold e in He. rewrite expectedPath_length in He by exact Hp.
      destruct (parsePath numberingStr); [congruence|discriminate].
    + now apply renumberFrom_match.
  - apply renumberHierarchical_from.
  - reflexivity.
  - reflexivity.
Qed.

Lemma renumberHierarchical_rules_witness :
  expectedPath [Int 6; Int 2; Int 4] [Int 9; Int 9] = [Int 6; Int 3] /\
  expectedPath [Int 6] [Int 6; Int 3; Int 5] = [Int 6; Int 1; Int 1].
Proof.
  destruct renumberHierarchical_rules as [H _]. split.
  - apply (H [Int 6; Int 2; Int 4] [Int 9; Int 9]);
      [discriminate|discriminate|cbn; lia].
  - apply (H [Int 6] [Int 6; Int 3; Int 5]);
      [discriminate|discriminate|cbn; lia].
Defined.

(** C3. The first paragraph that carries a hierarchical number, when no
    path is carried yet, keeps the path it carries: the path written is the
    path read, whatever its first number. *)
Theorem renumberHierarchical_first :
  forall pre p post numberingStr delim restRaw,
    Forall (fun q => matchHier q = None) pre ->
    matchHier p = Some (numberingStr, delim, restRaw) ->
    expectedPath [] (parsePath numberingStr) = parsePath numberingStr /\
    renumberHierarchical (pre ++ p :: post) =
      pre ++ rewritten (parsePath numberingStr) delim restRaw
          :: renumberFrom (parsePath numberingStr) post.
Proof.
  intros pre p post numberingStr delim restRaw Hpre Hm.
  split; [reflexivity|].
  rewrite renumberHierarchical_from, renumberFrom_unmatched_prefix by exact Hpre.
  f_equal. now rewrite (renumberFrom_match _ _ _ _ _ _ Hm).
Qed.

Lemma renumberHierarchical_first_witness :
  renumberHierarchical [str "Scope"; str "6.3 a"; str "6.9 b"] =
  [str "Scope"; str "6.3 a"; str "6.4 b"].
Proof.
  destruct (renumberHierarchical_first [str "Scope"] (str "6.3 a") [str "6.9 b"]
              (str "6.3") [] (str "a")) as [_ H].
  - repeat constructor.
  - reflexivity.
  - exact H.
Defined.

(** C8. renumberHierarchical returns as many paragraphs as it is given, in
    the same positions; a paragraph without a hierarchical prefix is
    returned as it is, so a paragraph that differs from its input carries
    such a prefix. *)
Theorem renumberHierarchical_frame :
  forall ps : list jsstring,
    length (renumberHierarchical ps) = length ps /\
    (forall (i : nat) p, ps !! i = Some p -> matchHier p = None ->
       renumberHierarchical ps !! i = Some p) /\
    (forall (i : nat) p q, ps !! i = Some p ->
       renumberHierarchical ps !! i = Some q -> p <> q ->
       exists numberingStr delim restRaw,
         matchHier p = Some (numberingStr, delim, restRaw)).
Proof.
  intros ps. rewrite renumberHierarchical_from. split; [|split].
  - apply renumberFrom_length.
  - intros i p Hi Hp. now apply renumberFrom_lookup_unmatched.
  - intros i p q Hi Ho Hne.
    destruct (matchHier p) as [[[n d] r]|] eqn:Hm; [eauto|].
    rewrite (renumberFrom_lookup_unmatched _ _ _ _ Hi Hm) in Ho. congruence.
Qed.

Lemma renumberHierarchical_frame_witness :
  renumberHierarchical [str "6.1 a"; str "note"; str "6.5 b"] !! 1%nat =
  Some (str "note").
Proof.
  destruct (renumberHierarchical_frame [str "6.1 a"; str "note"; str "6.5 b"])
    as (_ & H & _).
  apply H; reflexivity.
Defined.

(** ** compareParagraphSets *)

Section CompareFacts.
Variable toLowerCase : jsstring -> jsstring.

Lemma absentStep_loop (other : gset (list N)) ps : forall pre acc,
  forEachFrom (length pre)
    (absentStep (pre ++ List.map (normKey toLowerCase) ps) other) ps acc =
  acc ++ List.filter (fun p => negb (bool_decide (normKey toLowerCase p ∈ other))) ps.
Proof.
  induction ps as [|p t IH]; intros pre acc; cbn [forEachFrom List.map List.filter].
  - now rewrite app_nil_r.
  - unfold absentStep at 2.
    rewrite list_lookup_middle by reflexivity.
    replace (pre ++ normKey toLowerCase p :: List.map (normKey toLowerCase) t)
      with ((pre ++ [normKey toLowerCase p]) ++ List.map (normKey toLowerCase) t)
      by now rewrite <- app_assoc.
    replace (S (length pre)) with (length (pre ++ [normKey toLowerCase p]))
      by (rewrite length_app; cbn; lia).
    rewrite IH.
    destruct (bool_decide (normKey toLowerCase p ∈ other)); cbn [negb].
    + reflexivity.
    + now rewrite <- app_assoc.
Qed.

Lemma absent_filter (keysOther : list jsstring) ps :
  forEach (absentStep (List.map (normKey toLowerCase) ps) (list_to_set keysOther)) ps [] =
  List.filter (fun p => bool_decide (normKey toLowerCase p ∉ keysOther)) ps.
Proof.
  unfold forEach.
  rewrite (absentStep_loop (list_to_set keysOther) ps [] []). cbn [app].
  apply filter_ext. intros p.
  rewrite <- bool_decide_not. apply bool_decide_ext.
  now rewrite elem_of_list_to_set.
Qed.

Lemma filter_absent_self ps :
  List.filter
    (fun p => bool_decide (normKey toLowerCase p ∉ List.map (normKey toLowerCase) ps))
    ps = [].
Proof.
  rewrite (filter_ext_in _ (fun _ => false)); [apply filter_false|].
  intros p Hp. apply bool_decide_eq_false. intros Hn. apply Hn.
  apply list_elem_of_In, in_map, Hp.
Qed.

End CompareFacts.


(** ** findParagraphByItemNumber *)

Lemma startsWith_spec p : forall s,
  startsWith s p = true <-> exists rest, s = p ++ rest.
Proof.
  induction p as [|a p IH]; intros s; cbn [startsWith].
  - split; [intros _; now exists s|reflexivity].
  - destruct s as [|b s].
    + split; [discriminate|intros [rest H]; discriminate].
    + rewrite andb_true_iff, N.eqb_eq, IH. split.
      * intros [-> [rest ->]]. now exists rest.
      * intros [rest H]. injection H as -> ->. split; [reflexivity|now exists rest].
Qed.

Lemma itemMatches_spec target p :
  itemMatches target p = true <-> itemAccepts target p.
Proof.
  unfold itemMatches, itemAccepts, streq.
  rewrite !orb_true_iff, !startsWith_spec, bool_decide_eq_true. split.
  - intros [[[[rest H]|[rest H]]|[rest H]]|H]; [left|left|left|right; exact H];
      rewrite <- app_assoc in H; cbn [app] in H; eauto 6.
  - intros [(c & rest & -> & [-> | [-> | ->]])| ->]; [| | |now right]; left.
    + left; left. exists rest. now rewrite <- app_assoc.
    + left; right. exists rest. now rewrite <- app_assoc.
    + right. exists rest. now rewrite <- app_assoc.
Qed.

Lemma findFrom_spec accepts ps : forall i,
  (exists pre p post,
     ps = pre ++ p :: post /\
     Forall (fun q => accepts q = false) pre /\
     accepts p = true /\
     findFrom accepts i ps = mkSearchResult (Z.of_nat (i + length pre)) p) \/
  (Forall (fun q => accepts q = false) ps /\ findFrom accepts i ps = notFound).
Proof.
  induction ps as [|q t IH]; intros i; cbn [findFrom].
  - right. split; [constructor|reflexivity].
  - destruct (accepts q) eqn:Hq.
    + left. exists [], q, t. cbn. rewrite Nat.add_0_r. auto.
    + destruct (IH (S i)) as [(pre & p & post & -> & Hpre & Hp & Hr)|[Hall Hr]].
      * left. exists (q :: pre), p, post. cbn [app length].
        replace (i + S (length pre))%nat with (S i + length pre)%nat by lia.
        auto.
      * right. auto.
Qed.

Lemma findFrom_firstAccepted accepts ps :
  firstAccepted accepts ps (findFrom accepts 0 ps).
Proof.
  destruct (findFrom_spec accepts ps 0%nat)
    as [(pre & p & post & H1 & H2 & H3 & H4)|[H1 H2]].
  - left. exists pre, p, post. now rewrite H4.
  - right. now rewrite H2.
Qed.

Section RegexFacts.
Variable canonicalize : N -> N.

Lemma literalCI_spec term : forall p r,
  literalCI canonicalize term p = Some r <->
  exists body, p = body ++ r /\
    Forall2 (fun a b => canonicalize a = canonicalize b) term body.
Proof.
  induction term as [|a term IH]; intros p r; cbn [literalCI].
  - split.
    + intros [= ->]. exists []. split; [reflexivity|constructor].
    + intros (body & -> & H). inversion H. reflexivity.
  - destruct p as [|b p].
    + split; [discriminate|].
      intros (body & Hp & H). inversion H; subst. discriminate.
    + destruct (canonicalize a =? canonicalize b) eqn:E.
      * apply N.eqb_eq in E. rewrite IH. split.
        -- intros (body & -> & H). exists (b :: body). split; [reflexivity|].
           now constructor.
        -- intros (body & Hp & H). inversion H as [|? b' ? body' Hab Hrest]; subst.
           injection Hp as -> ->. now exists body'.
      * apply N.eqb_neq in E. split; [discriminate|].
        intros (body & Hp & H). inversion H as [|? b' ? body' Hab Hrest]; subst.
        injection Hp as -> ->. contradiction.
Qed.

Lemma inClass_spec c :
  inClass c = true <-> (isWs c = true \/ c = DOT \/ c = RPAREN).
Proof.
  unfold inClass. rewrite !orb_true_iff, !N.eqb_eq. tauto.
Qed.

Lemma regexTest_spec term p :
  regexTest canonicalize term p = true <-> foldedAccepts canonicalize term p.
Proof.
  unfold foldedAccepts. induction p as [|u p IH].
  - cbn [regexTest]. rewrite orb_false_r. unfold termThenClass. split.
    + destruct (literalCI canonicalize term []) as [[|c r]|] eqn:E; try discriminate.
      intros Hc. apply literalCI_spec in E as (body & Hp & Hb).
      exists [], body, c, r. rewrite inClass_spec in Hc. auto.
    + intros (lead & body & c & rest & Hp & _).
      destruct lead, body; discriminate.
  - cbn [regexTest]. rewrite orb_true_iff, andb_true_iff, IH. split.
    + intros [H|[Hu (lead & body & c & rest & -> & Hl & Hb & Hc)]].
      * unfold termThenClass in H.
        destruct (literalCI canonicalize term (u :: p)) as [[|c r]|] eqn:E;
          try discriminate.
        apply literalCI_spec in E as (body & Hp & Hb).
        exists [], body, c, r. rewrite inClass_spec in H. auto.
      * exists (u :: lead), body, c, rest. repeat split; auto.
    + intros (lead & body & c & rest & Hp & Hl & Hb & Hc).
      destruct lead as [|l lead].
      * left. unfold termThenClass.
        assert (E : literalCI canonicalize term (u :: p) = Some (c :: rest)).
        { apply literalCI_spec. exists body. auto. }
        rewrite E. now apply inClass_spec.
      * right. injection Hp as -> ->. split; [exact (Forall_inv Hl)|].
        exists lead, body, c, rest. repeat split; auto.
        exact (Forall_inv_tail Hl).
Qed.

End RegexFacts.

Lemma itemMatches_regex_spec (toLowerCase : jsstring -> jsstring)
    (canonicalize : N -> N) term p :
  itemMatches_regex toLowerCase canonicalize term p = true <->
  foldedAccepts canonicalize term p \/
  exists rest, toLowerCase p = toLowerCase term ++ rest.
Proof.
  unfold itemMatches_regex.
  now rewrite orb_true_iff, regexTest_spec, startsWith_spec.
Qed.

(** C7, as the code has it.  Both listings of findParagraphByItemNumber
    scan linearly and return the first paragraph they accept with its
    index, or index -1 with the empty string.  The prefix-based listing
    accepts exactly the paragraphs that begin with the trimmed item number
    followed by a space, a dot or a closing parenthesis, or that are the
    trimmed item number.  The regular-expression listing accepts exactly
    the paragraphs in which, after optional white space, the lower-cased
    trimmed item number (up to case) is followed by white space, a dot or a
    closing parenthesis, and the paragraphs whose lower-cased text begins
    with the lower-cased search term. *)
Theorem findParagraphByItemNumber_scan :
  (forall ps itemNumber,
     firstAccepted (itemMatches (trim itemNumber)) ps
       (findParagraphByItemNumber ps itemNumber) /\
     (forall p, itemMatches (trim itemNumber) p = true <->
                itemAccepts (trim itemNumber) p)) /\
  (forall (toLowerCase : jsstring -> jsstring) (canonicalize : N -> N)
          ps itemNumber,
     let term := toLowerCase (trim itemNumber) in
     firstAccepted (itemMatches_regex toLowerCase canonicalize term) ps
       (findParagraphByItemNumber_regex toLowerCase canonicalize ps itemNumber) /\
     (forall p, itemMatches_regex toLowerCase canonicalize term p = true <->
                foldedAccepts canonicalize term p \/
                exists rest, toLowerCase p = toLowerCase term ++ rest)).
Proof.
  split.
  - intros ps itemNumber. split.
    + apply findFrom_firstAccepted.
    + intros p. apply itemMatches_spec.
  - intros toLowerCase canonicalize ps itemNumber term. split.
    + apply findFrom_firstAccepted.
    + intros p. apply itemMatches_regex_spec.
Qed.

Lemma findParagraphByItemNumber_scan_witness :
  itemMatches (trim (str " 6.1 ")) (str "6.1) x") = true /\
  itemMatches_regex asciiToLowerCase asciiUpperUnit
    (asciiToLowerCase (trim (str "6.1"))) (str " 6.1 x") = true /\
  itemMatches_regex asciiToLowerCase asciiUpperUnit
    (asciiToLowerCase (trim (str "Annex"))) (str "ANNEXES") = true.
Proof.
  destruct findParagraphByItemNumber_scan as [H1 H2]. split; [|split].
  - apply (H1 [] (str " 6.1 ")). left.
    exists RPAREN, (str " x"). split; [reflexivity|]. right. right. reflexivity.
  - apply (H2 asciiToLowerCase asciiUpperUnit [] (str "6.1")). left.
    exists [SPACE], (str "6.1"), SPACE, (str "x").
    split; [reflexivity|]. split; [repeat constructor|].
    split; [repeat constructor|]. left. reflexivity.
  - apply (H2 asciiToLowerCase asciiUpperUnit [] (str "Annex")). right.
    exists (str "es"). reflexivity.
Defined.

(** C7 as stated fails on the regular-expression listing: it returns a
    paragraph that differs from the item number in case, one that only
    carries the item number after leading white space, and one in which a
    digit follows the item number; none begins with the item number
    followed by a space, a dot or a closing parenthesis, and none is the
    item number. *)
Lemma findParagraphByItemNumber_regex_counterexample :
  findParagraphByItemNumber_regex asciiToLowerCase asciiUpperUnit
    [str "Annex.1 scope"] (str "ANNEX.1") =
    mkSearchResult 0 (str "Annex.1 scope") /\
  ~ itemAccepts (str "ANNEX.1") (str "Annex.1 scope") /\
  findParagraphByItemNumber_regex asciiToLowerCase asciiUpperUnit
    [str " 6.1 x"] (str "6.1") = mkSearchResult 0 (str " 6.1 x") /\
  ~ itemAccepts (str "6.1") (str " 6.1 x") /\
  findParagraphByItemNumber_regex asciiToLowerCase asciiUpperUnit
    [str "6.10 x"] (str "6.1") = mkSearchResult 0 (str "6.10 x") /\
  ~ itemAccepts (str "6.1") (str "6.10 x").
Proof.
  assert (Hno : forall target p, itemMatches target p = false ->
                                 ~ itemAccepts target p).
  { intros target p E H. apply itemMatches_spec in H. congruence. }
  repeat split; try reflexivity; apply Hno; reflexivity.
Qed.

(** ** The numbering synthesizer *)

Lemma flat_map_if_filter {A B : Type} (f : A -> bool) (g : A -> list B) l :
  flat_map (fun c => if f c then g c else []) l = flat_map g (List.filter f l).
Proof.
  induction l as [|x l IH]; [reflexivity|]. cbn [flat_map List.filter].
  destruct (f x); cbn [flat_map app]; now rewrite IH.
Qed.

Lemma processItems_numberedWith stack kids : forall counter,
  processItems processOl stack kids counter =
  numberedWith stack counter (List.filter (hasTag "li") kids).
Proof.
  induction kids as [|kid more IH]; intros counter; [reflexivity|].
  cbn [processItems List.filter].
  destruct kid as [d|tag liAttrs liKids]; cbn [hasTag]; [apply IH|].
  destruct (String.eqb tag "li") eqn:Etag; cbn [negb]; [|apply IH].
  cbn [numberedWith]. unfold itemOutput, itemNumber, childrenTagged.
  cbn [attributes childNodes].
  rewrite flat_map_if_filter, IH, <- !app_assoc. reflexivity.
Qed.

Lemma processOl_numberedWith tag attrs kids stack :
  processOl (Element tag attrs kids) stack =
  numberedWith stack (addInt (startNumber attrs) (-1))
    (List.filter (hasTag "li") kids).
Proof. cbn [processOl]. apply processItems_numberedWith. Qed.

Lemma numberedWith_plain stack lis : forall k,
  Forall (fun li => getAttribute "value" (attributes li) = None) lis ->
  numberedWith stack (Int (k - 1)) lis = numberedFrom stack k lis.
Proof.
  induction lis as [|li t IH]; intros k H; [reflexivity|].
  cbn [numberedWith numberedFrom]. unfold itemNumber.
  rewrite (Forall_inv H). cbn [attrOr addInt].
  replace (k - 1 + 1)%Z with k by lia.
  f_equal. rewrite <- IH by exact (Forall_inv_tail H).
  do 2 f_equal. lia.
Qed.


Lemma parseInt_minus_digits d ds :
  Forall (fun c => isDigit c = true) (d :: ds) ->
  parseInt (45 :: d :: ds) = Int (- digitsValue (d :: ds)).
Proof.
  intros H. unfold parseInt. cbn [dropWhile].
  rewrite (small_not_ws 45) by lia. rewrite N.eqb_refl.
  rewrite (takeWhile_all _ _ H). reflexivity.
Qed.


(** ** Printing a number and reading it back *)

Lemma digitsValueFrom_cons acc c ds :
  digitsValueFrom acc (c :: ds) = digitsValueFrom (10 * acc + digitVal c)%Z ds.
Proof. reflexivity. Qed.

Lemma digitsValueFrom_units_acc d : forall acc : positive,
  digitsValueFrom (Zpos acc) (unitsOfUint d) = Zpos (Pos.of_uint_acc d acc).
Proof.
  induction d; intros acc; cbn [unitsOfUint Pos.of_uint_acc];
    [reflexivity|..];
    rewrite digitsValueFrom_cons; rewrite <- IHd; f_equal;
    unfold digitVal; cbn; lia.
Qed.

Lemma digitsValue_units d :
  digitsValue (unitsOfUint d) = Z.of_N (Pos.of_uint d).
Proof.
  unfold digitsValue.
  induction d; cbn [unitsOfUint Pos.of_uint]; [reflexivity|..];
    rewrite digitsValueFrom_cons;
    first [ exact IHd
          | cbn [Z.of_N]; rewrite <- digitsValueFrom_units_acc; reflexivity ].
Qed.

Lemma unitsOfUint_digits d : Forall (fun c => isDigit c = true) (unitsOfUint d).
Proof. induction d; cbn [unitsOfUint]; constructor; auto. Qed.

Lemma natToString_nonempty n : natToString n <> [].
Proof.
  unfold natToString. destruct n as [|p]; [discriminate|].
  cbn [N.to_uint]. pose proof (DecimalPos.Unsigned.to_uint_nonnil p) as H.
  destruct (Pos.to_uint p); [congruence|..]; discriminate.
Qed.

Lemma digitsValue_natToString n : digitsValue (natToString n) = Z.of_N n.
Proof.
  unfold natToString. rewrite digitsValue_units.
  change (Pos.of_uint (N.to_uint n)) with (N.of_uint (N.to_uint n)).
  now rewrite DecimalN.Unsigned.of_to.
Qed.

Lemma numToString_nat n : numToString (Int (Z.of_N n)) = natToString n.
Proof.
  cbn [numToString]. rewrite (proj2 (Z.ltb_ge _ _)) by lia.
  now rewrite N2Z.id.
Qed.

Lemma numToString_digitGroup x : isNat x -> digitGroup (numToString x).
Proof.
  intros [n ->]. rewrite numToString_nat. split.
  - apply natToString_nonempty.
  - apply unitsOfUint_digits.
Qed.

Lemma parseInt_digitGroup g : digitGroup g -> parseInt g = Int (digitsValue g).
Proof.
  intros [Hne Hd]. destruct g as [|d ds]; [congruence|]. now apply parseInt_digits.
Qed.

Lemma parseInt_digitGroup_isNat g : digitGroup g -> isNat (parseInt g).
Proof.
  intros H. rewrite (parseInt_digitGroup _ H). destruct H as [_ Hd].
  exists (Z.to_N (digitsValue g)). f_equal. rewrite Z2N.id; [reflexivity|].
  now apply digitsValueFrom_nonneg.
Qed.

Lemma parseInt_numToString x : isNat x -> parseInt (numToString x) = x.
Proof.
  intros Hx. rewrite (parseInt_digitGroup _ (numToString_digitGroup _ Hx)).
  destruct Hx as [n ->]. now rewrite numToString_nat, digitsValue_natToString.
Qed.

(** ** Dotted numbers *)

Lemma join_dotTail gs : forall g, join [DOT] (g :: gs) = g ++ dotTail gs.
Proof.
  induction gs as [|g1 gs IH]; intros g.
  - cbn. now rewrite app_nil_r.
  - change (join [DOT] (g :: g1 :: gs)) with (g ++ [DOT] ++ join [DOT] (g1 :: gs)).
    now rewrite IH.
Qed.

Lemma digit_not_dot c : isDigit c = true -> (c =? DOT) = false.
Proof. rewrite isDigit_range. intros H. apply N.eqb_neq. unfold DOT. lia. Qed.

Lemma split_dotted gs : forall g,
  Forall (fun c => isDigit c = true) g -> Forall digitGroup gs ->
  split DOT (g ++ dotTail gs) = g :: gs.
Proof.
  induction gs as [|g1 gs IH]; intros g Hg Hgs.
  - cbn [dotTail flat_map]. rewrite app_nil_r.
    induction Hg as [|c g Hc Hg IHg]; [reflexivity|].
    cbn [split]. now rewrite (digit_not_dot _ Hc), IHg.
  - induction Hg as [|c g Hc Hg IHg].
    + cbn [dotTail flat_map app split]. rewrite N.eqb_refl.
      f_equal. apply IH; [apply (Forall_inv Hgs)|exact (Forall_inv_tail Hgs)].
    + cbn [app split]. now rewrite (digit_not_dot _ Hc), IHg.
Qed.

Lemma parsePath_joinPath e :
  e <> [] -> Forall isNat e -> parsePath (joinPath e) = e.
Proof.
  intros Hne He. unfold parsePath, joinPath.
  destruct e as [|x e]; [congruence|]. cbn [List.map].
  rewrite join_dotTail, split_dotted.
  - change (List.map parseInt (numToString x :: List.map numToString e))
      with (List.map parseInt (List.map numToString (x :: e))).
    rewrite List.map_map. rewrite <- (List.map_id (x :: e)) at 2.
    apply List.map_ext_in. intros y Hy. apply parseInt_numToString.
    rewrite List.Forall_forall in He. now apply He.
  - apply numToString_digitGroup, (Forall_inv He).
  - apply Forall_inv_tail in He. induction He; constructor; auto.
    now apply numToString_digitGroup.
Qed.

Lemma numTail_shape n : forall s, (length s <= n)%nat ->
  forall m r, numTail s = (m, r) ->
  s = m ++ r /\
  exists g0 gs, m = g0 ++ dotTail gs /\
    Forall (fun c => isDigit c = true) g0 /\ Forall digitGroup gs.
Proof.
  assert (Hstop : forall s : jsstring,
    s = [] ++ s /\ exists g0 gs, @nil N = g0 ++ dotTail gs /\
      Forall (fun c => isDigit c = true) g0 /\ Forall digitGroup gs).
  { intros s. split; [reflexivity|]. exists [], []. repeat split; constructor. }
  induction n as [|n IH]; intros s Hlen m r H.
  - destruct s; [|cbn in Hlen; lia]. cbn in H. injection H as <- <-. apply Hstop.
  - destruct s as [|c t]; [cbn in H; injection H as <- <-; apply Hstop|].
    cbn [numTail] in H. cbn [length] in Hlen.
    destruct (isDigit c) eqn:Hc.
    + destruct (numTail t) as [m' r'] eqn:Ht. injection H as <- <-.
      destruct (IH t ltac:(lia) m' r' Ht) as [-> (g0 & gs & -> & Hg0 & Hgs)].
      split; [reflexivity|]. exists (c :: g0), gs. repeat split; auto.
    + destruct (c =? DOT) eqn:Hdot; [|injection H as <- <-; apply Hstop].
      destruct t as [|d t']; [injection H as <- <-; apply Hstop|].
      destruct (isDigit d) eqn:Hd; [|injection H as <- <-; apply Hstop].
      destruct (numTail t') as [m' r'] eqn:Ht. injection H as <- <-.
      cbn [length] in Hlen.
      destruct (IH t' ltac:(lia) m' r' Ht) as [-> (g0 & gs & -> & Hg0 & Hgs)].
      apply N.eqb_eq in Hdot. subst c. split; [reflexivity|].
      exists [], ((d :: g0) :: gs). split; [reflexivity|].
      split; [constructor|]. constructor; [|exact Hgs].
      split; [discriminate|]. now constructor.
Qed.

Lemma numTail_complete r gs :
  stopTail r -> Forall digitGroup gs ->
  forall g0, Forall (fun c => isDigit c = true) g0 ->
  numTail (g0 ++ (dotTail gs ++ r)) = (g0 ++ dotTail gs, r).
Proof.
  intros Hr Hgs. induction Hgs as [|g gs Hg Hgs IH]; intros g0 Hg0.
  - cbn [dotTail flat_map app]. rewrite app_nil_r.
    induction Hg0 as [|c g0 Hc Hg0 IHg0].
    + destruct r as [|c t]; [reflexivity|].
      destruct Hr as [Hc Hdot]. cbn [app numTail]. rewrite Hc.
      destruct (c =? DOT) eqn:E; [|reflexivity].
      apply N.eqb_eq in E. specialize (Hdot E).
      destruct t as [|d t']; [reflexivity|]. cbn in Hdot. now rewrite Hdot.
    + cbn [app numTail]. now rewrite Hc, IHg0.
  - induction Hg0 as [|c g0 Hc Hg0 IHg0].
    + destruct Hg as [Hne Hgd]. destruct g as [|d g']; [congruence|].
      cbn [dotTail flat_map app]. rewrite <- app_assoc.
      cbn [app numTail]. change (isDigit DOT) with false. cbv iota.
      rewrite N.eqb_refl, (Forall_inv Hgd).
      fold (dotTail gs). rewrite (IH g' (Forall_inv_tail Hgd)). reflexivity.
    + cbn [app numTail]. now rewrite Hc, IHg0.
Qed.

Lemma matchHier_shape p numberingStr delim restRaw :
  matchHier p = Some (numberingStr, delim, restRaw) ->
  exists g gs, numberingStr = g ++ dotTail gs /\
    digitGroup g /\ Forall digitGroup gs /\ isDelim delim.
Proof.
  unfold matchHier. intros H.
  destruct (dropWhile isWs p) as [|c t]; [discriminate|].
  destruct (isDigit c) eqn:Hc; [|discriminate].
  destruct (numTail t) as [m r] eqn:Ht.
  destruct (numTail_shape _ t (le_n _) m r Ht) as [_ (g0 & gs & -> & Hg0 & Hgs)].
  assert (Hshape : forall delim' r1,
    match r1 with
    | [] => None
    | w :: _ =>
        if isWs w
        then if existsb isLineTerminator (dropWhile isWs r1) then None
             else Some (c :: g0 ++ dotTail gs, delim', dropWhile isWs r1)
        else None
    end = Some (numberingStr, delim, restRaw) ->
    numberingStr = (c :: g0) ++ dotTail gs /\ delim = delim').
  { intros delim' r1 E. destruct r1 as [|w r1']; [discriminate|].
    destruct (isWs w); [|discriminate].
    destruct (existsb isLineTerminator (dropWhile isWs (w :: r1'))); [discriminate|].
    injection E as <- <- <-. now split. }
  assert (Hg : digitGroup (c :: g0)) by (split; [discriminate|now constructor]).
  exists (c :: g0), gs. unfold isDelim.
  destruct r as [|x r']; [discriminate|].
  destruct ((x =? DOT) || (x =? RPAREN)) eqn:Hx.
  - apply (Hshape [x] r') in H as [-> ->].
    apply orb_prop in Hx as [Hx|Hx]; apply N.eqb_eq in Hx; subst x;
      repeat split; auto.
  - apply (Hshape [] (x :: r')) in H as [-> ->]. repeat split; auto.
Qed.

Lemma spaced_no_lineTerminator s : forall b,
  spaced b s = true -> existsb isLineTerminator s = false.
Proof.
  induction s as [|c t IH]; intros b H; [reflexivity|].
  cbn [spaced existsb] in *. destruct (isWs c) eqn:Hc.
  - apply andb_prop in H as [H1 Ht]. apply andb_prop in H1 as [_ H32].
    apply N.eqb_eq in H32. subst c. cbn. exact (IH true Ht).
  - destruct (isLineTerminator c) eqn:Hl.
    + apply lineTerminator_isWs in Hl. congruence.
    + exact (IH false H).
Qed.

Lemma matchHier_build d g0 gs delim rest :
  isDigit d = true -> Forall (fun c => isDigit c = true) g0 ->
  Forall digitGroup gs -> isDelim delim ->
  headNotWs rest = true -> existsb isLineTerminator rest = false ->
  matchHier (d :: g0 ++ (dotTail gs ++ (delim ++ SPACE :: rest))) =
  Some (d :: g0 ++ dotTail gs, delim, rest).
Proof.
  intros Hd Hg0 Hgs Hdelim Hhead Hlt. unfold matchHier.
  cbn [dropWhile]. rewrite (digit_not_ws _ Hd), Hd.
  assert (Hrest : dropWhile isWs rest = rest) by now apply headNotWs_trimStart.
  assert (Hstop : stopTail (delim ++ SPACE :: rest)).
  { destruct Hdelim as [-> | [-> | ->]]; cbn [app stopTail].
    - split; [reflexivity|discriminate].
    - split; [reflexivity|]. intros _. reflexivity.
    - split; [reflexivity|discriminate]. }
  rewrite (numTail_complete _ gs Hstop Hgs g0 Hg0).
  destruct Hdelim as [-> | [-> | ->]]; cbn [app];
    change (isWs SPACE) with true; cbn; now rewrite Hrest, Hlt.
Qed.

Lemma parsePath_shape g gs :
  digitGroup g -> Forall digitGroup gs ->
  parsePath (g ++ dotTail gs) = List.map parseInt (g :: gs) /\
  Forall isNat (parsePath (g ++ dotTail gs)).
Proof.
  intros Hg Hgs. unfold parsePath.
  rewrite split_dotted by (assumption || apply Hg). split; [reflexivity|].
  apply List.Forall_map. constructor; [now apply parseInt_digitGroup_isNat|].
  induction Hgs; constructor; auto. now apply parseInt_digitGroup_isNat.
Qed.

Lemma isNat_succ x : isNat x -> isNat (addInt x 1).
Proof.
  intros [n ->]. exists (n + 1). cbn [addInt]. f_equal. lia.
Qed.

Lemma incrLast_isNat l : l <> [] -> Forall isNat l -> Forall isNat (incrLast l).
Proof.
  intros Hne H. destruct (exists_last Hne) as (l' & x & ->).
  rewrite incrLast_snoc. apply List.Forall_app in H as [Hl Hx].
  apply List.Forall_app. split; [exact Hl|].
  constructor; [|constructor]. apply isNat_succ, (Forall_inv Hx).
Qed.

Lemma expectedPath_isNat current fnd :
  fnd <> [] -> Forall isNat current -> Forall isNat fnd ->
  Forall isNat (expectedPath current fnd).
Proof.
  intros Hne Hc Hf.
  destruct current as [|c0 cur] eqn:Ec; [exact Hf|]. rewrite <- Ec in *.
  assert (Hcne : current <> []) by (rewrite Ec; discriminate).
  assert (Hlf : (0 < length fnd)%nat) by (destruct fnd; [congruence|cbn; lia]).
  destruct (lt_eq_lt_dec (length fnd) (length current)) as [[H|H]|H].
  - rewrite expectedPath_shallower by assumption.
    apply incrLast_isNat; [|now apply Forall_take].
    intros E. apply (f_equal (@length JNum)) in E.
    rewrite length_firstn in E. cbn in E. lia.
  - rewrite expectedPath_same by assumption. now apply incrLast_isNat.
  - destruct (Nat.eq_dec (length fnd) (length current + 1)%nat) as [E|E].
    + rewrite expectedPath_deeper1 by assumption.
      apply List.Forall_app. split; [exact Hc|].
      constructor; [now exists 1|constructor].
    + rewrite expectedPath_jump by (assumption || lia).
      apply List.Forall_app. split; [exact Hc|].
      apply List.Forall_forall. intros x Hx. apply repeat_spec in Hx. subst x.
      now exists 1.
Qed.

(** Once a path is carried, the path written depends on the path read
    through its depth only. *)
Lemma expectedPath_depth_only current f1 f2 :
  current <> [] -> length f1 = length f2 ->
  expectedPath current f1 = expectedPath current f2.
Proof.
  intros Hne Hlen. unfold expectedPath. cbv zeta. rewrite Hlen.
  destruct current as [|c0 cur]; [congruence|]. reflexivity.
Qed.

Lemma expectedPath_again current fnd :
  fnd <> [] ->
  expectedPath current (expectedPath current fnd) = expectedPath current fnd.
Proof.
  intros Hne. destruct current as [|c0 cur] eqn:Ec; [reflexivity|].
  rewrite <- Ec.
  assert (Hcne : current <> []) by (rewrite Ec; discriminate).
  apply expectedPath_depth_only; [exact Hcne|].
  now apply expectedPath_length.
Qed.

Lemma matchHier_rewritten e delim restRaw :
  e <> [] -> Forall isNat e -> isDelim delim ->
  matchHier (rewritten e delim restRaw) = Some (joinPath e, delim, norm restRaw).
Proof.
  intros Hne He Hdelim. unfold rewritten, joinPath.
  destruct e as [|x e]; [congruence|]. cbn [List.map]. rewrite join_dotTail.
  destruct (numToString_digitGroup x (Forall_inv He)) as [Hxne Hxd].
  destruct (numToString x) as [|d g0]; [congruence|].
  rewrite <- app_assoc. cbn [app].
  apply matchHier_build; auto.
  - exact (Forall_inv Hxd).
  - exact (Forall_inv_tail Hxd).
  - apply Forall_inv_tail in He. induction He; constructor; auto.
    now apply numToString_digitGroup.
  - apply headNotWs_norm.
  - apply (spaced_no_lineTerminator _ false), spaced_norm.
Qed.

(** What a matching paragraph gives on the first pass, and how the second
    pass reads what was written for it. *)
Lemma renumber_second_pass current p numberingStr delim restRaw :
  Forall isNat current ->
  matchHier p = Some (numberingStr, delim, restRaw) ->
  let e := expectedPath current (parsePath numberingStr) in
  length e = length (parsePath numberingStr) /\
  Forall isNat e /\
  matchHier (rewritten e delim restRaw) = Some (joinPath e, delim, norm restRaw) /\
  parsePath (joinPath e) = e /\
  expectedPath current e = e /\
  rewritten e delim (norm restRaw) = rewritten e delim restRaw.
Proof.
  intros Hc Hm e.
  pose proof (parsePath_nonempty numberingStr) as Hfne.
  destruct (matchHier_shape _ _ _ _ Hm) as (g & gs & -> & Hg & Hgs & Hdelim).
  destruct (parsePath_shape g gs Hg Hgs) as [_ Hf].
  assert (Hlen : length e = length (parsePath (g ++ dotTail gs)))
    by now apply expectedPath_length.
  assert (He : Forall isNat e) by now apply expectedPath_isNat.
  assert (Hene : e <> []).
  { intros E. rewrite E in Hlen. destruct (parsePath (g ++ dotTail gs));
      [congruence|discriminate]. }
  split; [exact Hlen|]. split; [exact He|].
  split; [now apply matchHier_rewritten|].
  split; [now apply parsePath_joinPath|].
  split; [now apply expectedPath_again|].
  unfold rewritten. now rewrite norm_idem.
Qed.





(** ** The examples of the specification, evaluated *)

Example renumber_same_level :
  renumberHierarchical [str "6.1 a"; str "6.2 b"; str "6.3 c"] =
    [str "6.1 a"; str "6.2 b"; str "6.3 c"] /\
  renumberHierarchical [str "6.1 a"; str "6.5 b"] = [str "6.1 a"; str "6.2 b"].
Proof. split; reflexivity. Qed.

Example renumber_back_up :
  renumberHierarchical
    [str "2.  Scope"; str "2.4) a"; str "2.4.7 b"; str "text"; str "9 c"] =
  [str "2. Scope"; str "2.1) a"; str "2.1.1 b"; str "text"; str "3 c"].
Proof. reflexivity. Qed.

Example renumber_line_break_passes :
  renumberHierarchical [str "1 a"; [49; 32; 97; 10; 98]] =
  [str "1 a"; [49; 32; 97; 10; 98]].
Proof. reflexivity. Qed.

Example checkNumbering_no_cascade :
  checkNumbering [str "1) a"; str "note"; str "2) b"; str "7) c"; str "8) d"] =
  [mkIssue 3 (Int 7) (Int 3) (str "7) c")].
Proof. reflexivity. Qed.

Example normalizeParagraphs_example :
  normalizeParagraphs [str "  a   b "; str "   "; [9; 99; 10]] =
  [str "a b"; str "c"].
Proof. reflexivity. Qed.

Example compare_example :
  compareParagraphSets asciiToLowerCase
    [str "Alpha"; str "Beta"; str "beta"] [str "ALPHA  "; str "Gamma"] =
  mkCompare [str "Beta"; str "beta"] [str "Gamma"].
Proof. reflexivity. Qed.

Example find_example :
  findParagraphByItemNumber [str "6.10 x"; str "6.1. y"] (str " 6.1 ") =
    mkSearchResult 1 (str "6.1. y") /\
  findParagraphByItemNumber [str "6.10 x"] (str "6.1") = mkSearchResult (-1) [].
Proof. split; reflexivity. Qed.

Example walk_mixed_lists :
  extractParagraphs
    (Element "div" []
       [Element "p" [] [TextNode (str " Title ")];
        Element "ol" [("start"%string, str "6")]
          [Element "li" []
             [TextNode (str "a");
              Element "ul" [] [Element "li" [] [TextNode (str "dot")]];
              Element "ol" [] [Element "li" [("value"%string, str "4")]
                                 [TextNode (str "b")];
                               Element "li" [] [TextNode (str "c")]]]]]) =
  [str "Title"; str "6 a"; str "6.4 b"; str "6.5 c"; str "dot"].
Proof. reflexivity. Qed.

(** * Further properties of the code *)

(** ** Blank entries *)

Lemma trimEnd_nil s : trimEnd s = [] <-> forallb isWs s = true.
Proof.
  induction s as [|c t IH]; cbn [trimEnd forallb]; [tauto|].
  rewrite andb_true_iff, <- IH.
  destruct (trimEnd t) as [|x y].
  - destruct (isWs c); split; try tauto; try discriminate.
    intros [H _]. discriminate.
  - split; [discriminate|]. intros [_ H]. discriminate.
Qed.

Lemma forallb_dropWhile_isWs s :
  forallb isWs (dropWhile isWs s) = forallb isWs s.
Proof.
  induction s as [|c t IH]; [reflexivity|]. cbn [dropWhile forallb].
  destruct (isWs c) eqn:Hc; [exact IH|]. cbn [forallb]. now rewrite Hc.
Qed.

Lemma forallb_collapseFrom s : forall b,
  forallb isWs (collapseFrom b s) = forallb isWs s.
Proof.
  induction s as [|c t IH]; intros b; [reflexivity|].
  cbn [collapseFrom forallb]. destruct (isWs c) eqn:Hc.
  - destruct b; cbn [forallb andb]; [apply IH|].
    change (isWs SPACE) with true. apply IH.
  - cbn [forallb]. now rewrite Hc.
Qed.

Lemma norm_nil s : norm s = [] <-> forallb isWs s = true.
Proof.
  unfold norm, trim, trimStart, replaceWs.
  now rewrite trimEnd_nil, forallb_dropWhile_isWs, forallb_collapseFrom.
Qed.

Lemma isEmpty_norm s : isEmpty (norm s) = forallb isWs s.
Proof.
  destruct (forallb isWs s) eqn:E.
  - apply norm_nil in E. now rewrite E.
  - destruct (norm s) eqn:En; [|reflexivity].
    apply norm_nil in En. congruence.
Qed.

(** X1. normalizeParagraphs drops exactly the entries made of white space
    only (the empty string among them) and maps every other entry to its
    normal form, so its length is the number of non-blank entries. *)
Theorem normalizeParagraphs_drops_blank :
  forall ps : list jsstring,
    normalizeParagraphs ps =
      List.map norm (List.filter (fun p => negb (forallb isWs p)) ps) /\
    length (normalizeParagraphs ps) =
      length (List.filter (fun p => negb (forallb isWs p)) ps).
Proof.
  intros ps.
  assert (H : normalizeParagraphs ps =
              List.map norm (List.filter (fun p => negb (forallb isWs p)) ps)).
  { unfold normalizeParagraphs.
    induction ps as [|p t IH]; [reflexivity|].
    cbn [List.map List.filter]. rewrite isEmpty_norm.
    destruct (forallb isWs p); cbn [negb List.map]; now rewrite IH. }
  split; [exact H|]. now rewrite H, length_map.
Qed.

(** ** checkNumbering: what is reported *)

Lemma checkNumbering_checkSpec ps : checkNumbering ps = checkSpec 0 1 ps.
Proof. unfold checkNumbering, forEach. now rewrite checkStep_loop. Qed.

Lemma flatNumber_nonneg p n : flatNumber p = Some n -> (0 <= n)%Z.
Proof.
  unfold flatNumber. destruct (matchFlat p) as [ds|] eqn:Hm; [|discriminate].
  cbn. intros [= <-]. destruct (matchFlat_digits _ _ Hm) as (d & ds' & -> & Hd).
  now apply digitsValueFrom_nonneg.
Qed.

Lemma checkSpec_clean ps : forall i c,
  checkSpec i c ps = [] <->
  flatNumbers ps = countFrom c (length (flatNumbers ps)).
Proof.
  induction ps as [|p t IH]; intros i c; cbn [checkSpec flatNumbers flat_map].
  - cbn. tauto.
  - fold (flatNumbers t). destruct (flatNumber p) as [n|]; cbn [app].
    + cbn [length countFrom]. destruct (decide (n = c)) as [->|Hne].
      * rewrite IH. split; [intros H; f_equal; exact H|intros [= H]; exact H].
      * split; [discriminate|intros [= H _]; contradiction].
    + apply IH.
Qed.

(** X2. checkNumbering reports nothing exactly when the numbers of the
    paragraphs that carry a flat marker are 1, 2, 3, ... in order; the
    paragraphs without a marker play no part. *)
Theorem checkNumbering_clean_iff :
  forall ps : list jsstring,
    checkNumbering ps = [] <->
    flatNumbers ps = countFrom 1 (length (flatNumbers ps)).
Proof.
  intros ps. rewrite checkNumbering_checkSpec. apply checkSpec_clean.
Qed.

Lemma checkSpec_issues ps : forall i c, (1 <= c)%Z ->
  Forall (fun iss =>
            (i <= index iss)%nat /\
            ps !! (index iss - i)%nat = Some (text iss) /\
            exists n e, found iss = Int n /\ expected iss = Int e /\
                        n <> e /\ (0 <= n)%Z /\ (1 <= e)%Z /\
                        flatNumber (text iss) = Some n)
         (checkSpec i c ps).
Proof.
  induction ps as [|p t IH]; intros i c Hc; cbn [checkSpec]; [constructor|].
  assert (Hshift : forall c', (1 <= c')%Z ->
    Forall (fun iss =>
              (i <= index iss)%nat /\
              (p :: t) !! (index iss - i)%nat = Some (text iss) /\
              exists n e, found iss = Int n /\ expected iss = Int e /\
                          n <> e /\ (0 <= n)%Z /\ (1 <= e)%Z /\
                          flatNumber (text iss) = Some n)
           (checkSpec (S i) c' t)).
  { intros c' Hc'. eapply List.Forall_impl; [|apply (IH (S i) c' Hc')].
    intros iss (Hi & Hl & H). split; [lia|]. split; [|exact H].
    replace (index iss - i)%nat with (S (index iss - S i)) by lia. exact Hl. }
  destruct (flatNumber p) as [n|] eqn:Hp; [|now apply Hshift].
  pose proof (flatNumber_nonneg _ _ Hp) as Hn.
  destruct (decide (n = c)) as [->|Hne]; [apply Hshift; lia|].
  constructor; [|apply Hshift; lia].
  cbn [index text found expected]. split; [lia|].
  split; [now rewrite Nat.sub_diag|].
  exists n, c. repeat split; auto.
Qed.

Lemma checkScan_issues ps : forall i c,
  Forall (fun iss =>
            (i <= index iss)%nat /\
            ps !! (index iss - i)%nat = Some (text iss) /\
            exists ds, matchFlat (text iss) = Some ds /\
                       found iss = parseInt ds /\
                       strictEq (found iss) (expected iss) = false)
         (checkScan i c ps).
Proof.
  induction ps as [|p t IH]; intros i c; cbn [checkScan]; [constructor|].
  assert (Hshift : forall c',
    Forall (fun iss =>
              (i <= index iss)%nat /\
              (p :: t) !! (index iss - i)%nat = Some (text iss) /\
              exists ds, matchFlat (text iss) = Some ds /\
                         found iss = parseInt ds /\
                         strictEq (found iss) (expected iss) = false)
           (checkScan (S i) c' t)).
  { intros c'. eapply List.Forall_impl; [|apply (IH (S i) c')].
    intros iss (Hi & Hl & H). split; [lia|]. split; [|exact H].
    replace (index iss - i)%nat with (S (index iss - S i)) by lia. exact Hl. }
  destruct (matchFlat p) as [ds|] eqn:Hp; [|apply Hshift].
  destruct (strictEq (parseInt ds) c) eqn:E; [apply Hshift|].
  constructor; [|apply Hshift].
  cbn [index text found expected]. split; [lia|].
  split; [now rewrite Nat.sub_diag|].
  exists ds. auto.
Qed.

Lemma checkScan_sorted ps : forall i c,
  StronglySorted lt (List.map index (checkScan i c ps)) /\
  Forall (fun k => (i <= k)%nat) (List.map index (checkScan i c ps)).
Proof.
  induction ps as [|p t IH]; intros i c; cbn [checkScan].
  - split; constructor.
  - assert (Hup : forall c',
      StronglySorted lt (List.map index (checkScan (S i) c' t)) /\
      Forall (fun k => (i <= k)%nat) (List.map index (checkScan (S i) c' t))).
    { intros c'. destruct (IH (S i) c') as [Hs Hf]. split; [exact Hs|].
      eapply List.Forall_impl; [|exact Hf]. intros k Hk. cbn in Hk. lia. }
    destruct (matchFlat p) as [ds|]; [|apply Hup].
    destruct (strictEq (parseInt ds) c); [apply Hup|].
    cbn [List.map index].
    destruct (IH (S i) (addInt (parseInt ds) 1)) as [Hs Hf]. split.
    + constructor; [exact Hs|]. eapply List.Forall_impl; [|exact Hf].
      intros k Hk. cbn in Hk. lia.
    + constructor; [lia|]. eapply List.Forall_impl; [|exact Hf].
      intros k Hk. cbn in Hk. lia.
Qed.

Lemma checkScan_length ps : forall i c,
  (length (checkScan i c ps) <=
   length (List.filter (fun p => bool_decide (matchFlat p <> None)) ps))%nat.
Proof.
  induction ps as [|p t IH]; intros i c; [cbn; lia|].
  cbn [checkScan List.filter].
  destruct (matchFlat p) as [ds|].
  - rewrite bool_decide_eq_true_2 by discriminate. cbn [length].
    destruct (strictEq (parseInt ds) c); cbn [length];
      [specialize (IH (S i) (addInt c 1))
      |specialize (IH (S i) (addInt (parseInt ds) 1))]; lia.
  - rewrite bool_decide_eq_false_2 by (intros H; now apply H). apply IH.
Qed.

(** X3. Every issue checkNumbering reports points at a paragraph of the
    input: its index is in range, its text is the paragraph at that index,
    that paragraph carries a flat marker, the number reported as found is
    what parseInt reads from the digits of the marker, and it is not the
    number expected.  The indices are strictly increasing, so a paragraph
    is reported at most once, and there are at most as many issues as
    paragraphs with a marker. *)
Theorem checkNumbering_issues_sound :
  forall ps : list jsstring,
    Forall (fun iss =>
              ps !! index iss = Some (text iss) /\
              (index iss < length ps)%nat /\
              exists ds, matchFlat (text iss) = Some ds /\
                         found iss = parseInt ds /\
                         strictEq (found iss) (expected iss) = false)
           (checkNumbering ps) /\
    StronglySorted lt (List.map index (checkNumbering ps)) /\
    (length (checkNumbering ps) <=
     length (List.filter (fun p => bool_decide (matchFlat p <> None)) ps))%nat.
Proof.
  intros ps. rewrite checkNumbering_checkScan. split; [|split].
  - eapply List.Forall_impl; [|apply (checkScan_issues ps 0%nat (Int 1))].
    intros iss (_ & Hl & H). rewrite Nat.sub_0_r in Hl.
    split; [exact Hl|]. split; [|exact H].
    apply lookup_lt_Some in Hl. exact Hl.
  - apply checkScan_sorted.
  - apply checkScan_length.
Qed.

(** ** compareParagraphSets: sets, not sequences *)

Lemma compareParagraphSets_filters toLowerCase reference target :
  compareParagraphSets toLowerCase reference target =
  mkCompare
    (List.filter
       (fun p => bool_decide (normKey toLowerCase p ∉
                              List.map (normKey toLowerCase) target)) reference)
    (List.filter
       (fun p => bool_decide (normKey toLowerCase p ∉
                              List.map (normKey toLowerCase) reference)) target).
Proof. unfold compareParagraphSets. now rewrite !absent_filter. Qed.

(** X4. Only the set of normalised target paragraphs matters to what is
    missing: two targets with the same normalised paragraphs, in any order
    and with any repetition, give the same [missingInTarget]; and likewise
    for the reference and [extraInTarget]. *)
Theorem compareParagraphSets_same_keys :
  forall (toLowerCase : jsstring -> jsstring) (reference t1 t2 : list jsstring),
    (forall k : jsstring, k ∈ List.map (normKey toLowerCase) t1 <->
                          k ∈ List.map (normKey toLowerCase) t2) ->
    missingInTarget (compareParagraphSets toLowerCase reference t1) =
      missingInTarget (compareParagraphSets toLowerCase reference t2) /\
    extraInTarget (compareParagraphSets toLowerCase t1 reference) =
      extraInTarget (compareParagraphSets toLowerCase t2 reference).
Proof.
  intros toLowerCase reference t1 t2 H.
  rewrite !compareParagraphSets_filters. cbn [missingInTarget extraInTarget].
  split; apply filter_ext; intros p; apply bool_decide_ext; now rewrite H.
Qed.

Lemma compareParagraphSets_same_keys_witness :
  missingInTarget
    (compareParagraphSets asciiToLowerCase [str "a"; str "c"] [str "a"; str "b"]) =
  missingInTarget
    (compareParagraphSets asciiToLowerCase [str "a"; str "c"]
       [str "B"; str " a "; str "b"]).
Proof.
  apply (compareParagraphSets_same_keys asciiToLowerCase [str "a"; str "c"]
           [str "a"; str "b"] [str "B"; str " a "; str "b"]).
  intros k. change (List.map (normKey asciiToLowerCase) [str "a"; str "b"])
    with [str "a"; str "b"].
  change (List.map (normKey asciiToLowerCase) [str "B"; str " a "; str "b"])
    with [str "b"; str "a"; str "b"].
  rewrite !elem_of_cons, !elem_of_nil. tauto.
Defined.

Lemma filter_nil_iff {A : Type} (f : A -> bool) l :
  List.filter f l = [] <-> forall x, In x l -> f x = false.
Proof.
  induction l as [|x l IH]; cbn [List.filter].
  - split; [intros _ x []|reflexivity].
  - destruct (f x) eqn:Hx.
    + split; [discriminate|]. intros H. specialize (H x (or_introl eq_refl)). congruence.
    + rewrite IH. split.
      * intros H y [<-|Hy]; auto.
      * intros H y Hy. apply H. now right.
Qed.

(** X5. A paragraph is reported missing exactly when it is a reference
    paragraph whose normalised form is the normalised form of no target
    paragraph; nothing is missing exactly when every reference paragraph
    has its normalised form in the target; against an empty target the
    whole reference is missing and nothing is extra. *)
Theorem compareParagraphSets_missing :
  forall (toLowerCase : jsstring -> jsstring) (reference target : list jsstring),
    (forall p, p ∈ missingInTarget (compareParagraphSets toLowerCase reference target) <->
               p ∈ reference /\
               normKey toLowerCase p ∉ List.map (normKey toLowerCase) target) /\
    (missingInTarget (compareParagraphSets toLowerCase reference target) = [] <->
     forall p, p ∈ reference ->
               normKey toLowerCase p ∈ List.map (normKey toLowerCase) target) /\
    compareParagraphSets toLowerCase reference [] = mkCompare reference [].
Proof.
  intros toLowerCase reference target.
  rewrite !compareParagraphSets_filters. cbn [missingInTarget].
  split; [|split].
  - intros p. rewrite !(list_elem_of_In _ p), filter_In, bool_decide_eq_true.
    reflexivity.
  - rewrite filter_nil_iff. split.
    + intros H p Hp. apply list_elem_of_In in Hp. specialize (H p Hp).
      apply bool_decide_eq_false in H.
      destruct (decide (normKey toLowerCase p ∈
                        List.map (normKey toLowerCase) target)); tauto.
    + intros H p Hp. apply bool_decide_eq_false. intros Hn. apply Hn, H.
      now apply list_elem_of_In.
  - cbn [List.map List.filter]. f_equal.
    rewrite (filter_ext _ (fun _ => true)).
    + clear. induction reference as [|x l IH]; cbn; [reflexivity|now rewrite IH].
    + intros p. apply bool_decide_eq_true. apply not_elem_of_nil.
Qed.

(** ** The walk emits normalised paragraphs *)

Lemma norm_fixed s :
  spaced false s = true -> headNotWs s = true -> trimEnd s = s -> norm s = s.
Proof.
  intros Hs Hh Ht. unfold norm, trim, replaceWs.
  rewrite (spaced_collapseFrom _ false Hs), (headNotWs_trimStart _ Hh). exact Ht.
Qed.

Lemma norm_fixed_inv s :
  norm s = s -> spaced false s = true /\ headNotWs s = true /\ trimEnd s = s.
Proof.
  intros H. split; [|split].
  - rewrite <- H. apply spaced_norm.
  - rewrite <- H. apply headNotWs_norm.
  - rewrite <- H at 1. unfold norm, trim. rewrite trimEnd_idem. exact H.
Qed.

Lemma spaced_nows_head c t b : isWs c = false -> spaced b (c :: t) = spaced false t.
Proof. intros H. cbn [spaced]. now rewrite H. Qed.

Lemma spaced_app_nows a r :
  Forall (fun c => isWs c = false) a -> spaced false (a ++ r) = spaced false r.
Proof.
  induction 1 as [|c a Hc Ha IH]; [reflexivity|].
  cbn [app]. now rewrite spaced_nows_head.
Qed.

Lemma trimEnd_app u t : trimEnd t <> [] -> trimEnd (u ++ t) = u ++ trimEnd t.
Proof.
  intros Ht. induction u as [|c u IH]; [reflexivity|].
  cbn [app trimEnd]. rewrite IH.
  destruct (u ++ trimEnd t) as [|x y] eqn:E; [|reflexivity].
  apply app_eq_nil in E as [_ E]. contradiction.
Qed.

Lemma goodParagraph_numbered a t :
  Forall (fun c => isWs c = false) a -> a <> [] -> goodParagraph t ->
  goodParagraph (a ++ [SPACE] ++ t).
Proof.
  intros Ha Hne [Htne Ht].
  destruct (norm_fixed_inv _ Ht) as (Hs & Hh & He).
  split; [destruct a; [congruence|discriminate]|].
  apply norm_fixed.
  - rewrite spaced_app_nows by exact Ha. cbn [app spaced].
    change (isWs SPACE) with true. cbn [negb andb]. rewrite N.eqb_refl. cbn [andb].
    destruct t as [|c t']; [congruence|].
    cbn in Hh. apply negb_true_iff in Hh.
    rewrite spaced_nows_head in Hs |- * by exact Hh. exact Hs.
  - destruct a as [|c a]; [congruence|]. cbn. now rewrite (Forall_inv Ha).
  - rewrite trimEnd_app.
    + f_equal. cbn [app trimEnd]. rewrite He.
      destruct t; [congruence|reflexivity].
    + cbn [app trimEnd]. rewrite He. destruct t; [congruence|discriminate].
Qed.

Lemma numToString_nows x : Forall (fun c => isWs c = false) (numToString x).
Proof.
  assert (Hd : forall n, Forall (fun c => isWs c = false) (natToString n)).
  { intros n. eapply List.Forall_impl; [|apply unitsOfUint_digits].
    intros c. apply digit_not_ws. }
  destruct x as [|z]; cbn [numToString].
  - repeat constructor.
  - destruct (z <? 0)%Z; [constructor; [reflexivity|]|]; apply Hd.
Qed.

Lemma numToString_nonempty x : numToString x <> [].
Proof.
  destruct x as [|z]; cbn [numToString]; [discriminate|].
  destruct (z <? 0)%Z; [discriminate|apply natToString_nonempty].
Qed.

Lemma joinPath_nows path : Forall (fun c => isWs c = false) (joinPath path).
Proof.
  unfold joinPath. destruct path as [|x path]; [constructor|].
  cbn [List.map]. rewrite join_dotTail. apply List.Forall_app. split.
  - apply numToString_nows.
  - unfold dotTail. apply Forall_flat_map, List.Forall_map.
    apply List.Forall_forall. intros y _.
    constructor; [reflexivity|apply numToString_nows].
Qed.

Lemma joinPath_nonempty path : path <> [] -> joinPath path <> [].
Proof.
  unfold joinPath. destruct path as [|x path]; [congruence|]. intros _.
  cbn [List.map]. rewrite join_dotTail. pose proof (numToString_nonempty x).
  destruct (numToString x); [congruence|discriminate].
Qed.

Lemma pushIf_norm_good s : Forall goodParagraph (pushIf (norm s) (norm s)).
Proof.
  unfold pushIf. destruct (norm s) eqn:E; cbn [isEmpty]; [constructor|].
  rewrite <- E. constructor; [|constructor].
  split; [rewrite E; discriminate|apply norm_idem].
Qed.

Lemma pushIf_numbered_good path s :
  path <> [] ->
  Forall goodParagraph (pushIf (norm s) (joinPath path ++ [SPACE] ++ norm s)).
Proof.
  intros Hp. unfold pushIf. destruct (norm s) eqn:E; cbn [isEmpty]; [constructor|].
  rewrite <- E. constructor; [|constructor].
  apply goodParagraph_numbered.
  - apply joinPath_nows.
  - now apply joinPath_nonempty.
  - split; [rewrite E; discriminate|apply norm_idem].
Qed.

Lemma bulletParagraphs_good li : Forall goodParagraph (bulletParagraphs li).
Proof.
  unfold bulletParagraphs. apply Forall_flat_map, List.Forall_forall. intros ul _.
  apply Forall_flat_map, List.Forall_forall. intros subLi _.
  apply pushIf_norm_good.
Qed.

Lemma size_child k tag attrs kids :
  In k kids -> (size k < size (Element tag attrs kids))%nat.
Proof.
  cbn [size]. induction kids as [|x kids IH]; intros []; simpl.
  - subst. lia.
  - specialize (IH H). lia.
Qed.

Lemma processOl_good n : forall ol stack, (size ol <= n)%nat ->
  Forall goodParagraph (processOl ol stack).
Proof.
  induction n as [|n IH]; intros ol stack Hsize.
  - destruct ol; cbn in Hsize; lia.
  - destruct ol as [d|tag attrs kids]; [constructor|].
    cbn [processOl].
    assert (Hk : forall k, In k kids -> (size k <= n)%nat).
    { intros k Hk. pose proof (size_child k tag attrs kids Hk). lia. }
    clear Hsize. generalize (addInt (attrOr (getAttribute "start" attrs) (Int 1)) (-1)).
    induction kids as [|li more IHk]; intros counter; [constructor|].
    cbn [processItems].
    assert (Hmore : forall c, Forall goodParagraph (processItems processOl stack more c)).
    { apply IHk. intros k Hin. apply Hk. now right. }
    destruct li as [d|ltag liAttrs liKids]; [apply Hmore|].
    destruct (negb (String.eqb ltag "li")); [apply Hmore|].
    repeat (apply List.Forall_app; split).
    + unfold liMainText. apply pushIf_numbered_good.
      destruct stack; discriminate.
    + apply Forall_flat_map, List.Forall_forall. intros c Hc.
      destruct (hasTag "ol" c); [|constructor].
      apply IH. specialize (Hk _ (or_introl eq_refl)).
      pose proof (size_child c ltag liAttrs liKids Hc). lia.
    + apply bulletParagraphs_good.
    + apply Hmore.
Qed.

Lemma walk_good n : forall root, (size root <= n)%nat ->
  Forall goodParagraph (walk root).
Proof.
  induction n as [|n IH]; intros root Hsize.
  - destruct root; cbn in Hsize; lia.
  - destruct root as [d|rtag rattrs rootKids]; [constructor|].
    cbn [walk]. apply Forall_flat_map, List.Forall_forall. intros el Hel.
    pose proof (size_child el rtag rattrs rootKids Hel) as Hels.
    destruct el as [d|tag attrs kids]; [constructor|].
    destruct (String.eqb tag "p"); [apply pushIf_norm_good|].
    destruct (String.eqb tag "ol"); [apply (processOl_good _ _ _ (le_n _))|].
    destruct (String.eqb tag "ul"); [|apply IH; lia].
    apply Forall_flat_map, List.Forall_forall. intros li Hli.
    pose proof (size_child li tag attrs kids Hli) as Hlis.
    destruct li as [d|liTag liAttrs liKids]; [constructor|].
    destruct (negb (String.eqb liTag "li")); [constructor|].
    repeat (apply List.Forall_app; split).
    + apply pushIf_norm_good.
    + apply Forall_flat_map, List.Forall_forall. intros c _.
      destruct (hasTag "ol" c); [|constructor].
      apply (processOl_good _ _ _ (le_n _)).
    + apply Forall_flat_map, List.Forall_forall. intros c Hc.
      destruct (hasTag "ul" c); [|constructor].
      apply IH. pose proof (size_child c liTag liAttrs liKids Hc). lia.
Qed.

Lemma normalizeParagraphs_fixed l :
  Forall goodParagraph l -> normalizeParagraphs l = l.
Proof.
  unfold normalizeParagraphs.
  induction 1 as [|p l [Hne Hp] Hl IH]; [reflexivity|].
  cbn [List.map List.filter]. rewrite Hp.
  destruct p; [congruence|]. cbn [isEmpty negb]. now rewrite IH.
Qed.

(** X6. Every paragraph that extractParagraphsFromHtml emits, in either
    listing, is non-empty and already normalised (the numbering put before
    a list item included), whatever the tree and its attributes; so the
    normalizeParagraphs call that follows it in the workbench returns the
    extracted list as it is. *)
Theorem extractParagraphs_normalised :
  forall container : Node,
    Forall goodParagraph (extractParagraphs container) /\
    normalizeParagraphs (extractParagraphs container) = extractParagraphs container /\
    Forall goodParagraph (extractParagraphs_selector container) /\
    normalizeParagraphs (extractParagraphs_selector container) =
      extractParagraphs_selector container.
Proof.
  intros container.
  assert (H1 : Forall goodParagraph (extractParagraphs container))
    by apply (walk_good _ _ (le_n _)).
  assert (H2 : Forall goodParagraph (extractParagraphs_selector container)).
  { unfold extractParagraphs_selector.
    apply Forall_flat_map, List.Forall_forall. intros el _. apply pushIf_norm_good. }
  repeat split; auto using normalizeParagraphs_fixed.
Qed.

(** ** The two listings of extractParagraphsFromHtml *)

Lemma flat_map_filter_flat_map {A B C : Type} (g : B -> list C) (f : B -> bool)
    (h : A -> list B) l :
  flat_map g (List.filter f (flat_map h l)) =
  flat_map (fun a => flat_map g (List.filter f (h a))) l.
Proof.
  induction l as [|a l IH]; [reflexivity|].
  cbn [flat_map]. now rewrite List.filter_app, flat_map_app, IH.
Qed.

Lemma flat_map_ext_Forall {A B : Type} (f g : A -> list B) l :
  Forall (fun a => f a = g a) l -> flat_map f l = flat_map g l.
Proof.
  induction 1 as [|a l Ha Hl IH]; [reflexivity|]. cbn [flat_map]. now rewrite Ha, IH.
Qed.

Lemma walk_selector_agree n : forall c, (size c <= n)%nat -> listFree c ->
  walk c = extractParagraphs_selector c.
Proof.
  induction n as [|n IH]; intros c Hsize Hfree.
  - destruct c; cbn in Hsize; lia.
  - destruct c as [d|ctag cattrs kids]; [reflexivity|].
    unfold extractParagraphs_selector, selectParagraphs.
    cbn [walk descendants]. rewrite flat_map_filter_flat_map.
    apply flat_map_ext_Forall, List.Forall_forall. intros k Hk.
    pose proof (size_child k ctag cattrs kids Hk) as Hks.
    destruct k as [d|tag attrs kk]; [reflexivity|].
    assert (Hsub : Forall (fun el => isListElement el = false /\
                             hasTag "li" el = false /\
                             (hasTag "p" el = true -> selectParagraphs el = []))
                     (Element tag attrs kk :: descendants (Element tag attrs kk))).
    { unfold listFree in Hfree. cbn [descendants] in Hfree.
      rewrite Forall_flat_map, List.Forall_forall in Hfree.
      exact (Hfree _ Hk). }
    pose proof (Forall_inv Hsub) as (Hlist & Hli & Hp).
    apply Forall_inv_tail in Hsub.
    unfold isListElement in Hlist. cbn [hasTag] in Hlist, Hli, Hp.
    apply orb_false_elim in Hlist as [Hol Hul].
    cbn [List.filter hasTag]. rewrite Hli, orb_false_r.
    destruct (String.eqb tag "p") eqn:Etag.
    + cbn [flat_map]. specialize (Hp eq_refl).
      unfold selectParagraphs in Hp. rewrite Hp. cbn [flat_map].
      now rewrite app_nil_r.
    + rewrite Hol, Hul. apply IH; [lia|exact Hsub].
Qed.

(** X7. On a tree without list markup (no list or list item below the
    root, no paragraph element inside another) the two listings of
    extractParagraphsFromHtml return the same paragraphs: the recursive
    walk and the selector over all paragraph and list-item elements
    differ only on lists. *)
Theorem extractParagraphs_listings_agree :
  forall container : Node,
    listFree container ->
    extractParagraphs container = extractParagraphs_selector container.
Proof.
  intros container H. now apply (walk_selector_agree _ _ (le_n _)).
Qed.

Lemma extractParagraphs_listings_agree_witness :
  extractParagraphs
    (Element "div" []
       [Element "p" [] [TextNode (str "a")];
        Element "div" [] [Element "p" [] [Element "b" [] [TextNode (str " b ")]]]]) =
  extractParagraphs_selector
    (Element "div" []
       [Element "p" [] [TextNode (str "a")];
        Element "div" [] [Element "p" [] [Element "b" [] [TextNode (str " b ")]]]]).
Proof.
  apply extractParagraphs_listings_agree.
  unfold listFree. cbn [descendants flat_map app].
  repeat constructor; cbn; congruence.
Defined.

(** ** escapeHtml and buildHtmlFromParagraphs *)

Lemma replaceAllUnit_app c r a b :
  replaceAllUnit c r (a ++ b) = replaceAllUnit c r a ++ replaceAllUnit c r b.
Proof. apply flat_map_app. Qed.

Lemma escapeHtml_app a b : escapeHtml (a ++ b) = escapeHtml a ++ escapeHtml b.
Proof. unfold escapeHtml. now rewrite !replaceAllUnit_app. Qed.

Ltac split_unit u :=
  destruct (N.eqb_spec u AMP) as [->|?];
    [|destruct (N.eqb_spec u LT) as [->|?];
      [|destruct (N.eqb_spec u GT) as [->|?];
        [|destruct (N.eqb_spec u QUOT) as [->|?];
          [|destruct (N.eqb_spec u APOS) as [->|?]]]]].

Lemma escapeHtml_unit u : escapeHtml [u] = escapeUnit u.
Proof.
  unfold escapeHtml, escapeUnit, replaceAllUnit.
  split_unit u; try reflexivity.
  repeat (cbn [flat_map app]; rewrite (proj2 (N.eqb_neq u _)) by assumption).
  reflexivity.
Qed.

Lemma escapeHtml_single_pass s : escapeHtml s = flat_map escapeUnit s.
Proof.
  induction s as [|u t IH]; [reflexivity|].
  change (u :: t) with ([u] ++ t).
  rewrite escapeHtml_app, escapeHtml_unit, IH. reflexivity.
Qed.

Lemma escapeUnit_safe u :
  Forall (fun c => c <> LT /\ c <> GT /\ c <> QUOT /\ c <> APOS) (escapeUnit u).
Proof.
  unfold escapeUnit. split_unit u; try (repeat constructor; discriminate).
  repeat constructor; assumption.
Qed.

Lemma escapeUnit_plain u : htmlSpecial u = false -> escapeUnit u = [u].
Proof.
  unfold htmlSpecial, escapeUnit. intros H.
  repeat (apply orb_false_elim in H as [H ?]).
  now repeat match goal with E : (_ =? _) = false |- _ => rewrite E; clear E end.
Qed.

(** X8. escapeHtml, five replacements applied one after the other, is the
    single pass that replaces each of the five special characters by its
    entity: the ampersands of the entities are not escaped again.  Its
    output holds no less-than, greater-than or quote character, it
    distributes over concatenation, and it leaves a text without the five
    characters unchanged. *)
Theorem escapeHtml_single_pass_safe :
  (forall s, escapeHtml s = flat_map escapeUnit s) /\
  (forall s, Forall (fun c => c <> LT /\ c <> GT /\ c <> QUOT /\ c <> APOS)
                    (escapeHtml s)) /\
  (forall a b, escapeHtml (a ++ b) = escapeHtml a ++ escapeHtml b) /\
  (forall s, forallb (fun u => negb (htmlSpecial u)) s = true -> escapeHtml s = s).
Proof.
  split; [exact escapeHtml_single_pass|]. split; [|split; [exact escapeHtml_app|]].
  - intros s. rewrite escapeHtml_single_pass.
    apply Forall_flat_map, List.Forall_forall. intros u _. apply escapeUnit_safe.
  - intros s H. rewrite escapeHtml_single_pass.
    induction s as [|u t IH]; [reflexivity|].
    cbn [forallb] in H. apply andb_prop in H as [Hu Ht].
    apply negb_true_iff in Hu. cbn [flat_map].
    now rewrite (escapeUnit_plain _ Hu), IH.
Qed.

Lemma escapeHtml_single_pass_safe_witness :
  escapeHtml (str "6.1 Scope") = str "6.1 Scope".
Proof.
  destruct escapeHtml_single_pass_safe as (_ & _ & _ & H).
  apply H. reflexivity.
Defined.

Lemma escapeUnit_prefix_inj u v a b :
  escapeUnit u ++ a = escapeUnit v ++ b -> u = v /\ a = b.
Proof.
  unfold escapeUnit.
  split_unit u; split_unit v; cbn [app str List.map list_ascii_of_string];
    intros H; try (injection H; intros; subst; split; reflexivity);
    try (exfalso; injection H; intros; subst; discriminate);
    exfalso; injection H; intros; subst;
    match goal with n : _ <> _ |- _ => apply n; reflexivity end.
Qed.

Lemma escapeHtml_inj a : forall b, escapeHtml a = escapeHtml b -> a = b.
Proof.
  setoid_rewrite escapeHtml_single_pass.
  induction a as [|u a IH]; intros [|v b] H; cbn [flat_map] in H.
  - reflexivity.
  - exfalso. pose proof (escapeUnit_safe v) as Hs. unfold escapeUnit in H.
    split_unit v; discriminate.
  - exfalso. unfold escapeUnit in H. split_unit u; discriminate.
  - apply escapeUnit_prefix_inj in H as [-> H]. f_equal. now apply IH.
Qed.

(** X9. escapeHtml loses nothing: two texts with the same escaped form are
    the same text. *)
Theorem escapeHtml_injective :
  forall a b : jsstring, escapeHtml a = escapeHtml b -> a = b.
Proof. intros a b. apply escapeHtml_inj. Qed.

Lemma escapeHtml_injective_witness : str "a < b & c" = str "a < b & c".
Proof. apply escapeHtml_injective. reflexivity. Defined.

Lemma split_at_first_LT x : forall y r1 r2,
  Forall (fun c => c <> LT) x -> Forall (fun c => c <> LT) y ->
  x ++ LT :: r1 = y ++ LT :: r2 -> x = y /\ r1 = r2.
Proof.
  induction x as [|c x IH]; intros [|d y] r1 r2 Hx Hy H; cbn [app] in H.
  - injection H as ->. now split.
  - injection H as <- _. exfalso. now apply (Forall_inv Hy).
  - injection H as -> _. exfalso. now apply (Forall_inv Hx).
  - injection H as -> H.
    destruct (IH y r1 r2 (Forall_inv_tail Hx) (Forall_inv_tail Hy) H) as [-> ->].
    now split.
Qed.

Lemma escapeHtml_no_LT s : Forall (fun c => c <> LT) (escapeHtml s).
Proof.
  rewrite escapeHtml_single_pass.
  apply Forall_flat_map, List.Forall_forall. intros u _.
  eapply List.Forall_impl; [|apply escapeUnit_safe]. intros c H. apply H.
Qed.

Lemma htmlBody_cons p t :
  htmlBody (p :: t) =
  pOpen ++ escapeHtml p ++ pClose
  ++ match t with [] => [] | _ :: _ => NL :: htmlBody t end.
Proof.
  unfold htmlBody. destruct t as [|q t].
  - cbn [List.map join]. unfold htmlParagraph. now rewrite ?app_nil_r, <- ?app_assoc.
  - change (join [NL] (List.map htmlParagraph (p :: q :: t)))
      with (htmlParagraph p ++ [NL] ++ join [NL] (List.map htmlParagraph (q :: t))).
    unfold htmlParagraph at 1. now rewrite <- ?app_assoc.
Qed.

Lemma htmlBody_inj ps1 : forall ps2, htmlBody ps1 = htmlBody ps2 -> ps1 = ps2.
Proof.
  induction ps1 as [|p1 t1 IH]; intros [|p2 t2] H.
  - reflexivity.
  - rewrite htmlBody_cons in H. discriminate.
  - rewrite htmlBody_cons in H. discriminate.
  - rewrite !htmlBody_cons in H. apply app_inv_head in H.
    apply split_at_first_LT in H as [Hp Hr]; try apply escapeHtml_no_LT.
    apply escapeHtml_inj in Hp. subst p2. f_equal.
    cbn [app] in Hr. apply (app_inv_head (str "/p>")) in Hr.
    destruct t1 as [|q1 t1], t2 as [|q2 t2]; try discriminate; [reflexivity|].
    injection Hr as Hr. now apply IH.
Qed.

(** X10. The document buildHtmlFromParagraphs builds determines the
    paragraphs it was built from: two lists with the same document are the
    same list, whatever characters the paragraphs hold. *)
Theorem buildHtmlFromParagraphs_injective :
  forall ps1 ps2 : list jsstring,
    buildHtmlFromParagraphs ps1 = buildHtmlFromParagraphs ps2 -> ps1 = ps2.
Proof.
  intros ps1 ps2 H. unfold buildHtmlFromParagraphs in H.
  apply app_inv_head, app_inv_tail in H. now apply htmlBody_inj.
Qed.

Lemma buildHtmlFromParagraphs_injective_witness :
  [str "</p><p>"; str "b"] = [str "</p><p>"; str "b"].
Proof. apply buildHtmlFromParagraphs_injective. reflexivity. Defined.

(** ** renumberHierarchical: what is written *)

Lemma renumberFrom_lookup_matched ps : forall current (i : nat) p n d r,
  Forall isNat current ->
  ps !! i = Some p -> matchHier p = Some (n, d, r) ->
  exists e, renumberFrom current ps !! i = Some (rewritten e d r) /\
            Forall isNat e /\ length e = length (parsePath n).
Proof.
  induction ps as [|q t IH]; intros current i p n d r Hc Hi Hm; [discriminate|].
  cbn [renumberFrom]. destruct i as [|i].
  - injection Hi as ->. rewrite Hm.
    destruct (renumber_second_pass current p n d r Hc Hm) as (Hl & He & _).
    eexists. split; [reflexivity|]. split; assumption.
  - cbn in Hi. destruct (matchHier q) as [[[n' d'] r']|] eqn:Hq.
    + destruct (renumber_second_pass current q n' d' r' Hc Hq) as (_ & He & _).
      cbn. now apply (IH _ i p n d r He).
    + cbn. now apply (IH _ i p n d r Hc).
Qed.

(** X11. As long as every number of the input has at most 15 digits, what
    renumberHierarchical writes for a numbered paragraph is a dotted path
    of natural numbers (never NaN) with the depth of the path read, then
    the delimiter read, one space and the normalised rest; and what is
    written is again a numbered paragraph, with that path, that delimiter
    and that rest. *)
Theorem renumberHierarchical_written :
  forall (ps : list jsstring) (i : nat) p n d r,
    shortNumbers ps ->
    ps !! i = Some p -> matchHier p = Some (n, d, r) ->
    exists e,
      renumberHierarchical ps !! i = Some (joinPath e ++ d ++ [SPACE] ++ norm r) /\
      Forall isNat e /\ length e = length (parsePath n) /\
      matchHier (joinPath e ++ d ++ [SPACE] ++ norm r) =
        Some (joinPath e, d, norm r) /\
      parsePath (joinPath e) = e.
Proof.
  intros ps i p n d r _ Hi Hm. rewrite renumberHierarchical_from.
  destruct (renumberFrom_lookup_matched ps [] i p n d r (List.Forall_nil _) Hi Hm)
    as (e & Ho & He & Hl).
  exists e. split; [exact Ho|]. split; [exact He|]. split; [exact Hl|].
  assert (Hne : e <> []).
  { intros E. rewrite E in Hl. pose proof (parsePath_nonempty n).
    destruct (parsePath n); [congruence|discriminate]. }
  destruct (matchHier_shape _ _ _ _ Hm) as (_ & _ & _ & _ & _ & Hd).
  split; [now apply matchHier_rewritten|now apply parsePath_joinPath].
Qed.

Lemma renumberHierarchical_written_witness :
  exists e,
    renumberHierarchical [str "3) a"; str "7.2.  b   c"] !! 1%nat =
      Some (joinPath e ++ [DOT] ++ [SPACE] ++ norm (str "b   c")) /\
    Forall isNat e /\ length e = length (parsePath (str "7.2")) /\
    matchHier (joinPath e ++ [DOT] ++ [SPACE] ++ norm (str "b   c")) =
      Some (joinPath e, [DOT], norm (str "b   c")) /\
    parsePath (joinPath e) = e.
Proof.
  apply (renumberHierarchical_written [str "3) a"; str "7.2.  b   c"] 1%nat
           (str "7.2.  b   c") (str "7.2") [DOT] (str "b   c"));
    [repeat constructor; unfold shortDigits; cbn; lia|reflexivity|reflexivity].
Defined.

(** ** Flat numbered lists *)

Lemma matchHier_depth1 p n d r :
  matchHier p = Some (n, d, r) -> length (parsePath n) = 1%nat ->
  digitGroup n /\ parsePath n = [Int (digitsValue n)] /\ (0 <= digitsValue n)%Z.
Proof.
  intros Hm Hl.
  destruct (matchHier_shape _ _ _ _ Hm) as (g & gs & -> & Hg & Hgs & _).
  destruct (parsePath_shape g gs Hg Hgs) as [Hp _].
  rewrite Hp in Hl. cbn in Hl. destruct gs; [|discriminate].
  cbn [dotTail flat_map] in *. rewrite app_nil_r in *.
  split; [exact Hg|]. split.
  - rewrite Hp. cbn [List.map]. now rewrite (parseInt_digitGroup _ Hg).
  - apply digitsValueFrom_nonneg; [apply Hg|lia].
Qed.

Lemma renumberFrom_flat ps :
  flatDoc ps ->
  renumberFrom [] ps = renumberFlat None ps /\
  forall k, renumberFrom [Int k] ps = renumberFlat (Some (k + 1)%Z) ps.
Proof.
  induction 1 as [|p t Hp Ht [IH0 IHk]]; [now split|].
  cbn [renumberFrom renumberFlat].
  destruct (matchHier p) as [[[n d] r]|] eqn:Hm.
  - destruct (matchHier_depth1 _ _ _ _ Hm Hp) as (_ & Hpath & _).
    rewrite Hpath. split.
    + cbn [expectedPath length Nat.eqb]. now rewrite IHk.
    + intros k. change (expectedPath [Int k] [Int (digitsValue n)])
        with [Int (k + 1)]. now rewrite IHk.
  - split; [now rewrite IH0|]. intros k. now rewrite IHk.
Qed.

(** X12. On a flat numbered list (every numbered paragraph carries a
    single number) whose numbers have at most 15 digits,
    renumberHierarchical keeps the number of the first numbered paragraph
    and numbers the following ones consecutively from it, whatever numbers
    they carried. *)
Theorem renumberHierarchical_flat :
  forall ps : list jsstring,
    flatDoc ps -> shortNumbers ps ->
    renumberHierarchical ps = renumberFlat None ps.
Proof.
  intros ps H _. rewrite renumberHierarchical_from. now apply renumberFrom_flat.
Qed.

Lemma renumberHierarchical_flat_witness :
  renumberHierarchical [str "4. a"; str "note"; str "9) b"; str "2 c"] =
  [str "4. a"; str "note"; str "5) b"; str "6 c"].
Proof.
  rewrite renumberHierarchical_flat; [reflexivity| |].
  - repeat constructor.
  - repeat constructor; unfold shortDigits; cbn; lia.
Defined.

Lemma flatNumber_of_hier p n d r :
  matchHier p = Some (n, d, r) -> length (parsePath n) = 1%nat -> d <> [] ->
  flatNumber p = Some (digitsValue n).
Proof.
  intros Hm Hl Hd.
  destruct (matchHier_depth1 _ _ _ _ Hm Hl) as ([Hne Hdig] & _ & _).
  apply flatNumber_spec. unfold matchHier in Hm.
  pose proof (takeWhile_dropWhile isWs p) as Hp.
  destruct (dropWhile isWs p) as [|c t]; [discriminate|].
  destruct (isDigit c); [|discriminate].
  destruct (numTail t) as [m r0] eqn:Ht.
  destruct (numTail_shape _ t (le_n _) m r0 Ht) as [-> _].
  destruct r0 as [|x r']; [discriminate|].
  destruct ((x =? DOT) || (x =? RPAREN)) eqn:Hx.
  - destruct r' as [|w r'']; [discriminate|].
    destruct (isWs w) eqn:Hw; [|discriminate].
    destruct (existsb isLineTerminator (dropWhile isWs (w :: r''))); [discriminate|].
    injection Hm as <- <- <-.
    exists (takeWhile isWs p), (c :: m), x, w, r''.
    split; [symmetry; exact Hp|]. split; [apply takeWhile_Forall|].
    split; [discriminate|]. split; [exact Hdig|].
    split; [|now split].
    apply orb_prop in Hx as [Hx|Hx]; apply N.eqb_eq in Hx; auto.
  - destruct (isWs x); [|discriminate].
    destruct (existsb isLineTerminator (dropWhile isWs (x :: r'))); [discriminate|].
    injection Hm as <- <- <-. congruence.
Qed.

Lemma flatNumber_rewritten k d r :
  (0 <= k)%Z -> isDelim d -> d <> [] ->
  flatNumber (rewritten [Int k] d r) = Some k.
Proof.
  intros Hk Hd Hne. apply flatNumber_spec.
  assert (Hs : joinPath [Int k] = natToString (Z.to_N k)).
  { unfold joinPath. cbn [List.map join].
    rewrite <- (Z2N.id k Hk) at 1. apply numToString_nat. }
  unfold rewritten. rewrite Hs.
  destruct Hd as [->|[->| ->]]; [congruence| |].
  - exists [], (natToString (Z.to_N k)), DOT, SPACE, (norm r).
    split; [reflexivity|]. split; [constructor|].
    split; [apply natToString_nonempty|]. split; [apply unitsOfUint_digits|].
    split; [now left|]. split; [reflexivity|].
    rewrite digitsValue_natToString. now rewrite Z2N.id.
  - exists [], (natToString (Z.to_N k)), RPAREN, SPACE, (norm r).
    split; [reflexivity|]. split; [constructor|].
    split; [apply natToString_nonempty|]. split; [apply unitsOfUint_digits|].
    split; [now right|]. split; [reflexivity|].
    rewrite digitsValue_natToString. now rewrite Z2N.id.
Qed.

Lemma length_countFrom n : forall c, length (countFrom c n) = n.
Proof. induction n as [|n IH]; intros c; cbn; [reflexivity|now rewrite IH]. Qed.

Lemma flatNumbers_renumberFlat_some ps : forall k,
  (0 <= k)%Z -> flatDelimited ps ->
  flatNumbers (renumberFlat (Some k) ps) = countFrom k (length (flatNumbers ps)).
Proof.
  induction ps as [|p t IH]; intros k Hk H; [reflexivity|].
  pose proof (Forall_inv H) as Hp. cbv beta in Hp. apply Forall_inv_tail in H.
  cbn [renumberFlat flatNumbers flat_map]. fold (flatNumbers t).
  destruct (matchHier p) as [[[n d] r]|] eqn:Hm.
  - destruct Hp as [Hl Hd].
    rewrite (flatNumber_of_hier _ _ _ _ Hm Hl Hd).
    destruct (matchHier_shape _ _ _ _ Hm) as (_ & _ & _ & _ & _ & Hdel).
    cbn [flat_map]. fold (flatNumbers (renumberFlat (Some (k + 1)%Z) t)).
    rewrite (flatNumber_rewritten k d r Hk Hdel Hd).
    cbn [app length countFrom]. f_equal. apply IH; [lia|exact H].
  - rewrite Hp. cbn [flat_map]. fold (flatNumbers (renumberFlat (Some k) t)).
    rewrite Hp. cbn [app]. now apply IH.
Qed.

Lemma flatNumbers_renumberFlat_none ps :
  flatDelimited ps ->
  flatNumbers (renumberFlat None ps) =
  match flatNumbers ps with
  | [] => []
  | f :: _ => countFrom f (length (flatNumbers ps))
  end.
Proof.
  induction 1 as [|p t Hp H IH]; [reflexivity|]. cbv beta in Hp.
  cbn [renumberFlat flatNumbers flat_map]. fold (flatNumbers t).
  destruct (matchHier p) as [[[n d] r]|] eqn:Hm.
  - destruct Hp as [Hl Hd].
    rewrite (flatNumber_of_hier _ _ _ _ Hm Hl Hd).
    destruct (matchHier_shape _ _ _ _ Hm) as (_ & _ & _ & _ & _ & Hdel).
    destruct (matchHier_depth1 _ _ _ _ Hm Hl) as (_ & _ & Hn).
    cbn [flat_map]. fold (flatNumbers (renumberFlat (Some (digitsValue n + 1)%Z) t)).
    rewrite (flatNumber_rewritten _ d r Hn Hdel Hd).
    cbn [app length countFrom]. f_equal.
    apply flatNumbers_renumberFlat_some; [lia|exact H].
  - rewrite Hp. cbn [flat_map]. fold (flatNumbers (renumberFlat None t)).
    rewrite Hp. cbn [app]. exact IH.
Qed.

Lemma checkSpec_consecutive l : forall i c f m,
  flatNumbers l = countFrom f m -> (length (checkSpec i c l) <= 1)%nat.
Proof.
  induction l as [|p t IH]; intros i c f m H; [cbn; lia|].
  cbn [checkSpec flatNumbers flat_map] in *. fold (flatNumbers t) in H.
  destruct (flatNumber p) as [n|]; cbn [app] in H; [|now apply (IH _ _ f m)].
  destruct m as [|m]; [discriminate|]. cbn [countFrom] in H.
  injection H as -> H.
  assert (Hclean : forall j, checkSpec j (f + 1)%Z t = []).
  { intros j. apply checkSpec_clean. rewrite H at 1.
    now rewrite H, length_countFrom. }
  destruct (decide (f = c)) as [->|Hne]; rewrite Hclean; cbn; lia.
Qed.

Lemma countFrom_head_inj m f g : countFrom f (S m) = countFrom g (S m) <-> f = g.
Proof. cbn. split; [now intros [= ->]|now intros ->]. Qed.

(** X13. Renumbering a flat numbered list whose numbers carry a delimiter
    and have at most 15 digits leaves the checker at most one thing to
    report: checkNumbering on the result of renumberHierarchical returns at
    most one issue, and none exactly when the list has no numbered
    paragraph or its first number is 1. *)
Theorem checkNumbering_after_renumber :
  forall ps : list jsstring,
    flatDelimited ps -> shortNumbers ps ->
    (length (checkNumbering (renumberHierarchical ps)) <= 1)%nat /\
    (checkNumbering (renumberHierarchical ps) = [] <->
     match flatNumbers ps with
     | [] => True
     | f :: _ => f = 1%Z
     end).
Proof.
  intros ps H _.
  assert (Hflat : flatDoc ps).
  { eapply List.Forall_impl; [|exact H]. intros p Hp. cbv beta in Hp.
    destruct (matchHier p) as [[[n d] r]|]; [apply Hp|exact I]. }
  rewrite renumberHierarchical_from, (proj1 (renumberFrom_flat ps Hflat)).
  rewrite checkNumbering_checkSpec.
  pose proof (flatNumbers_renumberFlat_none ps H) as Hn. split.
  - destruct (flatNumbers ps) as [|f rest] eqn:E.
    + apply (checkSpec_consecutive _ _ _ 0%Z 0%nat). now rewrite Hn.
    + apply (checkSpec_consecutive _ _ _ f (length (f :: rest))). exact Hn.
  - rewrite checkSpec_clean, Hn.
    destruct (flatNumbers ps) as [|f rest]; [cbn; tauto|].
    rewrite length_countFrom. apply countFrom_head_inj.
Qed.

Lemma checkNumbering_after_renumber_witness :
  checkNumbering (renumberHierarchical [str "1. a"; str "note"; str "7. b"; str "3) c"]) = [].
Proof.
  apply checkNumbering_after_renumber; [| |reflexivity].
  - repeat constructor; discriminate.
  - repeat constructor; unfold shortDigits; cbn; lia.
Defined.

(** ** The workbench *)

Lemma displayParagraphs_normalized w :
  normalized w <> [] -> displayParagraphs w = normalized w.
Proof. unfold displayParagraphs. destruct (normalized w); [congruence|reflexivity]. Qed.

Lemma applyEdit_valid w idx :
  editIndex w = Int idx ->
  (1 <= idx <= Z.of_nat (length (displayParagraphs w)))%Z ->
  applyEdit w =
  mkWorkbench (primaryName w) (primaryParagraphs w)
    (<[Z.to_nat (idx - 1) := trim (editText w)]> (displayParagraphs w))
    (numberingIssues w) (editIndex w) (editText w)
    (referenceParagraphs w) (compareResult w) /\
  displayParagraphs (applyEdit w) =
    <[Z.to_nat (idx - 1) := trim (editText w)]> (displayParagraphs w).
Proof.
  intros Hi Hr. unfold applyEdit. rewrite Hi.
  rewrite (proj2 (Z.ltb_ge idx 1)) by lia.
  rewrite (proj2 (Z.ltb_ge _ idx)) by lia. cbn [orb].
  split; [reflexivity|]. apply displayParagraphs_normalized. cbn [normalized].
  intros E. apply (f_equal (@length _)) in E. rewrite length_insert in E.
  cbn in E. lia.
Qed.

(** X14. applyEdit checks the paragraph number against the displayed list:
    with NaN, a number below 1 or a number above the length it changes
    nothing; with a number from 1 to the length it replaces exactly the
    paragraph of that number by the trimmed text, keeps the length and
    every other paragraph, and leaves the uploaded paragraphs alone. *)
Theorem applyEdit_bounds :
  forall w : Workbench,
    (editIndex w = NaN -> applyEdit w = w) /\
    (forall idx, editIndex w = Int idx ->
       (idx < 1 \/ Z.of_nat (length (displayParagraphs w)) < idx)%Z ->
       applyEdit w = w) /\
    (forall idx, editIndex w = Int idx ->
       (1 <= idx <= Z.of_nat (length (displayParagraphs w)))%Z ->
       displayParagraphs (applyEdit w) !! Z.to_nat (idx - 1) =
         Some (trim (editText w)) /\
       (forall j : nat, j <> Z.to_nat (idx - 1) ->
          displayParagraphs (applyEdit w) !! j = displayParagraphs w !! j) /\
       length (displayParagraphs (applyEdit w)) = length (displayParagraphs w) /\
       primaryParagraphs (applyEdit w) = primaryParagraphs w).
Proof.
  intros w. split; [|split].
  - intros H. unfold applyEdit. now rewrite H.
  - intros idx Hi Hr. unfold applyEdit. rewrite Hi.
    destruct Hr as [Hr|Hr].
    + now rewrite (proj2 (Z.ltb_lt idx 1) Hr).
    + rewrite (proj2 (Z.ltb_lt _ idx) Hr). now rewrite orb_true_r.
  - intros idx Hi Hr. destruct (applyEdit_valid w idx Hi Hr) as [Hw Hd].
    rewrite Hd. split; [|split; [|split]].
    + apply list_lookup_insert_eq. clear Hw Hd Hi. lia.
    + intros j Hj. now apply list_lookup_insert_ne.
    + apply length_insert.
    + now rewrite Hw.
Qed.

Lemma applyEdit_bounds_witness :
  displayParagraphs
    (applyEdit (setEditText (str " new ") (setEditIndex (Int 2)
       (handlePrimaryUpload (str "x.docx") (Some [str "a"; str "b"; str "c"])
          initialWorkbench))))
    !! Z.to_nat (2 - 1) = Some (str "new").
Proof.
  destruct (applyEdit_bounds (setEditText (str " new ") (setEditIndex (Int 2)
       (handlePrimaryUpload (str "x.docx") (Some [str "a"; str "b"; str "c"])
          initialWorkbench))))
    as (_ & _ & H).
  destruct (H 2%Z) as (H1 & _);
    [reflexivity|split; vm_compute; discriminate|exact H1].
Defined.

Lemma goodParagraph_trim p : goodParagraph p -> trim p = p.
Proof.
  intros [_ H]. destruct (norm_fixed_inv _ H) as (_ & Hh & He).
  unfold trim. now rewrite (headNotWs_trimStart _ Hh).
Qed.

Lemma normalizeParagraphs_good xs : Forall goodParagraph (normalizeParagraphs xs).
Proof.
  unfold normalizeParagraphs. induction xs as [|x t IH]; [constructor|].
  cbn [List.map List.filter]. destruct (norm x) eqn:E; cbn [isEmpty negb]; [exact IH|].
  constructor; [|exact IH]. rewrite <- E.
  split; [rewrite E; discriminate|apply norm_idem].
Qed.

Lemma checkNumbering_index_lt ps :
  Forall (fun iss => (index iss < length ps)%nat) (checkNumbering ps).
Proof.
  rewrite checkNumbering_checkSpec.
  eapply List.Forall_impl; [|apply (checkSpec_issues ps 0%nat 1%Z); lia].
  intros iss (_ & Hl & _). rewrite Nat.sub_0_r in Hl.
  now apply lookup_lt_Some in Hl.
Qed.

Lemma runCompare_same toLowerCase w :
  primaryParagraphs (runCompare toLowerCase w) = primaryParagraphs w /\
  normalized (runCompare toLowerCase w) = normalized w /\
  numberingIssues (runCompare toLowerCase w) = numberingIssues w /\
  referenceParagraphs (runCompare toLowerCase w) = referenceParagraphs w.
Proof.
  unfold runCompare.
  destruct (referenceParagraphs w) eqn:Er, (displayParagraphs w) eqn:Ed;
    cbn; rewrite ?Er; repeat split; reflexivity.
Qed.

Lemma step_invariant toLowerCase w a :
  workbenchInvariant w -> workbenchInvariant (step toLowerCase w a).
Proof.
  intros (Hp & Hr & Hl & Ht & Hi). unfold workbenchInvariant.
  destruct a as [name [parsed|]|[parsed|]| | |n|t| |]; cbn [step].
  - unfold handlePrimaryUpload, displayParagraphs.
    cbn [primaryParagraphs referenceParagraphs normalized numberingIssues].
    pose proof (normalizeParagraphs_good parsed) as Hg.
    repeat split; auto.
    eapply List.Forall_impl; [|exact Hg]. apply goodParagraph_trim.
  - unfold handlePrimaryUpload, displayParagraphs in *.
    cbn [primaryParagraphs referenceParagraphs normalized numberingIssues].
    repeat split; auto.
  - unfold handleReferenceUpload, displayParagraphs in *.
    cbn [primaryParagraphs referenceParagraphs normalized numberingIssues].
    repeat split; auto. apply normalizeParagraphs_good.
  - cbn [handleReferenceUpload]. repeat split; auto.
  - unfold runNormalization.
    destruct (primaryParagraphs w) as [|p0 ps0] eqn:E;
      [rewrite E; repeat split; auto; now rewrite <- E|].
    rewrite <- E in *. rewrite (normalizeParagraphs_fixed _ Hp).
    unfold displayParagraphs at 1 2 3.
    cbn [primaryParagraphs referenceParagraphs normalized numberingIssues].
    rewrite E. rewrite <- E.
    repeat split; auto.
    + eapply List.Forall_impl; [|exact Hp]. apply goodParagraph_trim.
    + now rewrite <- Hl.
  - unfold runNumberingCheck, displayParagraphs in *.
    cbn [primaryParagraphs referenceParagraphs normalized numberingIssues].
    repeat split; auto. apply checkNumbering_index_lt.
  - unfold setEditIndex, displayParagraphs in *.
    cbn [primaryParagraphs referenceParagraphs normalized numberingIssues].
    repeat split; auto.
  - unfold setEditText, displayParagraphs in *.
    cbn [primaryParagraphs referenceParagraphs normalized numberingIssues].
    repeat split; auto.
  - destruct (editIndex w) as [|idx] eqn:Ei.
    + unfold applyEdit. rewrite Ei. repeat split; auto.
    + destruct (Z.ltb_spec idx 1) as [Hlo|Hlo].
      { unfold applyEdit. rewrite Ei, (proj2 (Z.ltb_lt idx 1) Hlo).
        repeat split; auto. }
      destruct (Z.ltb_spec (Z.of_nat (length (displayParagraphs w))) idx) as [Hhi|Hhi].
      { unfold applyEdit. rewrite Ei, (proj2 (Z.ltb_lt _ idx) Hhi), orb_true_r.
        repeat split; auto. }
      destruct (applyEdit_valid w idx Ei (conj Hlo Hhi)) as [Hw Hd].
      rewrite Hd. rewrite Hw at 1 2 3 4.
      cbn [primaryParagraphs referenceParagraphs numberingIssues].
      rewrite length_insert. repeat split; auto.
      apply Forall_insert; [exact Ht|apply trim_trim].
  - destruct (runCompare_same toLowerCase w) as (E1 & E2 & E3 & E4).
    unfold displayParagraphs in *. rewrite E1, E2, E3, E4.
    repeat split; auto.
Qed.

Lemma runActions_invariant toLowerCase actions : forall w,
  workbenchInvariant w ->
  workbenchInvariant (fold_left (step toLowerCase) actions w).
Proof.
  induction actions as [|a actions IH]; intros w H; [exact H|].
  cbn [fold_left]. apply IH. now apply step_invariant.
Qed.

Lemma initialWorkbench_invariant : workbenchInvariant initialWorkbench.
Proof. repeat split; constructor. Qed.

(** X15. Whatever the user does (uploads, normalisation, numbering
    checks, edits, comparisons, in any order), the uploaded and the
    reference paragraphs held by the workbench are non-empty and
    normalised, the displayed list has as many paragraphs as the uploaded
    one, no displayed paragraph has leading or trailing white space, and
    every numbering issue held points at a displayed paragraph.
    Normalising shows the uploaded paragraphs again: the edits made since
    the upload are dropped. *)
Theorem workbench_invariant :
  forall (toLowerCase : jsstring -> jsstring) (actions : list Action),
    workbenchInvariant (runActions toLowerCase actions) /\
    displayParagraphs (runNormalization (runActions toLowerCase actions)) =
      primaryParagraphs (runActions toLowerCase actions).
Proof.
  intros toLowerCase actions.
  assert (H : workbenchInvariant (runActions toLowerCase actions))
    by (unfold runActions; apply runActions_invariant, initialWorkbench_invariant).
  split; [exact H|].
  destruct H as (Hp & _ & Hl & _). unfold runNormalization.
  destruct (primaryParagraphs (runActions toLowerCase actions)) as [|p0 ps0] eqn:E.
  - destruct (displayParagraphs _); [reflexivity|discriminate].
  - rewrite (normalizeParagraphs_fixed _ Hp). reflexivity.
Qed.

(** ** renumberHierarchical keeps paragraphs normalised *)

Lemma matchHier_decompose p n d r :
  matchHier p = Some (n, d, r) ->
  exists lead w, p = lead ++ n ++ d ++ w ++ r /\
                 w <> [] /\ forallb isWs w = true /\ headNotWs r = true.
Proof.
  unfold matchHier. intros H.
  pose proof (takeWhile_dropWhile isWs p) as Hp.
  destruct (dropWhile isWs p) as [|c t]; [discriminate|].
  destruct (isDigit c); [|discriminate].
  destruct (numTail t) as [m r0] eqn:Ht.
  destruct (numTail_shape _ t (le_n _) m r0 Ht) as [-> _].
  assert (Hrun : forall delim' r1,
    match r1 with
    | [] => None
    | w :: _ =>
        if isWs w
        then if existsb isLineTerminator (dropWhile isWs r1) then None
             else Some (c :: m, delim', dropWhile isWs r1)
        else None
    end = Some (n, d, r) ->
    n = c :: m /\ d = delim' /\
    exists w, r1 = w ++ r /\ w <> [] /\ forallb isWs w = true /\ headNotWs r = true).
  { intros delim' r1 E. destruct r1 as [|w r1']; [discriminate|].
    destruct (isWs w) eqn:Hw; [|discriminate].
    remember (dropWhile isWs (w :: r1')) as rr eqn:Hrr.
    destruct (existsb isLineTerminator rr); [discriminate|].
    injection E as <- <- <-. split; [reflexivity|]. split; [reflexivity|].
    exists (takeWhile isWs (w :: r1')).
    split; [rewrite Hrr; symmetry; apply takeWhile_dropWhile|].
    split; [cbn; rewrite Hw; discriminate|].
    split; [|rewrite Hrr; apply headNotWs_dropWhile].
    apply forallb_forall. intros x Hx.
    pose proof (takeWhile_Forall isWs (w :: r1')) as Hf.
    rewrite List.Forall_forall in Hf. now apply Hf. }
  destruct r0 as [|x r']; [discriminate|].
  destruct ((x =? DOT) || (x =? RPAREN)).
  - apply (Hrun [x] r') in H as (-> & -> & w & -> & Hw).
    exists (takeWhile isWs p), w. split; [|exact Hw].
    symmetry. exact Hp.
  - apply (Hrun [] (x :: r')) in H as (-> & -> & w & Hr & Hw).
    exists (takeWhile isWs p), w. split; [|exact Hw].
    rewrite Hr in Hp. symmetry. exact Hp.
Qed.

Lemma trimEnd_fixed_last a : forall c,
  trimEnd (a ++ [c]) = a ++ [c] -> isWs c = false.
Proof.
  induction a as [|x a IH]; intros c H.
  - cbn in H. destruct (isWs c); [discriminate|reflexivity].
  - cbn [app trimEnd] in H.
    destruct (trimEnd (a ++ [c])) as [|y t'] eqn:E.
    + destruct (isWs x); [discriminate|]. injection H as H.
      destruct a; discriminate.
    + injection H as H. apply IH. now rewrite E.
Qed.

Lemma matchHier_good_rest p n d r :
  goodParagraph p -> matchHier p = Some (n, d, r) -> goodParagraph (norm r).
Proof.
  intros [_ Hp] Hm.
  destruct (norm_fixed_inv _ Hp) as (_ & _ & He).
  destruct (matchHier_decompose _ _ _ _ Hm) as (lead & w & Hdec & Hwne & Hw & Hr).
  split; [|apply norm_idem]. intros Hn. apply norm_nil in Hn.
  destruct r as [|c r'].
  - destruct (exists_last Hwne) as (w' & x & ->).
    rewrite app_nil_r in Hdec.
    rewrite Hdec, !app_assoc in He. apply trimEnd_fixed_last in He.
    rewrite forallb_app in Hw. apply andb_prop in Hw as [_ Hx].
    cbn in Hx. rewrite He in Hx. discriminate.
  - cbn in Hr, Hn. destruct (isWs c); discriminate.
Qed.

Lemma renumberFrom_good ps : forall current,
  Forall isNat current -> Forall goodParagraph ps ->
  Forall goodParagraph (renumberFrom current ps).
Proof.
  induction ps as [|p t IH]; intros current Hc H; [constructor|].
  cbn [renumberFrom]. pose proof (Forall_inv H) as Hp.
  apply Forall_inv_tail in H.
  destruct (matchHier p) as [[[n d] r]|] eqn:Hm.
  - destruct (renumber_second_pass current p n d r Hc Hm) as (Hl & He & _).
    cbv zeta. constructor; [|now apply IH].
    destruct (matchHier_shape _ _ _ _ Hm) as (_ & _ & _ & _ & _ & Hd).
    unfold rewritten. rewrite app_assoc.
    apply goodParagraph_numbered.
    + apply List.Forall_app. split; [apply joinPath_nows|].
      destruct Hd as [->|[->| ->]]; repeat constructor.
    + intros E. apply app_eq_nil in E as [E _]. revert E. apply joinPath_nonempty.
      intros E. rewrite E in Hl. pose proof (parsePath_nonempty n).
      destruct (parsePath n); [congruence|discriminate].
    + now apply (matchHier_good_rest p n d r).
  - constructor; [exact Hp|now apply IH].
Qed.

(** X16. renumberHierarchical keeps a list normalised: when every input
    paragraph is non-empty and normalised, so is every paragraph it
    returns, and normalizeParagraphs leaves its result unchanged. *)
Theorem renumberHierarchical_normalised :
  forall ps : list jsstring,
    Forall goodParagraph ps ->
    Forall goodParagraph (renumberHierarchical ps) /\
    normalizeParagraphs (renumberHierarchical ps) = renumberHierarchical ps.
Proof.
  intros ps H.
  assert (Hg : Forall goodParagraph (renumberHierarchical ps)).
  { rewrite renumberHierarchical_from. apply renumberFrom_good; [constructor|exact H]. }
  split; [exact Hg|now apply normalizeParagraphs_fixed].
Qed.

Lemma renumberHierarchical_normalised_witness :
  normalizeParagraphs (renumberHierarchical [str "3. a b"; str "note"; str "3.4) c"]) =
  renumberHierarchical [str "3. a b"; str "note"; str "3.4) c"].
Proof.
  apply renumberHierarchical_normalised.
  repeat constructor; discriminate.
Defined.

(** ** The numbering of the walk is the numbering of the renumberer *)

Lemma renumberFrom_app a : forall current b,
  renumberFrom current (a ++ b) =
    renumberFrom current a ++ renumberFrom (pathAfter current a) b /\
  pathAfter current (a ++ b) = pathAfter (pathAfter current a) b.
Proof.
  induction a as [|p a IH]; intros current b; [now split|].
  cbn [app renumberFrom pathAfter].
  destruct (matchHier p) as [[[n d] r]|].
  - destruct (IH (expectedPath current (parsePath n)) b) as [-> ->]. now split.
  - destruct (IH current b) as [-> ->]. now split.
Qed.

Lemma expectedPath_fits cur stack k :
  fitsBefore cur stack k ->
  expectedPath cur (stack ++ [Int k]) = stack ++ [Int k].
Proof.
  intros [[-> ->]|[(-> & -> & Hne)|Ht]].
  - reflexivity.
  - apply expectedPath_deeper1; [exact Hne|]. rewrite length_app. reflexivity.
  - assert (Hl : (S (length stack) <= length cur)%nat).
    { apply (f_equal (@length JNum)) in Ht.
      rewrite length_firstn, length_app in Ht.
      change (length [Int (k - 1)]) with 1%nat in Ht. lia. }
    assert (Hne : cur <> []) by (intros ->; cbn in Hl; lia).
    assert (Hf : length (stack ++ [Int k]) = S (length stack))
      by (rewrite length_app; cbn; lia).
    destruct (Nat.eq_dec (length cur) (S (length stack))) as [E|E].
    + rewrite (expectedPath_same cur _ Hne (eq_trans Hf (eq_sym E))).
      rewrite <- (firstn_all cur), E. change (firstn (S (length stack)) cur)
        with (take (S (length stack)) cur). rewrite Ht, incrLast_snoc.
      cbn [addInt]. do 3 f_equal. lia.
    + rewrite expectedPath_shallower;
        [| destruct stack; discriminate | rewrite Hf; clear - Hl E; lia].
      rewrite Hf, Ht, incrLast_snoc. cbn [addInt]. do 3 f_equal. lia.
Qed.

Lemma item_paragraph_fixed cur stack k s :
  Forall isNat stack -> (0 <= k)%Z -> fitsBefore cur stack k ->
  renumberFrom cur [joinPath (stack ++ [Int k]) ++ [SPACE] ++ norm s] =
    [joinPath (stack ++ [Int k]) ++ [SPACE] ++ norm s] /\
  pathAfter cur [joinPath (stack ++ [Int k]) ++ [SPACE] ++ norm s] =
    stack ++ [Int k].
Proof.
  intros Hs Hk Hfit.
  assert (Hp : Forall isNat (stack ++ [Int k])).
  { apply List.Forall_app. split; [exact Hs|].
    constructor; [|constructor]. exists (Z.to_N k). now rewrite Z2N.id. }
  assert (Hne : stack ++ [Int k] <> []) by (destruct stack; discriminate).
  assert (Hm : matchHier (joinPath (stack ++ [Int k]) ++ [SPACE] ++ norm s) =
               Some (joinPath (stack ++ [Int k]), [], norm s)).
  { apply (matchHier_rewritten (stack ++ [Int k]) [] s Hne Hp). now left. }
  cbn [renumberFrom pathAfter]. rewrite Hm.
  rewrite (parsePath_joinPath _ Hne Hp), (expectedPath_fits _ _ _ Hfit).
  split; [|reflexivity]. unfold rewritten. now rewrite norm_idem.
Qed.

Lemma size_pos n : (1 <= size n)%nat.
Proof. destruct n; cbn; lia. Qed.

Lemma size_childNodes c n : In c (childNodes n) -> (size c < size n)%nat.
Proof.
  destruct n as [d|tag attrs kids]; [intros []|]. apply size_child.
Qed.

Lemma chainLi_inv li :
  chainLi li ->
  getAttribute "value" (attributes li) = None /\
  liMainText li <> [] /\
  childrenTagged "ul" li = [] /\
  (childrenTagged "ol" li = [] \/
   exists o, childrenTagged "ol" li = [o] /\ chainOl o).
Proof. intros H. inversion H; subst; eauto 8. Qed.

Lemma processOl_chain o stack :
  chainOl o ->
  exists lis, processOl o stack = numberedFrom stack 1 lis /\
              Forall chainLi lis /\
              forall li, In li lis -> (size li < size o)%nat.
Proof.
  intros H. inversion H as [tag attrs kids Hstart Hlis]; subst.
  exists (List.filter (hasTag "li") kids). split; [|split].
  - rewrite processOl_numberedWith. unfold startNumber. rewrite Hstart.
    cbn [attrOr addInt]. apply (numberedWith_plain stack _ 1%Z).
    eapply List.Forall_impl; [|exact Hlis]. intros li Hli.
    now apply chainLi_inv in Hli.
  - exact Hlis.
  - intros li Hli. apply filter_In in Hli as [Hli _]. now apply size_child.
Qed.

Lemma take_prefix_shorter (P cur : list JNum) x :
  take (S (length P)) cur = P ++ [x] -> take (length P) cur = P.
Proof.
  intros H. apply (f_equal (take (length P))) in H.
  rewrite take_take, Nat.min_l in H by lia.
  rewrite H. now rewrite take_app_length.
Qed.

Lemma chain_items n : forall lis stack k cur,
  (forall li, In li lis -> (size li <= n)%nat) ->
  Forall chainLi lis -> Forall isNat stack -> (1 <= k)%Z ->
  fitsBefore cur stack k ->
  renumberFrom cur (numberedFrom stack k lis) = numberedFrom stack k lis /\
  (lis = [] \/
   take (S (length stack)) (pathAfter cur (numberedFrom stack k lis)) =
   stack ++ [Int (k + Z.of_nat (length lis) - 1)]).
Proof.
  induction n as [|n IHn]; intros lis.
  - destruct lis as [|li t]; [intros; split; [reflexivity|now left]|].
    intros stack k cur Hsz. specialize (Hsz li (or_introl eq_refl)).
    pose proof (size_pos li). lia.
  - induction lis as [|li t IHt]; intros stack k cur Hsz Hch Hst Hk Hfit;
      [split; [reflexivity|now left]|].
    pose proof (Forall_inv Hch) as Hli. apply Forall_inv_tail in Hch.
    destruct (chainLi_inv li Hli) as (_ & Htext & Hul & Hol).
    set (P := stack ++ [Int k]).
    assert (HP : Forall isNat P).
    { apply List.Forall_app. split; [exact Hst|].
      constructor; [|constructor]. exists (Z.to_N k). rewrite Z2N.id; [reflexivity|lia]. }
    assert (HPne : P <> []) by (unfold P; destruct stack; discriminate).
    assert (HPlen : length P = S (length stack))
      by (unfold P; rewrite length_app; cbn; lia).
    (* the nested list, if any *)
    assert (Hinner :
      let inner := flat_map (fun childOl => processOl childOl P)
                     (childrenTagged "ol" li) in
      renumberFrom P inner = inner /\
      take (length P) (pathAfter P inner) = P).
    { destruct Hol as [Hol|(o & Hol & Ho)]; rewrite Hol.
      - cbn. split; [reflexivity|apply firstn_all].
      - cbn [flat_map]. rewrite app_nil_r.
        destruct (processOl_chain o P Ho) as (lis' & -> & Hlis' & Hsz').
        assert (Hosz : (size o < size li)%nat).
        { apply size_childNodes.
          assert (Hin : In o (childrenTagged "ol" li))
            by (rewrite Hol; now left).
          unfold childrenTagged in Hin. apply filter_In in Hin. apply Hin. }
        destruct (IHn lis' P 1%Z P) as [Hr Hpath]; auto; try lia.
        { intros li' Hin. specialize (Hsz' li' Hin).
          specialize (Hsz li (or_introl eq_refl)). lia. }
        { right. left. auto. }
        split; [exact Hr|].
        destruct Hpath as [->|Hpath]; [apply firstn_all|].
        now apply take_prefix_shorter in Hpath. }
    cbv zeta in Hinner. destruct Hinner as [Hinner Hprefix].
    set (inner := flat_map (fun childOl => processOl childOl P)
                    (childrenTagged "ol" li)) in *.
    set (para := joinPath P ++ [SPACE] ++ liMainText li).
    assert (Hitem : itemOutput P li = [para] ++ inner).
    { unfold itemOutput, bulletParagraphs, pushIf. rewrite Hul.
      cbn [flat_map]. rewrite app_nil_r. fold inner.
      destruct (liMainText li) eqn:Etext; [congruence|]. reflexivity. }
    destruct (item_paragraph_fixed cur stack k (textContent (withoutLists li))
                Hst ltac:(lia) Hfit) as [Hpar Hafter].
    change (joinPath (stack ++ [Int k]) ++ [SPACE]
            ++ norm (textContent (withoutLists li))) with para in Hpar, Hafter.
    fold P in Hafter.
    cbn [numberedFrom]. fold P. rewrite Hitem, <- app_assoc.
    destruct (renumberFrom_app [para] cur (inner ++ numberedFrom stack (k + 1) t))
      as [-> ->].
    rewrite Hpar, Hafter.
    destruct (renumberFrom_app inner P (numberedFrom stack (k + 1) t)) as [-> ->].
    rewrite Hinner.
    assert (Hfit' : fitsBefore (pathAfter P inner) stack (k + 1)).
    { right. right. rewrite <- HPlen, Hprefix. unfold P. do 3 f_equal. lia. }
    destruct (IHt stack (k + 1)%Z (pathAfter P inner)) as [Hr Hpath]; auto; try lia.
    { intros li' Hin. apply Hsz. now right. }
    rewrite Hr. split; [reflexivity|]. right.
    destruct Hpath as [->|Hpath].
    + cbn [numberedFrom pathAfter length]. rewrite <- HPlen, Hprefix.
      unfold P. do 3 f_equal. lia.
    + rewrite Hpath. do 3 f_equal. cbn [length]. lia.
Qed.

(** X17. The numbering that the walk writes for an ordered list numbered
    by position only (no start or value attribute, every item with a text
    of its own, no bullet list, at most one nested ordered list per item)
    is the numbering renumberHierarchical computes: the renumberer returns
    the extracted paragraphs unchanged. *)
Theorem extractParagraphs_renumber_fixed :
  forall ctag cattrs attrs kids,
    chainOl (Element "ol" attrs kids) ->
    renumberHierarchical
      (extractParagraphs (Element ctag cattrs [Element "ol" attrs kids])) =
    extractParagraphs (Element ctag cattrs [Element "ol" attrs kids]).
Proof.
  intros ctag cattrs attrs kids H.
  unfold extractParagraphs. cbn [walk flat_map String.eqb Ascii.eqb Bool.eqb].
  rewrite app_nil_r, renumberHierarchical_from.
  destruct (processOl_chain _ [] H) as (lis & -> & Hlis & Hsz).
  apply (chain_items (size (Element "ol" attrs kids)) lis [] 1%Z []);
    auto; try lia.
  - intros li Hin. specialize (Hsz li Hin). lia.
  - now left.
Qed.

Lemma extractParagraphs_renumber_fixed_witness :
  renumberHierarchical
    (extractParagraphs
       (Element "div" []
          [Element "ol" []
             [Element "li" []
                [TextNode (str "a");
                 Element "ol" [] [Element "li" [] [TextNode (str "b")]]];
              Element "li" [] [TextNode (str "c")]]])) =
  extractParagraphs
    (Element "div" []
       [Element "ol" []
          [Element "li" []
             [TextNode (str "a");
              Element "ol" [] [Element "li" [] [TextNode (str "b")]]];
           Element "li" [] [TextNode (str "c")]]]).
Proof.
  apply extractParagraphs_renumber_fixed.
  apply chainOl_list; [reflexivity|]. cbn [List.filter hasTag String.eqb Ascii.eqb Bool.eqb].
  constructor; [|constructor; [|constructor]].
  - apply (chainLi_nested _ (Element "ol" [] [Element "li" [] [TextNode (str "b")]]));
      try reflexivity; [discriminate|].
    apply chainOl_list; [reflexivity|].
    cbn [List.filter hasTag String.eqb Ascii.eqb Bool.eqb].
    constructor; [|constructor].
    apply chainLi_leaf; try reflexivity. discriminate.
  - apply chainLi_leaf; try reflexivity. discriminate.
Defined.

(** ** Finding a paragraph by the number written for it *)

Lemma trimEnd_nows s : Forall (fun c => isWs c = false) s -> trimEnd s = s.
Proof.
  induction 1 as [|c t Hc Ht IH]; [reflexivity|].
  cbn [trimEnd]. rewrite IH. destruct t; [now rewrite Hc|reflexivity].
Qed.

Lemma trim_nows s : Forall (fun c => isWs c = false) s -> trim s = s.
Proof.
  intros H. unfold trim, trimStart.
  replace (dropWhile isWs s) with s; [now apply trimEnd_nows|].
  destruct H as [|c t Hc _]; [reflexivity|]. cbn. now rewrite Hc.
Qed.

Lemma findFrom_hit accepts ps : forall (i k : nat) q,
  ps !! i = Some q -> accepts q = true ->
  exists (j : nat) q',
    (j <= i)%nat /\ ps !! j = Some q' /\ accepts q' = true /\
    findFrom accepts k ps = mkSearchResult (Z.of_nat (k + j)) q'.
Proof.
  induction ps as [|p t IH]; intros i k q Hi Hq; [discriminate|].
  cbn [findFrom]. destruct (accepts p) eqn:Hp.
  - exists 0%nat, p. rewrite Nat.add_0_r. repeat split; auto. lia.
  - destruct i as [|i]; [injection Hi as ->; congruence|].
    destruct (IH i (S k) q Hi Hq) as (j & q' & Hj & Hl & Ha & Hf).
    exists (S j), q'. repeat split; auto; [lia|].
    rewrite Hf. do 2 f_equal. lia.
Qed.

Lemma itemMatches_rewritten e d r :
  isDelim d -> itemMatches (trim (joinPath e)) (rewritten e d r) = true.
Proof.
  intros Hd. rewrite (trim_nows _ (joinPath_nows e)).
  apply itemMatches_spec. left. unfold rewritten.
  destruct Hd as [->|[->| ->]].
  - exists SPACE, (norm r). split; [reflexivity|now left].
  - exists DOT, ([SPACE] ++ norm r). split; [reflexivity|]. right. now left.
  - exists RPAREN, ([SPACE] ++ norm r). split; [reflexivity|]. right. now right.
Qed.

(** X18. A numbered paragraph can be found by the number written for it:
    after renumberHierarchical, findParagraphByItemNumber with the dotted
    path written at index i returns, at index i or before, a paragraph of
    the result that the search accepts for that number: one that begins
    with the number followed by a space, a dot or a closing parenthesis,
    or one that is the number and nothing else. *)
Theorem findParagraphByItemNumber_after_renumber :
  forall (ps : list jsstring) (i : nat) p n d r,
    ps !! i = Some p -> matchHier p = Some (n, d, r) ->
    exists e (j : nat) q,
      renumberHierarchical ps !! i = Some (rewritten e d r) /\
      findParagraphByItemNumber (renumberHierarchical ps) (joinPath e) =
        mkSearchResult (Z.of_nat j) q /\
      (j <= i)%nat /\ renumberHierarchical ps !! j = Some q /\
      itemAccepts (joinPath e) q.
Proof.
  intros ps i p n d r Hi Hm. rewrite renumberHierarchical_from.
  destruct (renumberFrom_lookup_matched ps [] i p n d r (List.Forall_nil _) Hi Hm)
    as (e & Ho & _ & _).
  destruct (matchHier_shape _ _ _ _ Hm) as (_ & _ & _ & _ & _ & Hd).
  destruct (findFrom_hit (itemMatches (trim (joinPath e))) (renumberFrom [] ps)
              i 0%nat _ Ho (itemMatches_rewritten e d r Hd))
    as (j & q & Hj & Hl & Ha & Hf).
  exists e, j, q. split; [exact Ho|]. split; [exact Hf|].
  split; [exact Hj|]. split; [exact Hl|].
  apply itemMatches_spec. now rewrite (trim_nows _ (joinPath_nows e)) in Ha.
Qed.

Lemma findParagraphByItemNumber_after_renumber_witness :
  exists e (j : nat) q,
    renumberHierarchical [str "6 a"; str "6.7) b"] !! 1%nat =
      Some (rewritten e [RPAREN] (str "b")) /\
    findParagraphByItemNumber (renumberHierarchical [str "6 a"; str "6.7) b"])
      (joinPath e) = mkSearchResult (Z.of_nat j) q /\
    (j <= 1)%nat /\
    renumberHierarchical [str "6 a"; str "6.7) b"] !! j = Some q /\
    itemAccepts (joinPath e) q.
Proof.
  apply (findParagraphByItemNumber_after_renumber [str "6 a"; str "6.7) b"] 1%nat
           (str "6.7) b") (str "6.7") [RPAREN] (str "b")); reflexivity.
Defined.

(** ** Instances of the properties above *)

Lemma checkNumbering_clean_iff_witness :
  checkNumbering [str "1. a"; str "note"; str "2) b"] = [].
Proof. apply checkNumbering_clean_iff. reflexivity. Defined.

Lemma compareParagraphSets_missing_witness :
  missingInTarget
    (compareParagraphSets asciiToLowerCase [str "A  b"; str "c"]
       [str "C"; str "a b"]) = [].
Proof.
  apply compareParagraphSets_missing. intros p Hp.
  change (List.map (normKey asciiToLowerCase) [str "C"; str "a b"])
    with [str "c"; str "a b"].
  rewrite !elem_of_cons, elem_of_nil in Hp.
  destruct Hp as [->|[->|[]]]; rewrite !elem_of_cons; [right; left|left]; reflexivity.
Defined.

(** * Normal forms as words

    The normal form of a text and the text of a list item, stated without
    the helpers of the program, and the comparison and the numbering
    synthesizer stated with them. *)

(** ** Words *)

Lemma words_ws c t : isWs c = true -> words (c :: t) = words t.
Proof. intros H. cbn [words]. now rewrite H. Qed.

Lemma words_nil s : words s = [] <-> forallb isWs s = true.
Proof.
  induction s as [|c t IH]; cbn [words forallb]; [tauto|].
  destruct (isWs c) eqn:E; cbn [andb]; [exact IH|].
  split; [|discriminate].
  destruct (startsWord t); [destruct (words t)|]; discriminate.
Qed.

Lemma startsWord_blank s : forallb isWs s = true -> startsWord s = false.
Proof.
  destruct s as [|c t]; [reflexivity|]. cbn [forallb startsWord].
  intros H. apply andb_prop in H as [H _]. now rewrite H.
Qed.

Lemma startsWord_collapseFrom s :
  startsWord (collapseFrom false s) = startsWord s.
Proof.
  destruct s as [|c t]; [reflexivity|]. cbn [collapseFrom].
  destruct (isWs c) eqn:E; cbn [startsWord]; now rewrite ?E.
Qed.

Lemma words_collapseFrom s : forall b, words (collapseFrom b s) = words s.
Proof.
  induction s as [|c t IH]; intros b; [reflexivity|].
  cbn [collapseFrom]. destruct (isWs c) eqn:E.
  - rewrite (words_ws c t E). destruct b; [apply IH|].
    rewrite words_ws by reflexivity. apply IH.
  - cbn [words]. now rewrite E, startsWord_collapseFrom, IH.
Qed.

Lemma words_dropWhile s : words (dropWhile isWs s) = words s.
Proof.
  induction s as [|c t IH]; [reflexivity|]. cbn [dropWhile].
  destruct (isWs c) eqn:E; [|reflexivity]. now rewrite IH, (words_ws c t E).
Qed.

Lemma startsWord_trimEnd t :
  trimEnd t <> [] -> startsWord (trimEnd t) = startsWord t.
Proof.
  destruct t as [|d t']; [reflexivity|]. cbn [trimEnd].
  destruct (trimEnd t'); [|reflexivity].
  destruct (isWs d) eqn:E; [congruence|]. intros _. reflexivity.
Qed.

Lemma words_trimEnd s : words (trimEnd s) = words s.
Proof.
  induction s as [|c t IH]; [reflexivity|].
  cbn [trimEnd]. destruct (trimEnd t) as [|x y] eqn:E.
  - apply trimEnd_nil in E. cbn [words].
    rewrite (proj2 (words_nil t) E), (startsWord_blank t E).
    destruct (isWs c) eqn:Ec; [reflexivity|].
    cbn [words startsWord]. now rewrite Ec.
  - rewrite <- E in IH |- *. cbn [words].
    rewrite startsWord_trimEnd by (rewrite E; discriminate).
    now rewrite IH.
Qed.

Lemma words_norm s : words (norm s) = words s.
Proof.
  unfold norm, trim, trimStart, replaceWs.
  now rewrite words_trimEnd, words_dropWhile, words_collapseFrom.
Qed.

Lemma trimEnd_cons_fixed c t :
  trimEnd (c :: t) = c :: t -> t <> [] -> trimEnd t = t.
Proof.
  cbn [trimEnd]. intros H Hne. destruct (trimEnd t) as [|x y].
  - destruct (isWs c); [discriminate|]. injection H as <-. congruence.
  - now injection H.
Qed.

Lemma join_cons_head sep c w more :
  join sep ((c :: w) :: more) = c :: join sep (w :: more).
Proof. destruct more; reflexivity. Qed.

Lemma startsWord_words s : startsWord s = true -> words s <> [].
Proof.
  intros H E. apply words_nil in E. apply startsWord_blank in E. congruence.
Qed.

(** A text in normal form is its words with one space between them. *)
Lemma join_words_fixed_len n : forall x, (length x <= n)%nat ->
  spaced false x = true -> headNotWs x = true -> trimEnd x = x ->
  join [SPACE] (words x) = x.
Proof.
  induction n as [|n IH]; intros x Hlen Hs Hh Ht.
  - destruct x; [reflexivity|cbn in Hlen; lia].
  - destruct x as [|c t]; [reflexivity|].
    cbn [headNotWs] in Hh. apply negb_true_iff in Hh.
    cbn [spaced] in Hs. rewrite Hh in Hs.
    cbn [words]. rewrite Hh.
    destruct t as [|d t']; [reflexivity|].
    assert (Htt : trimEnd (d :: t') = d :: t')
      by (apply (trimEnd_cons_fixed c); [exact Ht|discriminate]).
    cbn [length] in Hlen.
    cbn [startsWord]. destruct (isWs d) eqn:Ed; cbn [negb].
    + cbn [spaced] in Hs. rewrite Ed in Hs. cbn [negb andb] in Hs.
      apply andb_prop in Hs as [Hd Hs']. apply N.eqb_eq in Hd. subst d.
      rewrite (words_ws SPACE t' Ed).
      assert (Hne : t' <> []).
      { intros ->. discriminate Htt. }
      assert (Ht' : trimEnd t' = t') by now apply (trimEnd_cons_fixed SPACE).
      assert (Hh' : headNotWs t' = true).
      { destruct t' as [|e t'']; [reflexivity|]. cbn [spaced] in Hs'.
        cbn [headNotWs]. destruct (isWs e); [discriminate|reflexivity]. }
      assert (Hs0 : spaced false t' = true).
      { destruct t' as [|e t'']; [reflexivity|]. cbn [spaced] in Hs' |- *.
        cbn [headNotWs] in Hh'. apply negb_true_iff in Hh'.
        now rewrite Hh' in Hs' |- *. }
      assert (Hj : join [SPACE] (words t') = t') by (apply IH; auto; lia).
      assert (Hw : words t' <> []).
      { apply startsWord_words. destruct t'; [congruence|exact Hh']. }
      destruct (words t') as [|w more]; [congruence|].
      change (join [SPACE] ([c] :: w :: more))
        with ([c] ++ [SPACE] ++ join [SPACE] (w :: more)).
      now rewrite Hj.
    + assert (Hj : join [SPACE] (words (d :: t')) = d :: t').
      { apply IH; [cbn [length]; lia|exact Hs| |exact Htt].
        cbn [headNotWs]. now rewrite Ed. }
      assert (Hw : words (d :: t') <> []).
      { apply startsWord_words. cbn [startsWord]. now rewrite Ed. }
      destruct (words (d :: t')) as [|w more]; [congruence|].
      now rewrite join_cons_head, Hj.
Qed.

(** [norm] in the words of its specification: the words of the text with
    one space between them. *)
Lemma norm_words s : norm s = join [SPACE] (words s).
Proof.
  rewrite <- (words_norm s). symmetry.
  apply (join_words_fixed_len (length (norm s))); [lia| | |].
  - apply spaced_norm.
  - apply headNotWs_norm.
  - unfold norm, trim. apply trimEnd_idem.
Qed.


(** ** compareParagraphSets, in the words of its specification *)

Lemma normKey_paragraphKey toLowerCase p :
  normKey toLowerCase p = paragraphKey toLowerCase p.
Proof. unfold normKey, paragraphKey. now rewrite norm_words. Qed.

Lemma compareParagraphSets_keys toLowerCase reference target :
  compareParagraphSets toLowerCase reference target =
  mkCompare
    (List.filter
       (fun p => bool_decide (paragraphKey toLowerCase p ∉
                              List.map (paragraphKey toLowerCase) target))
       reference)
    (List.filter
       (fun p => bool_decide (paragraphKey toLowerCase p ∉
                              List.map (paragraphKey toLowerCase) reference))
       target).
Proof.
  rewrite compareParagraphSets_filters.
  rewrite !(map_ext _ _ (normKey_paragraphKey toLowerCase)).
  f_equal; apply filter_ext; intros p; now rewrite normKey_paragraphKey.
Qed.

(** On paragraphs whose words are ASCII text, a lower-casing that agrees
    with the ASCII one on ASCII text gives the comparison of the ASCII
    one. *)
Lemma compareParagraphSets_ascii toLowerCase reference target :
  (forall s, isAscii s -> toLowerCase s = asciiToLowerCase s) ->
  Forall (fun p => isAscii (join [SPACE] (words p))) reference ->
  Forall (fun p => isAscii (join [SPACE] (words p))) target ->
  compareParagraphSets toLowerCase reference target =
  compareParagraphSets asciiToLowerCase reference target.
Proof.
  intros Hascii Hr Ht. rewrite !compareParagraphSets_keys.
  assert (Hk : forall l, Forall (fun p => isAscii (join [SPACE] (words p))) l ->
    forall p, In p l ->
      paragraphKey toLowerCase p = paragraphKey asciiToLowerCase p).
  { intros l Hl p Hp. unfold paragraphKey. apply Hascii.
    exact (proj1 (List.Forall_forall _ _) Hl p Hp). }
  rewrite (map_ext_in _ _ target (Hk target Ht)).
  rewrite (map_ext_in _ _ reference (Hk reference Hr)).
  f_equal; apply filter_ext_in; intros p Hp.
  - now rewrite (Hk reference Hr p Hp).
  - now rewrite (Hk target Ht p Hp).
Qed.

(** C4. compareParagraphSets returns, in the order and spelling of the
    reference, the reference paragraphs whose key is the key of no target
    paragraph, and the same for the target against the reference, where
    the key of a paragraph is its text with every white-space run collapsed
    to one space, no white space at either end, and the case folded.  A
    sequence compared with itself gives two empty lists, and so do
    "Foo  bar" and "foo bar"; white space of any kind around and between
    the words makes no difference, while a paragraph that differs in its
    words is reported.  [toLowerCase] is the lower-casing of the platform,
    which on ASCII text lower-cases the letters A to Z. *)
Theorem compareParagraphSets_spec :
  forall toLowerCase : jsstring -> jsstring,
    (forall s, isAscii s -> toLowerCase s = asciiToLowerCase s) ->
    (forall reference target,
       missingInTarget (compareParagraphSets toLowerCase reference target) =
         List.filter
           (fun p => bool_decide (paragraphKey toLowerCase p ∉
                                  List.map (paragraphKey toLowerCase) target))
           reference /\
       extraInTarget (compareParagraphSets toLowerCase reference target) =
         List.filter
           (fun p => bool_decide (paragraphKey toLowerCase p ∉
                                  List.map (paragraphKey toLowerCase) reference))
           target) /\
    (forall p, normKey toLowerCase p = toLowerCase (join [SPACE] (words p))) /\
    (forall A, compareParagraphSets toLowerCase A A = mkCompare [] []) /\
    compareParagraphSets toLowerCase [str "Foo  bar"] [str "foo bar"] =
      mkCompare [] [] /\
    compareParagraphSets toLowerCase
      [[32; 70; 111; 111; 9; 10; 98; 97; 114; 32; 32]] [str "foo bar"] =
      mkCompare [] [] /\
    compareParagraphSets toLowerCase
      [str "Foo bar"; str " x "] [str "foobar"; str "X"; str "Foo  baz"] =
      mkCompare [str "Foo bar"] [str "foobar"; str "Foo  baz"].
Proof.
  intros toLowerCase Hascii.
  split; [|split; [|split; [|split; [|split]]]].
  - intros reference target. now rewrite compareParagraphSets_keys.
  - intros p. apply normKey_paragraphKey.
  - intros A. now rewrite compareParagraphSets_filters, filter_absent_self.
  - rewrite (compareParagraphSets_ascii _ _ _ Hascii);
      [reflexivity|repeat constructor|repeat constructor].
  - rewrite (compareParagraphSets_ascii _ _ _ Hascii);
      [reflexivity|repeat constructor|repeat constructor].
  - rewrite (compareParagraphSets_ascii _ _ _ Hascii);
      [reflexivity|repeat constructor|repeat constructor].
Qed.

Lemma compareParagraphSets_spec_witness :
  compareParagraphSets asciiToLowerCase
    [[32; 70; 111; 111; 9; 10; 98; 97; 114; 32; 32]] [str "foo bar"] =
  mkCompare [] [].
Proof.
  destruct (compareParagraphSets_spec asciiToLowerCase) as (_ & _ & _ & _ & H & _).
  - intros s _. reflexivity.
  - exact H.
Defined.


(** ** The numbering synthesizer, in the words of its specification *)

Lemma textContent_withoutLists_len n : forall c, (size c <= n)%nat ->
  textContent (withoutLists c) = textOutsideLists c.
Proof.
  induction n as [|n IH]; intros c Hn.
  - destruct c; cbn in Hn; lia.
  - destruct c as [d|tag attrs kids]; [reflexivity|].
    cbn [withoutLists textContent textOutsideLists].
    assert (Hk : forall k, In k kids -> (size k <= n)%nat).
    { intros k Hin. pose proof (size_child k tag attrs kids Hin). lia. }
    clear Hn. induction kids as [|k kids IHk]; [reflexivity|].
    cbn [flat_map]. rewrite flat_map_app, IHk by (intros; apply Hk; now right).
    f_equal. destruct (isListElement k); [reflexivity|].
    cbn [flat_map]. rewrite app_nil_r. apply IH, Hk. now left.
Qed.

Lemma textContent_withoutLists c :
  textContent (withoutLists c) = textOutsideLists c.
Proof. now apply (textContent_withoutLists_len (size c)). Qed.

Lemma liMainText_words li :
  liMainText li = join [SPACE] (words (textOutsideLists li)).
Proof. unfold liMainText. now rewrite textContent_withoutLists, norm_words. Qed.

Lemma itemOutput_itemBlock path li : itemOutput path li = itemBlock path li.
Proof.
  unfold itemOutput, itemBlock, itemParagraph, pushIf.
  rewrite liMainText_words. f_equal.
  pose proof (isEmpty_norm (textOutsideLists li)) as He.
  rewrite norm_words in He.
  destruct (words (textOutsideLists li)) as [|w more] eqn:E; [reflexivity|].
  rewrite He.
  destruct (forallb isWs (textOutsideLists li)) eqn:F; [|reflexivity].
  apply words_nil in F. congruence.
Qed.

Lemma itemNumber_numberOf counter li : itemNumber counter li = numberOf counter li.
Proof.
  unfold itemNumber, numberOf.
  destruct (getAttribute "value" (attributes li)) as [[|c v]|]; reflexivity.
Qed.

Lemma startNumber_firstCounter attrs :
  addInt (startNumber attrs) (-1) = firstCounter attrs.
Proof.
  unfold startNumber, firstCounter.
  destruct (getAttribute "start" attrs) as [[|c v]|]; reflexivity.
Qed.

Lemma numberedWith_numberedItems stack lis : forall counter,
  numberedWith stack counter lis = numberedItems stack counter lis.
Proof.
  induction lis as [|li t IH]; intros counter; [reflexivity|].
  cbn [numberedWith numberedItems].
  now rewrite itemNumber_numberOf, itemOutput_itemBlock, IH.
Qed.

Lemma processOl_numberedItems tag attrs kids stack :
  processOl (Element tag attrs kids) stack =
  numberedItems stack (firstCounter attrs) (List.filter (hasTag "li") kids).
Proof.
  now rewrite processOl_numberedWith, startNumber_firstCounter,
    numberedWith_numberedItems.
Qed.





(** C6, as the code has it.  The synthesizer is a total function of the
    tree and of its attribute values.  Without a start attribute, or with an
    empty one, the first item of a list is numbered 1; with a non-empty one
    it is numbered parseInt(start) - 1 + 1.  A non-empty value attribute
    numbers its item parseInt(value), whatever the counter, and the
    following items continue from that number; without one the item is
    numbered the counter plus one.  No range is checked: for one to fifteen
    decimal digits, with or without a minus sign before them, the number is
    the integer written, negative numbers and 0 included. *)
Theorem processOl_attributes :
  (forall tag attrs kids stack,
     processOl (Element tag attrs kids) stack =
     numberedItems stack (firstCounter attrs)
       (List.filter (hasTag "li") kids)) /\
  (forall attrs li,
     getAttribute "start" attrs = None \/ getAttribute "start" attrs = Some [] ->
     getAttribute "value" (attributes li) = None \/
     getAttribute "value" (attributes li) = Some [] ->
     numberOf (firstCounter attrs) li = Int 1) /\
  (forall attrs v li,
     getAttribute "start" attrs = Some v -> v <> [] ->
     getAttribute "value" (attributes li) = None \/
     getAttribute "value" (attributes li) = Some [] ->
     numberOf (firstCounter attrs) li = addInt (addInt (parseInt v) (-1)) 1) /\
  (forall counter li v,
     getAttribute "value" (attributes li) = Some v -> v <> [] ->
     numberOf counter li = parseInt v) /\
  (forall counter li,
     getAttribute "value" (attributes li) = None \/
     getAttribute "value" (attributes li) = Some [] ->
     numberOf counter li = addInt counter 1) /\
  (forall ds,
     digitGroup ds -> shortDigits ds ->
     parseInt ds = Int (digitsValue ds) /\
     parseInt (45 :: ds) = Int (- digitsValue ds) /\
     addInt (addInt (parseInt ds) (-1)) 1 = Int (digitsValue ds) /\
     addInt (addInt (parseInt (45 :: ds)) (-1)) 1 = Int (- digitsValue ds)).
Proof.
  assert (Hnext : forall counter li,
    getAttribute "value" (attributes li) = None \/
    getAttribute "value" (attributes li) = Some [] ->
    numberOf counter li = addInt counter 1).
  { intros counter li [H|H]; unfold numberOf; now rewrite H. }
  split; [|split; [|split; [|split; [|split]]]].
  - apply processOl_numberedItems.
  - intros attrs li Hs Hv. rewrite (Hnext _ _ Hv).
    unfold firstCounter. destruct Hs as [Hs|Hs]; now rewrite Hs.
  - intros attrs v li Hs Hne Hv. rewrite (Hnext _ _ Hv).
    unfold firstCounter. rewrite Hs. destruct v; [congruence|reflexivity].
  - intros counter li v Hv Hne. unfold numberOf. rewrite Hv.
    destruct v; [congruence|reflexivity].
  - exact Hnext.
  - intros ds [Hne Hd] _. destruct ds as [|d ds]; [congruence|].
    rewrite (parseInt_digits _ _ Hd), (parseInt_minus_digits _ _ Hd).
    cbn [addInt]. repeat split; f_equal; lia.
Qed.

Lemma processOl_attributes_witness :
  numberOf (firstCounter [("start"%string, str "-2")])
    (Element "li" [] [TextNode (str "a")]) =
    addInt (addInt (parseInt (str "-2")) (-1)) 1 /\
  addInt (addInt (parseInt (str "-2")) (-1)) 1 = Int (-2) /\
  numberOf (Int 7) (Element "li" [("value"%string, str "3")] []) = Int 3.
Proof.
  destruct processOl_attributes as (_ & _ & H3 & H4 & _ & H6). split; [|split].
  - apply H3; [reflexivity|discriminate|now left].
  - apply (H6 (str "2")).
    + split; [discriminate|repeat constructor].
    + unfold shortDigits. cbn. lia.
  - rewrite (H4 (Int 7) _ (str "3")); [|reflexivity|discriminate].
    apply (H6 (str "3")).
    + split; [discriminate|repeat constructor].
    + unfold shortDigits. cbn. lia.
Defined.

(** C6 as stated fails: a start attribute of 0 and a value attribute of -2
    are not replaced by the default counter value, they number the items. *)
Lemma processOl_no_fallback_counterexample :
  processOl
    (Element "ol" [("start"%string, str "0")]
       [Element "li" [] [TextNode (str "a")];
        Element "li" [] [TextNode (str "b")]]) [] =
    [str "0 a"; str "1 b"] /\
  processOl
    (Element "ol" []
       [Element "li" [] [TextNode (str "a")];
        Element "li" [("value"%string, str "-2")] [TextNode (str "b")];
        Element "li" [] [TextNode (str "c")]]) [] =
    [str "1 a"; str "-2 b"; str "-1 c"] /\
  processOl
    (Element "ol" [("start"%string, str "0")]
       [Element "li" [] [TextNode (str "a")];
        Element "li" [] [TextNode (str "b")]]) [] <>
  processOl
    (Element "ol" []
       [Element "li" [] [TextNode (str "a")];
        Element "li" [] [TextNode (str "b")]]) [].
Proof.
  split; [reflexivity|]. split; [reflexivity|]. discriminate.
Qed.

(** * The arithmetic of the program

    The program computes on doubles.  The renumberer and the checker are
    stated once more over any numbers, run on doubles, and compared with
    the embedding on exact integers. *)

(** ** Rounding to a double *)

Section Rounding.
Local Open Scope Z_scope.

Lemma roundMag_small z : (z < 2 ^ 53)%Z -> roundMag z = z.
Proof. intros H. unfold roundMag. now rewrite (proj2 (Z.ltb_lt _ _) H). Qed.

(** The shape of a rounded number from 2^53 on: a significand [q] of 53
    bits and an exponent [e], rounded down or up by one unit of the last
    place. *)
Lemma roundMag_big z :
  (2 ^ 53 <= z)%Z ->
  exists e q r : Z,
    (1 <= e /\ Z.log2 z = 52 + e /\ z = q * 2 ^ e + r /\ 0 <= r < 2 ^ e /\
     2 ^ 52 <= q < 2 ^ 53 /\
     (roundMag z = q * 2 ^ e \/ roundMag z = (q + 1) * 2 ^ e) /\
     (r < 2 ^ (e - 1) -> roundMag z = q * 2 ^ e))%Z.
Proof.
  intros Hz.
  assert (Hpos : (0 < z)%Z) by lia.
  destruct (Z.log2_spec z Hpos) as [Hlo Hhi].
  assert (Hm : (53 <= Z.log2 z)%Z).
  { rewrite <- (Z.log2_pow2 53) by lia. now apply Z.log2_le_mono. }
  unfold roundMag. rewrite (proj2 (Z.ltb_ge _ _) Hz). cbv zeta.
  set (m := Z.log2 z) in *. set (e := (m - 52)%Z).
  assert (He : (1 <= e)%Z) by (unfold e; lia).
  assert (Hpe : (0 < 2 ^ e)%Z) by (apply Z.pow_pos_nonneg; lia).
  assert (Hm1 : (2 ^ m = 2 ^ 52 * 2 ^ e)%Z).
  { rewrite <- Z.pow_add_r by lia. f_equal. unfold e. lia. }
  assert (Hm2 : (2 ^ Z.succ m = 2 ^ 53 * 2 ^ e)%Z).
  { rewrite <- Z.pow_add_r by lia. f_equal. unfold e. lia. }
  pose proof (Z.div_mod z (2 ^ e) ltac:(lia)) as Hdm.
  pose proof (Z.mod_pos_bound z (2 ^ e) Hpe) as Hr.
  assert (Hq : (2 ^ 52 <= z / 2 ^ e < 2 ^ 53)%Z).
  { split.
    - apply Z.div_le_lower_bound; lia.
    - apply Z.div_lt_upper_bound; lia. }
  exists e, (z / 2 ^ e)%Z, (z mod 2 ^ e)%Z.
  split; [exact He|]. split; [unfold e; lia|]. split; [lia|].
  split; [exact Hr|]. split; [exact Hq|]. split.
  - destruct (z mod 2 ^ e <? 2 ^ (e - 1))%Z; [now left|].
    destruct (2 ^ (e - 1) <? z mod 2 ^ e)%Z; [now right|].
    destruct (Z.even (z / 2 ^ e)); [now left|now right].
  - intros Hlt. now rewrite (proj2 (Z.ltb_lt _ _) Hlt).
Qed.

Lemma log2_grid a e :
  (0 <= e)%Z -> (2 ^ 52 <= a < 2 ^ 53)%Z -> Z.log2 (a * 2 ^ e) = (52 + e)%Z.
Proof.
  intros He Ha.
  assert (Hpe : (0 < 2 ^ e)%Z) by (apply Z.pow_pos_nonneg; lia).
  apply Z.log2_unique; [lia|].
  replace (Z.succ (52 + e)) with (53 + e)%Z by lia.
  rewrite !Z.pow_add_r by lia. nia.
Qed.

(** A number with 53 significant bits is its own double. *)
Lemma roundMag_grid a e :
  (0 <= e)%Z -> (2 ^ 52 <= a <= 2 ^ 53)%Z ->
  roundMag (a * 2 ^ e) = (a * 2 ^ e)%Z.
Proof.
  intros He Ha.
  assert (Hpe : (0 < 2 ^ e)%Z) by (apply Z.pow_pos_nonneg; lia).
  destruct (Z.lt_ge_cases (a * 2 ^ e) (2 ^ 53)) as [Hs|Hb];
    [now apply roundMag_small|].
  assert (Hgen : forall b f, (1 <= f)%Z -> (2 ^ 52 <= b < 2 ^ 53)%Z ->
    roundMag (b * 2 ^ f) = (b * 2 ^ f)%Z).
  { intros b f Hf Hb'.
    assert (Hpf : (0 < 2 ^ f)%Z) by (apply Z.pow_pos_nonneg; lia).
    assert (Hpf1 : (0 < 2 ^ (f - 1))%Z) by (apply Z.pow_pos_nonneg; lia).
    assert (H2f : (2 <= 2 ^ f)%Z).
    { change 2%Z with (2 ^ 1)%Z at 1. apply Z.pow_le_mono_r; lia. }
    unfold roundMag.
    rewrite (proj2 (Z.ltb_ge (b * 2 ^ f) (2 ^ 53))) by nia.
    cbv zeta. rewrite log2_grid by lia.
    replace (52 + f - 52)%Z with f by lia.
    rewrite Z.div_mul, Z.mod_mul by lia.
    now rewrite (proj2 (Z.ltb_lt 0 (2 ^ (f - 1))) Hpf1). }
  destruct (Z.eq_dec a (2 ^ 53)) as [->|Hne].
  - replace (2 ^ 53 * 2 ^ e)%Z with (2 ^ 52 * 2 ^ (e + 1))%Z
      by (rewrite (Z.pow_add_r 2 e 1) by lia; lia).
    apply Hgen; lia.
  - destruct (Z.eq_dec e 0) as [->|He0].
    + rewrite Z.pow_0_r, Z.mul_1_r in *. lia.
    + apply Hgen; lia.
Qed.

Lemma roundMag_idem z : (0 <= z)%Z -> roundMag (roundMag z) = roundMag z.
Proof.
  intros Hz. destruct (Z.lt_ge_cases z (2 ^ 53)) as [Hs|Hb].
  - now rewrite !(roundMag_small z Hs).
  - destruct (roundMag_big z Hb) as (e & q & r & He & _ & _ & _ & Hq & [->| ->] & _);
      apply roundMag_grid; lia.
Qed.

Lemma roundMag_nonneg z : (0 <= z)%Z -> (0 <= roundMag z)%Z.
Proof.
  intros Hz. destruct (Z.lt_ge_cases z (2 ^ 53)) as [Hs|Hb].
  - now rewrite (roundMag_small z Hs).
  - destruct (roundMag_big z Hb) as (e & q & r & He & _ & _ & _ & Hq & [->| ->] & _);
      assert (0 < 2 ^ e)%Z by (apply Z.pow_pos_nonneg; lia); nia.
Qed.

(** Rounding does not cross a number with 53 significant bits. *)
Lemma roundMag_le_grid v a e :
  (0 <= e)%Z -> (2 ^ 52 <= a <= 2 ^ 53)%Z ->
  (v <= a * 2 ^ e)%Z -> (roundMag v <= a * 2 ^ e)%Z.
Proof.
  intros He Ha Hv.
  assert (Hpe : (0 < 2 ^ e)%Z) by (apply Z.pow_pos_nonneg; lia).
  destruct (Z.lt_ge_cases v (2 ^ 53)) as [Hs|Hb];
    [now rewrite (roundMag_small v Hs)|].
  destruct (roundMag_big v Hb) as (f & q & r & Hf & Hlog & Hvq & Hr & Hq & Hround & Hdown).
  assert (Hpf : (0 < 2 ^ f)%Z) by (apply Z.pow_pos_nonneg; lia).
  assert (Hpf1 : (0 < 2 ^ (f - 1))%Z) by (apply Z.pow_pos_nonneg; lia).
  destruct (Z.lt_trichotomy f e) as [Hlt|[Heq|Hgt]].
  - assert (H2 : (2 * 2 ^ f <= 2 ^ e)%Z).
    { replace (2 * 2 ^ f)%Z with (2 ^ (f + 1))%Z
        by (rewrite Z.pow_add_r by lia; lia).
      apply Z.pow_le_mono_r; lia. }
    destruct Hround as [->| ->]; nia.
  - subst f. assert (Hqa : (q <= a)%Z) by nia.
    destruct (Z.eq_dec q a) as [->|Hne].
    + rewrite Hdown by nia. lia.
    + destruct Hround as [->| ->]; nia.
  - assert (H2 : (2 * 2 ^ e <= 2 ^ f)%Z).
    { replace (2 * 2 ^ e)%Z with (2 ^ (e + 1))%Z
        by (rewrite Z.pow_add_r by lia; lia).
      apply Z.pow_le_mono_r; lia. }
    rewrite Hdown by nia. nia.
Qed.

Lemma roundMag_ge_grid v a e :
  (0 <= e)%Z -> (2 ^ 52 <= a <= 2 ^ 53)%Z ->
  (a * 2 ^ e <= v)%Z -> (a * 2 ^ e <= roundMag v)%Z.
Proof.
  intros He Ha Hv.
  assert (Hpe : (0 < 2 ^ e)%Z) by (apply Z.pow_pos_nonneg; lia).
  destruct (Z.lt_ge_cases v (2 ^ 53)) as [Hs|Hb];
    [now rewrite (roundMag_small v Hs)|].
  destruct (roundMag_big v Hb) as (f & q & r & Hf & Hlog & Hvq & Hr & Hq & Hround & Hdown).
  assert (Hpf : (0 < 2 ^ f)%Z) by (apply Z.pow_pos_nonneg; lia).
  destruct (Z.lt_trichotomy f e) as [Hlt|[Heq|Hgt]].
  - assert (H2 : (2 * 2 ^ f <= 2 ^ e)%Z).
    { replace (2 * 2 ^ f)%Z with (2 ^ (f + 1))%Z
        by (rewrite Z.pow_add_r by lia; lia).
      apply Z.pow_le_mono_r; lia. }
    nia.
  - subst f. assert (Hqa : (a <= q)%Z) by nia.
    destruct Hround as [->| ->]; nia.
  - assert (H2 : (2 * 2 ^ e <= 2 ^ f)%Z).
    { replace (2 * 2 ^ e)%Z with (2 ^ (e + 1))%Z
        by (rewrite Z.pow_add_r by lia; lia).
      apply Z.pow_le_mono_r; lia. }
    destruct Hround as [->| ->]; nia.
Qed.

(** From 2^54 on, adding 1 to a double changes nothing. *)
Lemma roundMag_succ_big z :
  roundMag z = z -> (2 ^ 54 <= z)%Z -> roundMag (z + 1) = z.
Proof.
  intros Hd Hz.
  destruct (roundMag_big z ltac:(lia)) as (e & q & r & He & Hlog & Hzq & Hr & Hq & Hround & _).
  assert (He2 : (2 <= e)%Z).
  { assert (54 <= Z.log2 z)%Z; [|lia].
    rewrite <- (Z.log2_pow2 54) by lia. now apply Z.log2_le_mono. }
  assert (Hpe : (0 < 2 ^ e)%Z) by (apply Z.pow_pos_nonneg; lia).
  assert (Hpe1 : (2 * 2 ^ (e - 1) = 2 ^ e)%Z).
  { replace e with (e - 1 + 1)%Z at 2 by lia. rewrite Z.pow_add_r by lia. lia. }
  assert (Hpe2 : (2 <= 2 ^ (e - 1))%Z).
  { change 2%Z with (2 ^ 1)%Z at 1. apply Z.pow_le_mono_r; lia. }
  assert (Hr0 : r = 0%Z) by (rewrite Hd in Hround; nia).
  subst r. rewrite Z.add_0_r in Hzq.
  assert (Hlog1 : Z.log2 (z + 1) = (52 + e)%Z).
  { apply Z.log2_unique; [lia|].
    replace (Z.succ (52 + e)) with (53 + e)%Z by lia.
    rewrite !Z.pow_add_r by lia. nia. }
  unfold roundMag. rewrite (proj2 (Z.ltb_ge (z + 1) (2 ^ 53))) by lia.
  cbv zeta. rewrite Hlog1. replace (52 + e - 52)%Z with e by lia.
  assert (Hdiv : ((z + 1) / 2 ^ e = q)%Z).
  { symmetry. apply (Z.div_unique (z + 1) (2 ^ e) q 1); lia. }
  assert (Hmod : ((z + 1) mod 2 ^ e = 1)%Z).
  { symmetry. apply (Z.mod_unique (z + 1) (2 ^ e) q 1); lia. }
  rewrite Hdiv, Hmod.
  rewrite (proj2 (Z.ltb_lt 1 (2 ^ (e - 1)))) by lia. lia.
Qed.

End Rounding.

(** ** Text that the pattern cannot read *)

Lemma numTail_stop n : forall u, (length u <= n)%nat ->
  Forall (fun x => isDigit x = true \/ x = DOT) u ->
  forall c v, isDigit c = false -> c <> DOT ->
  exists m r', numTail (u ++ c :: v) = (m, r' ++ c :: v) /\
    (r' = [] \/
     exists t, r' = DOT :: t /\
       Forall (fun x => isDigit x = true \/ x = DOT) t /\
       match t with [] => True | y :: _ => isDigit y = false end).
Proof.
  induction n as [|n IH]; intros u Hlen Hu c v Hc Hdot.
  - destruct u; [|cbn in Hlen; lia]. cbn [app numTail].
    rewrite Hc, (proj2 (N.eqb_neq _ _) Hdot). exists [], []. split; [reflexivity|now left].
  - destruct u as [|x u'].
    + cbn [app numTail].
      rewrite Hc, (proj2 (N.eqb_neq _ _) Hdot). exists [], []. split; [reflexivity|now left].
    + cbn [length] in Hlen. pose proof (Forall_inv Hu) as Hx.
      pose proof (Forall_inv_tail Hu) as Hu'. cbv beta in Hx.
      cbn [app numTail]. destruct (isDigit x) eqn:Ex.
      * destruct (IH u' ltac:(lia) Hu' c v Hc Hdot) as (m & r' & Hn & Hr).
        rewrite Hn. exists (x :: m), r'. split; [reflexivity|exact Hr].
      * destruct Hx as [Hx|Hx]; [congruence|]. subst x. rewrite N.eqb_refl.
        destruct u' as [|y u''].
        -- cbn [app]. rewrite Hc. exists [], [DOT]. split; [reflexivity|].
           right. exists []. split; [reflexivity|]. split; [constructor|exact I].
        -- cbn [app]. cbn [length] in Hlen. destruct (isDigit y) eqn:Ey.
           ++ destruct (IH u'' ltac:(lia) (Forall_inv_tail Hu') c v Hc Hdot)
                as (m & r' & Hn & Hr).
              rewrite Hn. exists (DOT :: y :: m), r'. split; [reflexivity|exact Hr].
           ++ exists [], (DOT :: y :: u''). split; [reflexivity|].
              right. exists (y :: u''). split; [reflexivity|]. split; [exact Hu'|exact Ey].
Qed.

Lemma matchHier_unreadable s : unreadable s -> forall rest, matchHier (s ++ rest) = None.
Proof.
  intros (u & c & b & -> & Hu & Hc & Hdot & Hpar & Hws) rest.
  rewrite <- app_assoc. cbn [app]. set (v := b ++ rest). clearbody v.
  unfold matchHier. destruct u as [|x u'].
  - cbn [app dropWhile]. now rewrite Hws, Hc.
  - pose proof (Forall_inv Hu) as Hx. cbv beta in Hx.
    pose proof (Forall_inv_tail Hu) as Hu'.
    assert (Hxws : isWs x = false).
    { destruct Hx as [Hx| ->]; [now apply digit_not_ws|reflexivity]. }
    cbn [app dropWhile]. rewrite Hxws.
    destruct (isDigit x) eqn:Ex; [|reflexivity].
    destruct (numTail_stop (length u') u' (le_n _) Hu' c v Hc Hdot)
      as (m & r' & Hn & Hr).
    rewrite Hn. destruct Hr as [->|(t & -> & Ht & Hhead)].
    + cbn [app].
      rewrite (proj2 (N.eqb_neq _ _) Hdot), (proj2 (N.eqb_neq _ _) Hpar).
      cbn [orb]. now rewrite Hws.
    + cbn [app]. rewrite N.eqb_refl. cbn [orb].
      destruct t as [|y t']; cbn [app]; [now rewrite Hws|].
      destruct (Forall_inv Ht) as [Hy| ->]; [congruence|reflexivity].
Qed.

Lemma join_app_cons sep l1 : forall (x : jsstring) l2,
  join sep (l1 ++ x :: l2) =
  flat_map (fun g => g ++ sep) l1 ++ x ++ flat_map (fun g => sep ++ g) l2.
Proof.
  induction l1 as [|g l1 IH]; intros x l2.
  - cbn [app flat_map]. revert x. induction l2 as [|y l2 IHl]; intros x.
    + cbn. now rewrite app_nil_r.
    + change (join sep (x :: y :: l2)) with (x ++ sep ++ join sep (y :: l2)).
      rewrite IHl. cbn [flat_map]. now rewrite <- !app_assoc.
  - cbn [app flat_map]. rewrite <- app_assoc.
    destruct (l1 ++ x :: l2) as [|y rest] eqn:E.
    + destruct l1; discriminate.
    + change (join sep (g :: y :: rest)) with (g ++ sep ++ join sep (y :: rest)).
      rewrite <- E, IH. now rewrite <- !app_assoc.
Qed.

(** ** renumberHierarchical over any numbers *)

Section RenumberOverFacts.
Context {num : Type}.
Variable parseNum : jsstring -> num.
Variable plusOne : num -> num.
Variable oneNum : num.
Variable undefinedNum : num.
Variable showNum : num -> jsstring.

Local Abbreviation expectedP := (expectedPathOver plusOne oneNum undefinedNum).
Local Abbreviation joinP := (joinPathOver showNum).
Local Abbreviation renumberF :=
  (renumberFromOver parseNum plusOne oneNum undefinedNum showNum).

Lemma renumberStepOver_loop ps : forall i out current,
  fst (forEachFrom i
         (renumberStepOver parseNum plusOne oneNum undefinedNum showNum)
         ps (out, current)) =
  out ++ renumberF current ps.
Proof.
  induction ps as [|p t IH]; intros i out current;
    cbn [forEachFrom renumberFromOver].
  - cbn. now rewrite app_nil_r.
  - unfold renumberStepOver at 2. cbn [fst snd].
    destruct (matchHier p) as [[[n delim] restRaw]|].
    + rewrite IH, <- app_assoc. reflexivity.
    + rewrite IH, <- app_assoc. reflexivity.
Qed.

Lemma renumberOver_from ps :
  renumberOver parseNum plusOne oneNum undefinedNum showNum ps = renumberF [] ps.
Proof. unfold renumberOver, forEach. now rewrite renumberStepOver_loop. Qed.

Lemma iter_ones k (e : list num) :
  Nat.iter k (fun acc => acc ++ [oneNum]) e = e ++ repeat oneNum k.
Proof.
  induction k as [|k IH].
  - cbn. now rewrite app_nil_r.
  - rewrite Nat.iter_succ, IH, <- app_assoc. f_equal. symmetry. apply repeat_cons.
Qed.

(** The four depth rules in two: a path read that is not deeper than the
    carried one truncates it and increments the last number kept; a deeper
    one appends 1s. *)
Lemma expectedPathOver_cases current fnd :
  current <> [] -> fnd <> [] ->
  expectedP current fnd =
    if (length fnd <=? length current)%nat
    then take (length fnd - 1) current
         ++ [plusOne (nth (length fnd - 1) current undefinedNum)]
    else current ++ repeat oneNum (length fnd - length current).
Proof.
  intros Hc Hf. unfold expectedPathOver. cbv zeta.
  assert (Hlc : (0 < length current)%nat) by (destruct current; [congruence|cbn; lia]).
  assert (Hlf : (0 < length fnd)%nat) by (destruct fnd; [congruence|cbn; lia]).
  rewrite (proj2 (Nat.eqb_neq (length current) 0)) by lia.
  destruct (Nat.eqb_spec (length fnd) (length current)) as [E|E].
  - rewrite E, Nat.leb_refl. reflexivity.
  - destruct (Nat.eqb_spec (length fnd) (length current + 1)) as [E1|E1].
    + rewrite (proj2 (Nat.leb_gt _ _)) by lia. rewrite E1.
      replace (length current + 1 - length current)%nat with 1%nat by lia.
      reflexivity.
    + destruct (Nat.ltb_spec (length fnd) (length current)).
      * rewrite (proj2 (Nat.leb_le _ _)) by lia. reflexivity.
      * rewrite (proj2 (Nat.leb_gt _ _)) by lia. apply iter_ones.
Qed.

Lemma expectedPathOver_length current fnd :
  fnd <> [] -> length (expectedP current fnd) = length fnd.
Proof.
  intros Hf. destruct current as [|c0 cur] eqn:Ec; [reflexivity|]. rewrite <- Ec.
  assert (Hc : current <> []) by (rewrite Ec; discriminate).
  assert (Hlf : (0 < length fnd)%nat) by (destruct fnd; [congruence|cbn; lia]).
  rewrite expectedPathOver_cases by assumption.
  destruct (Nat.leb_spec (length fnd) (length current)).
  - rewrite length_app, length_take. cbn [length]. lia.
  - rewrite length_app, repeat_length. lia.
Qed.

Lemma expectedPathOver_depth_only current f1 f2 :
  current <> [] -> length f1 = length f2 ->
  expectedP current f1 = expectedP current f2.
Proof.
  intros Hne Hlen. unfold expectedPathOver. cbv zeta. rewrite Hlen.
  destruct current; [congruence|]. reflexivity.
Qed.

(** Numbers that the pattern reads back ([ok]) and numbers whose text it
    cannot read ([bad]): digits read back as the number they print, both
    kinds are kept by [+ 1], and 1 is read back. *)
Variables ok bad : num -> Prop.
Hypothesis parse_known :
  forall g, digitGroup g -> ok (parseNum g) \/ bad (parseNum g).
Hypothesis ok_show :
  forall x, ok x -> digitGroup (showNum x) /\ parseNum (showNum x) = x.
Hypothesis bad_show : forall x, bad x -> unreadable (showNum x).
Hypothesis ok_plusOne : forall x, ok x -> ok (plusOne x).
Hypothesis bad_plusOne : forall x, bad x -> bad (plusOne x).
Hypothesis ok_one : ok oneNum.

Lemma known_split l :
  Forall (fun x => ok x \/ bad x) l -> Forall ok l \/ firstBad ok bad l.
Proof.
  induction 1 as [|x l Hx Hl IH]; [left; constructor|].
  destruct Hx as [Hx|Hx].
  - destruct IH as [IH|(pre & b & post & -> & Hpre & Hb)].
    + left. now constructor.
    + right. exists (x :: pre), b, post. repeat split; auto.
  - right. exists [], x, l. repeat split; auto.
Qed.

Lemma parsed_known p n delim r :
  matchHier p = Some (n, delim, r) ->
  Forall (fun x => ok x \/ bad x) (List.map parseNum (split DOT n)) /\
  List.map parseNum (split DOT n) <> [] /\ isDelim delim.
Proof.
  intros Hm.
  destruct (matchHier_shape _ _ _ _ Hm) as (g & gs & -> & Hg & Hgs & Hd).
  rewrite split_dotted by (assumption || apply Hg). cbn [List.map].
  split; [|split; [discriminate|exact Hd]].
  constructor; [now apply parse_known|].
  clear Hm. induction Hgs as [|g1 gs Hg1 Hgs IH]; cbn [List.map];
    [constructor|].
  constructor; [now apply parse_known|exact IH].
Qed.

Lemma expectedPathOver_ok current fnd :
  current <> [] -> fnd <> [] -> Forall ok current ->
  Forall ok (expectedP current fnd).
Proof.
  intros Hc Hf Hok. rewrite expectedPathOver_cases by assumption.
  assert (Hlf : (0 < length fnd)%nat) by (destruct fnd; [congruence|cbn; lia]).
  destruct (Nat.leb_spec (length fnd) (length current)) as [Hle|Hgt].
  - apply List.Forall_app. split; [now apply Forall_take|].
    constructor; [|constructor]. apply ok_plusOne.
    apply (proj1 (List.Forall_forall _ _) Hok). apply nth_In. lia.
  - apply List.Forall_app. split; [exact Hok|].
    apply List.Forall_forall. intros x Hx. apply repeat_spec in Hx. now subst.
Qed.

Lemma expectedPathOver_bad pre b post fnd :
  fnd <> [] -> Forall ok pre -> bad b ->
  Forall ok (expectedP (pre ++ b :: post) fnd) \/
  firstBad ok bad (expectedP (pre ++ b :: post) fnd).
Proof.
  intros Hf Hpre Hb.
  assert (Hlf : (0 < length fnd)%nat) by (destruct fnd; [congruence|cbn; lia]).
  rewrite expectedPathOver_cases by (assumption || (destruct pre; discriminate)).
  rewrite length_app. cbn [length].
  destruct (Nat.leb_spec (length fnd) (length pre + S (length post))) as [Hle|Hgt].
  - destruct (lt_eq_lt_dec (length fnd - 1) (length pre)) as [[Hlt|Heq]|Hgt].
    + left. rewrite take_app_le by lia. rewrite app_nth1 by lia.
      apply List.Forall_app. split; [now apply Forall_take|].
      constructor; [|constructor]. apply ok_plusOne.
      apply (proj1 (List.Forall_forall _ _) Hpre). apply nth_In. lia.
    + right. rewrite Heq, take_app_length, nth_middle.
      exists pre, (plusOne b), []. repeat split; auto.
    + right. rewrite take_app_ge by lia.
      destruct (length fnd - 1 - length pre)%nat as [|j] eqn:Ej; [lia|].
      cbn [take]. rewrite <- app_assoc. cbn [app].
      eexists pre, b, _. repeat split; auto.
  - right. rewrite <- app_assoc. cbn [app].
    eexists pre, b, _. repeat split; auto.
Qed.

Lemma readable_output e delim r :
  e <> [] -> Forall ok e -> isDelim delim ->
  matchHier (joinP e ++ delim ++ [SPACE] ++ norm r) =
    Some (joinP e, delim, norm r) /\
  List.map parseNum (split DOT (joinP e)) = e.
Proof.
  intros Hne He Hdelim. destruct e as [|x e]; [congruence|]. clear Hne.
  unfold joinPathOver. cbn [List.map]. rewrite join_dotTail.
  destruct (ok_show x (Forall_inv He)) as [[Hxne Hxd] Hxp].
  assert (Hgs : Forall digitGroup (List.map showNum e)).
  { apply Forall_inv_tail in He.
    induction He as [|y e Hy He IH]; cbn [List.map]; [constructor|].
    constructor; [apply (ok_show y Hy)|exact IH]. }
  assert (Hback : List.map parseNum (List.map showNum e) = e).
  { clear Hgs. apply Forall_inv_tail in He.
    induction He as [|y e Hy He IH]; [reflexivity|].
    cbn [List.map]. rewrite IH. f_equal. exact (proj2 (ok_show y Hy)). }
  destruct (showNum x) as [|dd g0] eqn:Ex; [congruence|]. split.
  - rewrite <- app_assoc. cbn [app]. apply matchHier_build; auto.
    + exact (Forall_inv Hxd).
    + exact (Forall_inv_tail Hxd).
    + apply headNotWs_norm.
    + apply (spaced_no_lineTerminator _ false), spaced_norm.
  - rewrite split_dotted by assumption. cbn [List.map].
    now rewrite Hxp, Hback.
Qed.

Lemma unreadable_output e rest :
  firstBad ok bad e -> matchHier (joinP e ++ rest) = None.
Proof.
  intros (pre & b & post & -> & Hpre & Hb).
  apply matchHier_unreadable.
  unfold joinPathOver. rewrite List.map_app. cbn [List.map]. rewrite join_app_cons.
  destruct (bad_show b Hb) as (a & c & bb & -> & Ha & Hc).
  exists (flat_map (fun g => g ++ [DOT]) (List.map showNum pre) ++ a), c,
         (bb ++ flat_map (fun g => [DOT] ++ g) (List.map showNum post)).
  split; [now rewrite <- !app_assoc|]. split; [|exact Hc].
  apply List.Forall_app. split; [|exact Ha].
  induction Hpre as [|x pre Hx Hpre IH]; [constructor|].
  cbn [List.map flat_map]. apply List.Forall_app. split; [|exact IH].
  apply List.Forall_app. split; [|repeat constructor; now right].
  destruct (ok_show x Hx) as [[_ Hd] _].
  eapply List.Forall_impl; [|exact Hd]. intros u Hu. now left.
Qed.

(** The second pass either carries the path of the first pass, all of whose
    numbers it reads back, or has read no number yet while the first pass
    carries a number that cannot be read back. *)
Lemma renumberFromOver_idem ps : forall cur1 cur2,
  (Forall ok cur1 /\ cur2 = cur1) \/ (cur2 = [] /\ firstBad ok bad cur1) ->
  renumberF cur2 (renumberF cur1 ps) = renumberF cur1 ps.
Proof.
  induction ps as [|p t IH]; intros cur1 cur2 HI; [reflexivity|].
  cbn [renumberFromOver].
  destruct (matchHier p) as [[[n delim] r]|] eqn:Hm.
  2: { cbn [renumberFromOver]. rewrite Hm. f_equal. now apply IH. }
  cbv zeta.
  destruct (parsed_known _ _ _ _ Hm) as (Hknown & Hfne & Hdelim).
  pose proof (expectedPathOver_length cur1 _ Hfne) as Hlen.
  assert (He1ne : expectedP cur1 (List.map parseNum (split DOT n)) <> []).
  { intros E. rewrite E in Hlen.
    destruct (List.map parseNum (split DOT n)); [congruence|discriminate]. }
  assert (Hcase :
    (Forall ok (expectedP cur1 (List.map parseNum (split DOT n))) /\
     expectedP cur2 (expectedP cur1 (List.map parseNum (split DOT n))) =
       expectedP cur1 (List.map parseNum (split DOT n))) \/
    (firstBad ok bad (expectedP cur1 (List.map parseNum (split DOT n))) /\
     cur2 = [])).
  { destruct HI as [[Hok ->]|[-> Hbad]].
    - destruct cur1 as [|c0 c'].
      + destruct (known_split _ Hknown) as [H|H]; [left|right]; split; auto.
      + left. split.
        * apply expectedPathOver_ok; [discriminate|exact Hfne|exact Hok].
        * apply expectedPathOver_depth_only; [discriminate|exact Hlen].
    - destruct Hbad as (pre & b & post & -> & Hpre & Hb).
      destruct (expectedPathOver_bad pre b post _ Hfne Hpre Hb) as [H|H];
        [left|right]; split; auto. }
  destruct Hcase as [[Hok Hagain]|[Hbad ->]].
  - destruct (readable_output _ delim r He1ne Hok Hdelim) as [Hm2 Hback].
    cbn [renumberFromOver]. rewrite Hm2. cbv zeta. rewrite Hback, Hagain, norm_idem.
    f_equal. apply IH. now left.
  - cbn [renumberFromOver]. rewrite (unreadable_output _ _ Hbad).
    f_equal. apply IH. now right.
Qed.

Lemma renumberOver_idem ps :
  renumberOver parseNum plusOne oneNum undefinedNum showNum
    (renumberOver parseNum plusOne oneNum undefinedNum showNum ps) =
  renumberOver parseNum plusOne oneNum undefinedNum showNum ps.
Proof.
  rewrite !renumberOver_from. apply renumberFromOver_idem.
  left. split; [constructor|reflexivity].
Qed.

End RenumberOverFacts.

(** ** Doubles: reading and printing *)

Section DoubleFacts.
Local Open Scope Z_scope.

Lemma toDbl_nonneg v :
  0 <= v ->
  toDbl v = if roundMag v <? 2 ^ 1024 then DInt (roundMag v) else DInf false.
Proof.
  intros Hv. unfold toDbl. rewrite Z.abs_eq by lia.
  destruct (roundMag v <? 2 ^ 1024).
  - f_equal. destruct (Z.eq_dec v 0) as [->|Hne]; [reflexivity|].
    rewrite Z.sgn_pos by lia. lia.
  - f_equal. apply Z.ltb_ge. lia.
Qed.

Lemma readsAs_spec v z : 0 <= v -> readsAs v z = true -> roundMag v = z.
Proof.
  intros Hv. unfold readsAs. rewrite toDbl_nonneg by exact Hv.
  destruct (roundMag v <? 2 ^ 1024); [|discriminate].
  now intros E%Z.eqb_eq.
Qed.

Lemma shortestFrom_spec z :
  0 <= z -> roundMag z = z ->
  forall n p, 0 <= p ->
    0 <= shortestFrom z p n /\ roundMag (shortestFrom z p n) = z.
Proof.
  intros Hz Hd. induction n as [|n IH]; intros p Hp; cbn [shortestFrom].
  - split; assumption.
  - assert (Hq : 0 <= z / p).
    { destruct (Z.eq_dec p 0) as [->|Hne]; [now rewrite Z.div_0_r|].
      apply Z.div_pos; lia. }
    assert (Hlo : 0 <= z / p * p) by nia.
    assert (Hhi : 0 <= z / p * p + p) by lia.
    destruct (readsAs (z / p * p) z) eqn:Elo;
      destruct (readsAs (z / p * p + p) z) eqn:Ehi; cbn [andb].
    + destruct (z - z / p * p <? z / p * p + p - z);
        [|destruct (z / p * p + p - z <? z - z / p * p);
          [|destruct (Z.even (z / p))]];
        split; auto using readsAs_spec.
    + split; auto using readsAs_spec.
    + split; auto using readsAs_spec.
    + apply IH. destruct (Z.eq_dec p 0) as [->|Hne]; [reflexivity|].
      apply Z.div_pos; lia.
Qed.

Lemma shortest_spec z :
  isDouble z -> 0 <= shortest z /\ roundMag (shortest z) = z.
Proof.
  intros [Hz Hd]. unfold shortest.
  apply shortestFrom_spec; [exact Hz|exact Hd|]. apply Z.pow_nonneg. lia.
Qed.

Lemma ten21_grid : 10 ^ 21 = 7629394531250000 * 2 ^ 17.
Proof. reflexivity. Qed.

(** The number printed has more than 21 digits exactly when the double
    is 10^21 or more. *)
Lemma shortest_threshold z :
  isDouble z -> (shortest z < 10 ^ 21 <-> z < 10 ^ 21).
Proof.
  intros Hz. destruct (shortest_spec z Hz) as [Hv Hr]. split.
  - intros Hlt.
    assert (Hle : roundMag (shortest z) <= 7629394531250000 * 2 ^ 17).
    { apply roundMag_le_grid; [lia|lia|]. rewrite <- ten21_grid. lia. }
    rewrite Hr, <- ten21_grid in Hle.
    destruct (Z.eq_dec z (10 ^ 21)) as [->|Hne]; [|lia].
    vm_compute in Hlt. discriminate Hlt.
  - intros Hlt. destruct (Z.lt_ge_cases (shortest z) (10 ^ 21)) as [H|Hge];
      [exact H|].
    assert (Hle : 7629394531250000 * 2 ^ 17 <= roundMag (shortest z)).
    { apply roundMag_ge_grid; [lia|lia|]. rewrite <- ten21_grid. lia. }
    rewrite Hr, <- ten21_grid in Hle. lia.
Qed.

Lemma isDouble_roundMag v : 0 <= v -> isDouble (roundMag v).
Proof.
  intros Hv. split; [now apply roundMag_nonneg|now apply roundMag_idem].
Qed.

Lemma isDouble_small z : 0 <= z < 2 ^ 53 -> isDouble z.
Proof. intros H. split; [lia|apply roundMag_small; lia]. Qed.

Lemma parseIntDbl_digits d ds :
  Forall (fun c => isDigit c = true) (d :: ds) ->
  parseIntDbl (d :: ds) = toDbl (digitsValue (d :: ds)).
Proof.
  intros H. pose proof (Forall_inv H) as Hd.
  unfold parseIntDbl. cbn [dropWhile]. rewrite (digit_not_ws _ Hd).
  apply isDigit_range in Hd.
  rewrite !N_eqb_false_lt by lia.
  rewrite (takeWhile_all _ _ H). reflexivity.
Qed.

Lemma parseIntDbl_digitGroup g :
  digitGroup g -> parseIntDbl g = toDbl (digitsValue g) /\ 0 <= digitsValue g.
Proof.
  intros [Hne Hd]. destruct g as [|d ds]; [congruence|]. split.
  - now apply parseIntDbl_digits.
  - apply digitsValueFrom_nonneg; [exact Hd|lia].
Qed.

Lemma known_toDbl v : 0 <= v -> okDbl (toDbl v) \/ badDbl (toDbl v).
Proof.
  intros Hv. rewrite toDbl_nonneg by exact Hv.
  destruct (roundMag v <? 2 ^ 1024); [|right; right; now left].
  destruct (Z.lt_ge_cases (roundMag v) (10 ^ 21)) as [Hlt|Hge].
  - left. exists (roundMag v). auto using isDouble_roundMag.
  - right. right. right. exists (roundMag v). auto using isDouble_roundMag.
Qed.

Lemma parseIntDbl_known g :
  digitGroup g -> okDbl (parseIntDbl g) \/ badDbl (parseIntDbl g).
Proof.
  intros Hg. destruct (parseIntDbl_digitGroup g Hg) as [-> Hv].
  now apply known_toDbl.
Qed.

Lemma showDbl_ok x :
  okDbl x -> digitGroup (showDbl x) /\ parseIntDbl (showDbl x) = x.
Proof.
  intros (z & -> & Hz & Hlt).
  destruct (shortest_spec z Hz) as [Hv Hr].
  pose proof (proj2 (shortest_threshold z Hz) Hlt) as Hs.
  destruct Hz as [Hz0 Hzd].
  cbn [showDbl]. rewrite (proj2 (Z.ltb_ge z 0) Hz0).
  unfold showMag. cbv zeta. rewrite (proj2 (Z.ltb_lt _ _) Hs).
  assert (Hg : digitGroup (natToString (Z.to_N (shortest z)))).
  { split; [apply natToString_nonempty|apply unitsOfUint_digits]. }
  split; [exact Hg|].
  destruct (parseIntDbl_digitGroup _ Hg) as [-> _].
  rewrite digitsValue_natToString, Z2N.id by exact Hv.
  rewrite toDbl_nonneg by exact Hv. rewrite Hr.
  now rewrite (proj2 (Z.ltb_lt z (2 ^ 1024))) by lia.
Qed.

Lemma dropZerosEnd_Forall (P : N -> Prop) ds :
  Forall P ds -> Forall P (dropZerosEnd ds).
Proof.
  induction 1 as [|c t Hc Ht IH]; cbn [dropZerosEnd]; [constructor|].
  destruct (dropZerosEnd t).
  - destruct (c =? 48)%N; repeat constructor; exact Hc.
  - now constructor.
Qed.

Lemma showDbl_bad x : badDbl x -> unreadable (showDbl x).
Proof.
  intros [->|[->|(z & -> & Hz & Hge)]].
  - exists [], 78%N, (str "aN"). repeat split; (constructor || discriminate).
  - exists [], 73%N, (str "nfinity"). repeat split; (constructor || discriminate).
  - destruct (shortest_spec z Hz) as [Hv Hr].
    assert (Hs : ~ shortest z < 10 ^ 21)
      by (rewrite (shortest_threshold z Hz); lia).
    destruct Hz as [Hz0 Hzd].
    cbn [showDbl]. rewrite (proj2 (Z.ltb_ge z 0) Hz0).
    unfold showMag. cbv zeta. rewrite (proj2 (Z.ltb_ge _ _)) by lia.
    pose proof (natToString_nonempty (Z.to_N (shortest z))) as Hne.
    pose proof (unitsOfUint_digits (N.to_uint (Z.to_N (shortest z)))) as Hd.
    fold (natToString (Z.to_N (shortest z))) in Hd.
    destruct (natToString (Z.to_N (shortest z))) as [|lead more]; [congruence|].
    pose proof (dropZerosEnd_Forall _ _ (Forall_inv_tail Hd)) as Hfrac.
    exists (lead :: match dropZerosEnd more with
                    | [] => []
                    | frac => DOT :: frac
                    end),
           101%N, (43%N :: natToString (N.of_nat (length more))).
    split; [reflexivity|].
    split; [|repeat split; discriminate].
    constructor; [left; exact (Forall_inv Hd)|].
    destruct (dropZerosEnd more) as [|f0 frac]; [constructor|].
    constructor; [now right|].
    eapply List.Forall_impl; [|exact Hfrac]. intros u Hu. now left.
Qed.

Lemma addDbl_ok x : okDbl x -> okDbl (addDbl x 1).
Proof.
  intros (z & -> & Hz & Hlt). cbn [addDbl].
  assert (Hz0 : 0 <= z) by apply Hz.
  rewrite toDbl_nonneg by lia.
  assert (Hb : roundMag (z + 1) < 10 ^ 21).
  { destruct (Z.lt_ge_cases z (2 ^ 54)) as [Hs|Hbig].
    - assert (roundMag (z + 1) <= 2 ^ 52 * 2 ^ 2);
        [apply roundMag_le_grid; lia|lia].
    - rewrite (roundMag_succ_big z (proj2 Hz) Hbig). exact Hlt. }
  rewrite (proj2 (Z.ltb_lt _ (2 ^ 1024))) by lia.
  exists (roundMag (z + 1)). split; [reflexivity|].
  split; [apply isDouble_roundMag; lia|exact Hb].
Qed.

Lemma addDbl_bad x : badDbl x -> badDbl (addDbl x 1).
Proof.
  intros [->|[->|(z & -> & Hz & Hge)]].
  - now left.
  - right. now left.
  - cbn [addDbl]. assert (Hz0 : 0 <= z) by apply Hz.
    rewrite toDbl_nonneg by lia.
    rewrite (roundMag_succ_big z (proj2 Hz)) by lia.
    destruct (z <? 2 ^ 1024); [|right; now left].
    right. right. exists z. auto.
Qed.

Lemma okDbl_one : okDbl (DInt 1).
Proof. exists 1. split; [reflexivity|]. split; [apply isDouble_small|]; lia. Qed.

End DoubleFacts.

(** ** renumberHierarchical on doubles *)

Lemma renumberFromOver_exact ps : forall current,
  renumberFromOver parseInt (fun x => addInt x 1) (Int 1) NaN numToString
    current ps =
  renumberFrom current ps.
Proof.
  induction ps as [|p t IH]; intros current; [reflexivity|].
  cbn [renumberFromOver renumberFrom].
  destruct (matchHier p) as [[[n delim] r]|]; cbv zeta; rewrite IH; reflexivity.
Qed.

Lemma renumberOver_exact ps :
  renumberOver parseInt (fun x => addInt x 1) (Int 1) NaN numToString ps =
  renumberHierarchical ps.
Proof.
  now rewrite renumberOver_from, renumberFromOver_exact, renumberHierarchical_from.
Qed.

Section Agreement.
Local Open Scope Z_scope.

Lemma digitsValueFrom_bound ds : forall acc,
  Forall (fun c => isDigit c = true) ds -> 0 <= acc ->
  digitsValueFrom acc ds < (acc + 1) * 10 ^ Z.of_nat (length ds).
Proof.
  unfold digitsValueFrom.
  induction ds as [|c t IH]; intros acc H Hacc; cbn [fold_left length].
  - cbn. lia.
  - pose proof (Forall_inv H) as Hc. apply isDigit_range in Hc.
    assert (Hd : 0 <= digitVal c <= 9) by (unfold digitVal; lia).
    specialize (IH (10 * acc + digitVal c) (Forall_inv_tail H) ltac:(lia)).
    rewrite Nat2Z.inj_succ, Z.pow_succ_r by lia.
    assert (0 < 10 ^ Z.of_nat (length t)) by (apply Z.pow_pos_nonneg; lia).
    nia.
Qed.

Lemma digitsValue_short g :
  digitGroup g -> shortDigits g -> 0 <= digitsValue g < 10 ^ 15.
Proof.
  intros [_ Hd] Hs. unfold shortDigits in Hs. split.
  - apply digitsValueFrom_nonneg; [exact Hd|lia].
  - pose proof (digitsValueFrom_bound g 0 Hd ltac:(lia)) as Hb.
    fold (digitsValue g) in Hb.
    assert (10 ^ Z.of_nat (length g) <= 10 ^ 15)
      by (apply Z.pow_le_mono_r; lia).
    lia.
Qed.

Lemma toDbl_small z : Z.abs z < 2 ^ 53 -> toDbl z = DInt z.
Proof.
  intros H. unfold toDbl. rewrite roundMag_small by exact H.
  rewrite (proj2 (Z.ltb_lt (Z.abs z) (2 ^ 1024))) by lia.
  f_equal. lia.
Qed.

Lemma shortest_small z : 0 <= z < 2 ^ 53 -> shortest z = z.
Proof.
  intros H. destruct (shortest_spec z (isDouble_small z H)) as [Hv Hr].
  destruct (Z.lt_ge_cases (shortest z) (2 ^ 53)) as [Hs|Hb].
  - now rewrite roundMag_small in Hr.
  - assert (2 ^ 52 * 2 ^ 1 <= roundMag (shortest z))
      by (apply roundMag_ge_grid; lia).
    lia.
Qed.

Lemma showMag_small z : 0 <= z < 2 ^ 53 -> showMag z = natToString (Z.to_N z).
Proof.
  intros H. unfold showMag. cbv zeta. rewrite (shortest_small z H).
  now rewrite (proj2 (Z.ltb_lt z (10 ^ 21))) by lia.
Qed.

Lemma showDbl_small z :
  Z.abs z < 2 ^ 53 -> showDbl (DInt z) = numToString (Int z).
Proof.
  intros H. cbn [showDbl numToString]. destruct (z <? 0) eqn:E.
  - apply Z.ltb_lt in E. f_equal. apply showMag_small. lia.
  - apply Z.ltb_ge in E. apply showMag_small. lia.
Qed.

Lemma parseIntDbl_parseInt s :
  parseIntDbl s =
  match parseInt s with
  | NaN => DNaN
  | Int z => toDbl z
  end.
Proof.
  unfold parseIntDbl, parseInt.
  destruct (dropWhile isWs s) as [|c t].
  - reflexivity.
  - destruct (c =? 45)%N; [|destruct (c =? 43)%N];
      match goal with
      | |- context [takeWhile isDigit ?l] => destruct (takeWhile isDigit l)
      end; reflexivity.
Qed.

Lemma expectedPath_asDbl b current fnd :
  0 <= b -> b + 1 < 2 ^ 53 ->
  Forall (natUpTo b) current -> Forall (natUpTo b) fnd ->
  expectedPathOver (fun x => addDbl x 1) (DInt 1) DNaN
    (List.map asDbl current) (List.map asDbl fnd) =
  List.map asDbl (expectedPath current fnd) /\
  Forall (natUpTo (b + 1)) (expectedPath current fnd).
Proof.
  intros Hb0 Hb Hc Hf.
  assert (Hup : forall l, Forall (natUpTo b) l -> Forall (natUpTo (b + 1)) l).
  { intros l Hl. eapply List.Forall_impl; [|exact Hl].
    intros x (z & -> & Hz). exists z. split; [reflexivity|lia]. }
  assert (Hnth : forall i, (i < length current)%nat ->
    addDbl (nth i (List.map asDbl current) DNaN) 1 =
      asDbl (addInt (at_ current i) 1) /\
    natUpTo (b + 1) (addInt (at_ current i) 1)).
  { intros i Hi. unfold at_.
    change DNaN with (asDbl NaN). rewrite List.map_nth.
    destruct (proj1 (List.Forall_forall _ _) Hc (nth i current NaN)
                (nth_In _ _ Hi)) as (z & -> & Hz).
    cbn [asDbl addDbl addInt]. split.
    - apply toDbl_small. lia.
    - exists (z + 1). split; [reflexivity|lia]. }
  assert (Hones : forall k l, Forall (natUpTo (b + 1)) l ->
    Nat.iter k (fun acc => acc ++ [DInt 1]) (List.map asDbl l) =
      List.map asDbl (pushOnes k l) /\
    Forall (natUpTo (b + 1)) (pushOnes k l)).
  { intros k l Hl. unfold pushOnes. induction k as [|k [IH1 IH2]].
    - split; [reflexivity|exact Hl].
    - rewrite !Nat.iter_succ, IH1, List.map_app. split; [reflexivity|].
      apply List.Forall_app. split; [exact IH2|].
      repeat constructor. exists 1. split; [reflexivity|lia]. }
  unfold expectedPathOver, expectedPath. cbv zeta. rewrite !length_map.
  destruct (length current =? 0)%nat eqn:E0; [split; [reflexivity|now apply Hup]|].
  apply Nat.eqb_neq in E0.
  destruct (length fnd =? length current)%nat.
  { destruct (Hnth (length current - 1)%nat ltac:(lia)) as [-> Hn].
    rewrite List.map_app, <- firstn_map. split; [reflexivity|].
    apply List.Forall_app. split; [apply Forall_take, Hup, Hc|].
    repeat constructor. exact Hn. }
  destruct (length fnd =? length current + 1)%nat.
  { rewrite List.map_app. split; [reflexivity|].
    apply List.Forall_app. split; [now apply Hup|].
    repeat constructor. exists 1. split; [reflexivity|lia]. }
  destruct (length fnd <? length current)%nat eqn:El.
  { apply Nat.ltb_lt in El.
    destruct (Hnth (length fnd - 1)%nat ltac:(lia)) as [-> Hn].
    rewrite List.map_app, <- firstn_map. split; [reflexivity|].
    apply List.Forall_app. split; [apply Forall_take, Hup, Hc|].
    repeat constructor. exact Hn. }
  apply Hones. now apply Hup.
Qed.

Lemma joinPath_asDbl b e :
  b < 2 ^ 53 -> Forall (natUpTo b) e ->
  joinPathOver showDbl (List.map asDbl e) = joinPath e.
Proof.
  intros Hb He. unfold joinPathOver, joinPath. f_equal.
  rewrite List.map_map. apply List.map_ext_in. intros x Hx.
  destruct (proj1 (List.Forall_forall _ _) He x Hx) as (z & -> & Hz).
  apply showDbl_small. lia.
Qed.

Lemma parsePath_asDbl p n delim r :
  matchHier p = Some (n, delim, r) -> Forall shortDigits (split DOT n) ->
  List.map parseIntDbl (split DOT n) = List.map asDbl (parsePath n) /\
  Forall (natUpTo (10 ^ 15)) (parsePath n).
Proof.
  intros Hm Hs.
  destruct (matchHier_shape _ _ _ _ Hm) as (g & gs & -> & Hg & Hgs & _).
  unfold parsePath. rewrite split_dotted in * by (assumption || apply Hg).
  assert (Hall : Forall digitGroup (g :: gs)) by now constructor.
  clear Hm Hg Hgs. induction Hall as [|g1 l Hg1 Hl IH]; [split; [reflexivity|constructor]|].
  destruct (IH (Forall_inv_tail Hs)) as [IH1 IH2].
  pose proof (digitsValue_short g1 Hg1 (Forall_inv Hs)) as Hv.
  cbn [List.map]. rewrite IH1, parseIntDbl_parseInt.
  rewrite (parseInt_digitGroup g1 Hg1). cbn [asDbl].
  rewrite toDbl_small by lia. split; [reflexivity|].
  constructor; [|exact IH2]. exists (digitsValue g1). split; [reflexivity|lia].
Qed.

Lemma renumberFrom_asDbl ps : forall b current,
  10 ^ 15 <= b -> b + Z.of_nat (length ps) < 2 ^ 53 ->
  Forall (natUpTo b) current -> shortNumbers ps ->
  renumberFromOver parseIntDbl (fun x => addDbl x 1) (DInt 1) DNaN showDbl
    (List.map asDbl current) ps =
  renumberFrom current ps.
Proof.
  induction ps as [|p t IH]; intros b current Hb Hlen Hc Hs; [reflexivity|].
  pose proof (Forall_inv Hs) as Hp. cbv beta in Hp. apply Forall_inv_tail in Hs.
  cbn [length] in Hlen. rewrite Nat2Z.inj_succ in Hlen.
  cbn [renumberFromOver renumberFrom].
  destruct (matchHier p) as [[[n delim] r]|] eqn:Hm.
  - cbv zeta. destruct (parsePath_asDbl _ _ _ _ Hm Hp) as [-> Hf].
    assert (Hf' : Forall (natUpTo b) (parsePath n)).
    { eapply List.Forall_impl; [|exact Hf].
      intros x (z & -> & Hz). exists z. split; [reflexivity|lia]. }
    destruct (expectedPath_asDbl b current (parsePath n) ltac:(lia) ltac:(lia)
                Hc Hf')
      as [-> He].
    rewrite (joinPath_asDbl (b + 1)) by (lia || exact He).
    unfold rewritten. f_equal. apply (IH (b + 1)); (lia || assumption).
  - f_equal. apply (IH b); (lia || assumption).
Qed.

End Agreement.

(** X19. With the numbers of the program, doubles, renumberHierarchical is
    idempotent for every input: parseInt rounded to the nearest double,
    + 1 on doubles and numbers printed as JavaScript prints them, with an
    exponent from 10^21 on.  A number from 10^21 on is written in a form
    that the pattern does not read, and the second pass leaves such a
    paragraph as it is. *)
Theorem renumberHierarchical_double_idempotent :
  (forall xs : list jsstring,
     renumberHierarchical_double (renumberHierarchical_double xs) =
     renumberHierarchical_double xs) /\
  renumberHierarchical_double
    [str "1000000000000000000000 a"; str "7 b"; str "3.4 c"; str "9 d"] =
    [str "1e+21 a"; str "1e+21 b"; str "1e+21.1 c"; str "1e+21 d"] /\
  renumberHierarchical_double
    [str "2.1000000000000000000000 a"; str "2.5 b"; str "4 c"; str "4.4 d"] =
    [str "2.1e+21 a"; str "2.1e+21 b"; str "3 c"; str "3.1 d"] /\
  renumberHierarchical_double
    [str "9007199254740993. a"; str "5. b"; str "6. c"] =
    [str "9007199254740992. a"; str "9007199254740992. b";
     str "9007199254740992. c"].
Proof.
  split; [|split; [|split]].
  - intros xs. unfold renumberHierarchical_double.
    apply (renumberOver_idem _ _ _ _ _ okDbl badDbl).
    + apply parseIntDbl_known.
    + apply showDbl_ok.
    + apply showDbl_bad.
    + apply addDbl_ok.
    + apply addDbl_bad.
    + apply okDbl_one.
  - vm_compute. reflexivity.
  - vm_compute. reflexivity.
  - vm_compute. reflexivity.
Qed.

(** X20. The embedding on exact integers is the program on doubles as long
    as the numbers stay exact: when every number of the input has at most
    15 digits and there are fewer than 2^32 paragraphs, renumberHierarchical
    computed on doubles returns what the embedding returns. *)
Theorem renumberHierarchical_double_agrees :
  forall ps : list jsstring,
    shortNumbers ps -> (Z.of_nat (length ps) < 2 ^ 32)%Z ->
    renumberHierarchical_double ps = renumberHierarchical ps.
Proof.
  intros ps Hs Hlen. unfold renumberHierarchical_double.
  rewrite renumberOver_from, renumberHierarchical_from.
  apply (renumberFrom_asDbl ps (10 ^ 15)%Z []); [lia|lia|constructor|exact Hs].
Qed.

Lemma renumberHierarchical_double_agrees_witness :
  renumberHierarchical_double [str "6 a"; str "6.3.5 b"; str "note"; str "9) c"] =
  renumberHierarchical [str "6 a"; str "6.3.5 b"; str "note"; str "9) c"].
Proof.
  apply renumberHierarchical_double_agrees.
  - repeat constructor; unfold shortDigits; cbn; lia.
  - cbn. lia.
Defined.

(** ** checkNumbering on doubles *)

Section CheckAgreement.
Local Open Scope Z_scope.

Lemma checkStep_asDbl ps : forall i acc z b,
  1 <= z <= b -> 10 ^ 15 <= b -> b + Z.of_nat (length ps) < 2 ^ 53 ->
  shortMarkers ps ->
  forEachFrom i
    (checkStepOver parseIntDbl (fun x => addDbl x 1) strictEqDbl) ps
    (List.map issueAsDbl acc, DInt z) =
  (List.map issueAsDbl
     (cs_issues (forEachFrom i checkStep ps (mkCheck acc (Int z)))),
   asDbl (cs_expected (forEachFrom i checkStep ps (mkCheck acc (Int z))))).
Proof.
  induction ps as [|p t IH]; intros i acc z b Hz Hb Hlen Hs; [reflexivity|].
  pose proof (Forall_inv Hs) as Hp. cbv beta in Hp. apply Forall_inv_tail in Hs.
  cbn [length] in Hlen. rewrite Nat2Z.inj_succ in Hlen.
  cbn [forEachFrom]. unfold checkStepOver at 2, checkStep at 2 4.
  cbn [fst snd cs_issues cs_expected].
  destruct (matchFlat p) as [ds|] eqn:Hm.
  - destruct (matchFlat_digits _ _ Hm) as (d & ds' & -> & Hd).
    assert (Hg : digitGroup (d :: ds')) by (split; [discriminate|exact Hd]).
    pose proof (digitsValue_short _ Hg Hp) as Hv.
    rewrite parseIntDbl_parseInt, (parseInt_digits _ _ Hd).
    rewrite toDbl_small by lia. cbn [strictEqDbl strictEq addDbl addInt].
    destruct (digitsValue (d :: ds') =? z); cbn [negb].
    + rewrite toDbl_small by lia. apply (IH _ _ _ (b + 1)); (lia || assumption).
    + rewrite toDbl_small by lia.
      change (List.map issueAsDbl acc ++
              [mkIssueOver i (DInt (digitsValue (d :: ds'))) (DInt z) p])
        with (List.map issueAsDbl acc ++
              List.map issueAsDbl
                [mkIssue i (Int (digitsValue (d :: ds'))) (Int z) p]).
      rewrite <- List.map_app. apply (IH _ _ _ (b + 1)); (lia || assumption).
  - apply (IH _ _ _ b); (lia || assumption).
Qed.

End CheckAgreement.

(** X21. The checker on exact integers is the checker on doubles as long
    as the numbers stay exact: when every marker has at most 15 digits and
    there are fewer than 2^32 paragraphs, checkNumbering computed on
    doubles reports the issues of the embedding.  Beyond that the two
    differ: from 2^53 on the program finds found + 1 equal to found, so a
    marker repeated there is reported once by the program and twice on
    exact integers. *)
Theorem checkNumbering_double_agrees :
  (forall ps : list jsstring,
     shortMarkers ps -> (Z.of_nat (length ps) < 2 ^ 32)%Z ->
     checkNumbering_double ps = List.map issueAsDbl (checkNumbering ps)) /\
  checkNumbering_double
    [str "9007199254740992. a"; str "9007199254740992. b"] =
    [mkIssueOver 0 (DInt 9007199254740992) (DInt 1)
       (str "9007199254740992. a")] /\
  checkNumbering [str "9007199254740992. a"; str "9007199254740992. b"] =
    [mkIssue 0 (Int 9007199254740992) (Int 1) (str "9007199254740992. a");
     mkIssue 1 (Int 9007199254740992) (Int 9007199254740993)
       (str "9007199254740992. b")].
Proof.
  split; [|split].
  - intros ps Hs Hlen. unfold checkNumbering_double, checkNumberingOver,
      checkNumbering, forEach.
    change (@nil (IssueOver Dbl)) with (List.map issueAsDbl []).
    rewrite (checkStep_asDbl ps 0%nat [] 1%Z (10 ^ 15)%Z); (reflexivity || lia || assumption).
  - vm_compute. reflexivity.
  - vm_compute. reflexivity.
Qed.

Lemma checkNumbering_double_agrees_witness :
  checkNumbering_double [str "1. a"; str "3. b"; str "4. c"] =
  List.map issueAsDbl (checkNumbering [str "1. a"; str "3. b"; str "4. c"]).
Proof.
  apply checkNumbering_double_agrees.
  - repeat constructor; unfold shortDigits; cbn; lia.
  - cbn. lia.
Defined.

(** ** The number operations of the embedding and of the program *)

(** X22. The number operations of the embedding are those of the program
    inside the range of exact integers: parseInt of at most 15 digits, with
    or without a minus sign, + 1 and - 1 below 2^53 in absolute value, and
    the printing of an integer below 2^53 in absolute value.  Beyond it the
    program rounds: 9007199254740993 is read as 9007199254740992, adding 1
    to 2^53 gives 2^53, and 10^21 is printed with an exponent. *)
Theorem numbers_exact_in_range :
  (forall s, parseIntDbl s =
             match parseInt s with NaN => DNaN | Int z => toDbl z end) /\
  (forall z, (Z.abs z < 2 ^ 53)%Z -> toDbl z = DInt z) /\
  (forall ds, digitGroup ds -> shortDigits ds ->
     parseIntDbl ds = asDbl (parseInt ds) /\
     parseIntDbl (45 :: ds) = asDbl (parseInt (45 :: ds))) /\
  (forall z k, (Z.abs (z + k) < 2 ^ 53)%Z ->
     addDbl (DInt z) k = asDbl (addInt (Int z) k)) /\
  (forall z, (Z.abs z < 2 ^ 53)%Z ->
     showDbl (DInt z) = numToString (Int z)) /\
  parseIntDbl (str "9007199254740993") = DInt 9007199254740992 /\
  addDbl (DInt (2 ^ 53)) 1 = DInt (2 ^ 53) /\
  addDbl (addDbl (parseIntDbl (str "9007199254740994")) (-1)) 1 =
    DInt 9007199254740992 /\
  showDbl (parseIntDbl (str "1000000000000000000000")) = str "1e+21" /\
  showDbl (parseIntDbl (str "1152921504606846976")) =
    str "1152921504606847000".
Proof.
  split; [apply parseIntDbl_parseInt|].
  split; [apply toDbl_small|].
  split.
  { intros ds Hg Hs. pose proof (digitsValue_short ds Hg Hs) as Hv.
    rewrite !parseIntDbl_parseInt.
    destruct Hg as [Hne Hd]. destruct ds as [|d ds]; [congruence|].
    rewrite (parseInt_digits _ _ Hd), (parseInt_minus_digits _ _ Hd).
    cbn [asDbl]. split; apply toDbl_small; lia. }
  split; [intros z k H; cbn [addDbl addInt asDbl]; now apply toDbl_small|].
  split; [apply showDbl_small|].
  repeat split; vm_compute; reflexivity.
Qed.

Lemma numbers_exact_in_range_witness :
  parseIntDbl (str "-42") = DInt (-42) /\
  addDbl (DInt (-42)) 1 = DInt (-41) /\
  showDbl (DInt (-41)) = str "-41".
Proof.
  destruct numbers_exact_in_range as (_ & _ & H3 & H4 & H5 & _).
  split; [|split].
  - apply (H3 (str "42")).
    + split; [discriminate|repeat constructor].
    + unfold shortDigits. cbn. lia.
  - apply (H4 (-42)%Z 1%Z). cbn. lia.
  - apply (H5 (-41)%Z). cbn. lia.
Defined.

